(** * net_flow_opt: the scheduler and the NSGA-II engine, embedded in Rocq

    The development follows [src/core/scheduler.py] and [src/core/moga.py].

    Conventions of the embedding.
    - Python floats are exact rationals ([Q]), kept in lowest terms after
      every operation; comparisons are the rational ones.  Rounding, infinities
      and NaN are outside the model.
    - The Weibull shape [beta] is an integer, so that [**] is [Qpower].
    - An exception is a value of [result]; a loop that the source writes with
      [while] takes a fuel argument and answers [OutOfFuel] when it is used up.
    - Individuals are mutable objects shared between lists: they live in a
      heap and lists hold references to them. *)

From Stdlib Require Import String.
From Stdlib Require Import ZArith QArith Qreduction Qpower Qabs Qfield.
From Stdlib Require Import Bool List Lia Lqa Permutation Arith.
From Stdlib Require Import Sorted.
Import ListNotations.

Set Implicit Arguments.

(** ** Exceptions and results *)

Inductive exn :=
| ValueError
| ZeroDivisionError
| IndexError
| AttributeError
| TypeError
| AssertionError.

Inductive result (A : Type) :=
| Ok (a : A)
| Raise (e : exn)
| OutOfFuel.

Arguments Ok {A} a.
Arguments Raise {A} e.
Arguments OutOfFuel {A}.

Definition bind {A B} (m : result A) (k : A -> result B) : result B :=
  match m with
  | Ok a => k a
  | Raise e => Raise e
  | OutOfFuel => OutOfFuel
  end.

Declare Scope py_scope.
Delimit Scope py_scope with py.
Notation "x <- m ;; k" := (bind m (fun x => k))
  (at level 61, m at next level, right associativity) : py_scope.
Notation "' p <- m ;; k" := (bind m (fun p => k))
  (at level 61, p pattern, m at next level, right associativity) : py_scope.
Open Scope py_scope.

(** [for v in l: acc = body acc v], where the body may raise. *)
Fixpoint foldM {A B} (body : A -> B -> result A) (l : list B) (acc : A)
  : result A :=
  match l with
  | [] => Ok acc
  | v :: l' => acc' <- body acc v ;; foldM body l' acc'
  end.

(** [[f v for v in l]], where [f] may raise. *)
Fixpoint mapM {A B} (f : A -> result B) (l : list A) : result (list B) :=
  match l with
  | [] => Ok []
  | v :: l' => b <- f v ;; bs <- mapM f l' ;; Ok (b :: bs)
  end.

(** ** Floats *)

Definition float := Q.

Module Float.

Definition add (x y : float) : float := Qred (x + y).
Definition sub (x y : float) : float := Qred (x - y).
Definition mul (x y : float) : float := Qred (x * y).

(** [x / y] raises on a zero divisor. *)
Definition div (x y : float) : result float :=
  if Qeq_bool y 0 then Raise ZeroDivisionError else Ok (Qred (x / y)).

(** [x ** n]; zero to a negative power raises. *)
Definition pow (x : float) (n : Z) : result float :=
  if Qeq_bool x 0 && (n <? 0)%Z then Raise ZeroDivisionError
  else Ok (Qred (x ^ n)).

Definition ltb (x y : float) : bool :=
  match x ?= y with Lt => true | _ => false end.
Definition gtb (x y : float) : bool := ltb y x.
Definition leb (x y : float) : bool := negb (ltb y x).

Definition of_Z (z : Z) : float := inject_Z z.

(** [sum(...)] of a generator of floats: starts from 0. *)
Definition sum (l : list float) : float := fold_left add l 0.

(** [max(...)] of a generator: raises on an empty one, and keeps the
    first of the greatest items. *)
Definition max (l : list float) : result float :=
  match l with
  | [] => Raise ValueError
  | x :: l' => Ok (fold_left (fun m y => if ltb m y then y else m) l' x)
  end.

End Float.

(** ** Components (core.system, not part of the sources at hand)

    Modelled from the spec: the attributes of a [Component] that the
    scheduler reads: its identity [idx], the costs [cp] and [cc], the scale
    [alpha], the shape [beta], the optimal age [x_star] and the cost rate
    [phi_star]. *)

Module Component.
Record Component := mk {
  idx : nat;
  cp : float;
  cc : float;
  alpha : float;
  beta : Z;
  x_star : float;
  phi_star : float
}.
End Component.
Abbreviation Component := Component.Component.

(** ** Activity *)

Module Activity.

Record Activity := mk {
  component : Component;
  t : float;
  d : float
}.

Definition set_t (a : Activity) (date : float) : Activity :=
  mk (component a) date (d a).

Import Component.

Definition expectedCost (a : Activity) (x : float) : result float :=
  q <- Float.div x (alpha (component a)) ;;
  p <- Float.pow q (beta (component a)) ;;
  Ok (Float.add (cp (component a)) (Float.mul (cc (component a)) p)).

(** Penalty function to defer the component from its PM date. *)
Definition h (a : Activity) (delta_t : float) : result float :=
  c1 <- expectedCost a (Float.add (x_star (component a)) delta_t) ;;
  c0 <- expectedCost a (x_star (component a)) ;;
  Ok (Float.sub (Float.sub c1 c0)
                (Float.mul delta_t (phi_star (component a)))).

(** Derivative of the penalty function. *)
Definition dh (a : Activity) (delta_t : float) : result float :=
  let c := component a in
  pa <- Float.pow (alpha c) (- beta c) ;;
  px <- Float.pow (Float.add (x_star c) delta_t) (beta c - 1) ;;
  Ok (Float.sub
        (Float.mul (Float.mul (Float.mul (cc c) pa) px)
                   (Float.of_Z (beta c)))
        (phi_star c)).

(** Second derivative of the penalty function. *)
Definition ddh (a : Activity) (delta_t : float) : result float :=
  let c := component a in
  pa <- Float.pow (alpha c) (- beta c) ;;
  px <- Float.pow (Float.add (x_star c) delta_t) (beta c - 2) ;;
  Ok (Float.mul
        (Float.mul (Float.mul (Float.mul (cc c) pa) (Float.of_Z (beta c)))
                   (Float.of_Z (beta c - 1)))
        px).

End Activity.
Abbreviation Activity := Activity.Activity.

(** ** Group *)

Module Group.

Record Group := mk {
  activities : list Activity;
  size : nat;
  IC : option float
}.

(** [Group.__init__] *)
Definition init (acts : list Activity) : Group :=
  mk acts (length acts) None.

Definition sum_over (f : Activity -> float -> result float)
           (g : Group) (x : float) : result float :=
  terms <- mapM (fun a => f a (Float.sub x (Activity.t a)))
                (activities g) ;;
  Ok (Float.sum terms).

(** The expected cost of corrective maintenance of the group. *)
Definition H := sum_over Activity.h.
Definition dH := sum_over Activity.dh.
Definition ddH := sum_over Activity.ddh.

Definition window_start (a : Activity) : float :=
  Float.sub (Activity.t a) (Component.x_star (Activity.component a)).
Definition window_end (a : Activity) : float :=
  Float.add (Activity.t a) (Component.x_star (Activity.component a)).

Definition is_feasible (g : Group) : result bool :=
  earliest_start <- Float.max (map window_start (activities g)) ;;
  Ok (fold_left
        (fun is_feasible a =>
           if Float.ltb (window_end a) earliest_start then false
           else is_feasible)
        (activities g) true).

(** The threshold [1e-3] and the first value of [diff], [1e5]. *)
Definition tolerance : float := 1 # 1000.
Definition diff0 : float := 100000 # 1.

(** [x[-1]] and [x[-2]] of a list in source order. *)
Definition last1 (x : list float) : float := last x 0.
Definition last2 (x : list float) : float := last (removelast x) 0.

(** The [while diff > 1e-3] loop of [minimize]; [x] is the list of
    iterates, appended at its end. *)
Fixpoint newton (fuel : nat) (g : Group) (x : list float) (diff : float)
  : result (list float) :=
  if Float.gtb diff tolerance then
    match fuel with
    | O => OutOfFuel
    | S fuel' =>
        num <- dH g (last1 x) ;;
        den <- ddH g (last1 x) ;;
        q <- Float.div num den ;;
        let x' := x ++ [Float.sub (last1 x) q] in
        newton fuel' g x' (Float.sub (last2 x') (last1 x'))
    end
  else Ok x.

Definition mean (g : Group) : result float :=
  Float.div (Float.sum (map Activity.t (activities g)))
            (Float.of_Z (Z.of_nat (size g))).

(** Newton's method for the execution date of the group; the date of
    every activity of the group is set to the date found. *)
Definition minimize (fuel : nat) (g : Group) : result Group :=
  x0 <- mean g ;;
  x <- newton fuel g [x0] diff0 ;;
  ic <- H g (last1 x) ;;
  Ok (mk (map (fun a => Activity.set_t a (last1 x)) (activities g))
         (size g) (Some ic)).

End Group.
Abbreviation Group := Group.Group.

(** ** The system graph (networkx.DiGraph, as the scheduler uses it)

    A node is either a string (the source ["s"], the sink ["t"]) or a
    component object. *)

Module DiGraph.

Inductive Node :=
| Str (name : String.string)
| Comp (c : Component).

Record DiGraph := mk {
  nodes : list Node;
  edges : list (Node * Node)
}.

Definition float_eq_dec (x y : float) : {x = y} + {x <> y}.
Proof. decide equality; [apply Pos.eq_dec | apply Z.eq_dec]. Defined.

Definition Component_eq_dec (x y : Component) : {x = y} + {x <> y}.
Proof.
  decide equality;
    try apply float_eq_dec; try apply Z.eq_dec; apply Nat.eq_dec.
Defined.

Definition Node_eq_dec (x y : Node) : {x = y} + {x <> y}.
Proof.
  decide equality; [apply String.string_dec | apply Component_eq_dec].
Defined.

Definition mem (n : Node) (ns : list Node) : bool :=
  if in_dec Node_eq_dec n ns then true else false.

(** [G.remove_nodes_from(ns)]: the nodes go, and the edges at them. *)
Definition remove_nodes_from (g : DiGraph) (ns : list Node) : DiGraph :=
  mk (filter (fun n => negb (mem n ns)) (nodes g))
     (filter (fun e => negb (mem (fst e) ns) && negb (mem (snd e) ns))
             (edges g)).

End DiGraph.
Abbreviation DiGraph := DiGraph.DiGraph.

(** ** System (core.system, not part of the sources at hand)

    Modelled from the spec: [N], the component count; [resources], the
    number of repair crews; [regular_flow]; and the graph [structure]. *)

Module System.
Record System := mk {
  N : nat;
  resources : nat;
  regular_flow : float;
  structure : DiGraph
}.
End System.
Abbreviation System := System.System.

(** ** numpy arrays of the grouping structure

    [X[i, j, r]] is a list of [N] rows, each a list of slots, each a list
    over the resources. *)

Module Np.

Definition vector := list Z.
Definition matrix := list vector.
Definition tensor := list matrix.

Definition sum1 (v : vector) : Z := fold_left Z.add v 0%Z.
Definition sum2 (m : matrix) : Z := sum1 (map sum1 m).

(** [np.sum(x, axis=-1)] of a tensor. *)
Definition sum_last (x : tensor) : matrix := map (map sum1) x.

(** [m.shape[1]] *)
Definition shape1 {A} (m : list (list A)) : nat := length (hd [] m).

(** [m[:, j]] *)
Definition column {A} (d : A) (m : list (list A)) (j : nat) : list A :=
  map (fun row => nth j row d) m.

(** [v.any()] *)
Definition any (v : vector) : bool :=
  existsb (fun z => negb (z =? 0)%Z) v.

(** [np.flatnonzero(v)] *)
Definition flatnonzero (v : vector) : list nat :=
  map fst (filter (fun iz => negb (snd iz =? 0)%Z)
                  (combine (seq 0 (length v)) v)).

(** [np.sum(m, axis=0)] and [np.sum(m, axis=1)] of a matrix. *)
Definition sum_axis0 (m : matrix) : vector :=
  map (fun j => sum1 (column 0%Z m j)) (seq 0 (shape1 m)).
Definition sum_axis1 (m : matrix) : vector := map sum1 m.

(** [np.zeros((n, m))] *)
Definition zeros2 (n m : nat) : matrix := repeat (repeat 0%Z m) n.

(** [l[i] = v], inside the bounds. *)
Fixpoint set_nth {A} (l : list A) (i : nat) (v : A) : list A :=
  match l, i with
  | [], _ => []
  | _ :: l', O => v :: l'
  | a :: l', S i' => a :: set_nth l' i' v
  end.

(** [l[i]] *)
Definition get {A} (l : list A) (i : nat) : result A :=
  match nth_error l i with
  | Some a => Ok a
  | None => Raise IndexError
  end.

End Np.

(** ** Plan *)

Module Plan.

(** [N] is an attribute that moga.py reads and that scheduler.py never
    assigns: a plan has it only when a caller has assigned it
    ([plan.N = n]), and [None] stands for a plan without it.  The same
    holds of [grouping_structure], which [__init__] assigns only when it
    is given one. *)
Record Plan := mk {
  activities : list Activity;
  system : System;
  IC : float;
  LF : float;
  grouping_structure : option Np.tensor;
  N : option nat
}.

(** Reading [plan.N]: an [AttributeError] on a plan without the
    attribute. *)
Definition get_N (p : Plan) : result nat :=
  match N p with
  | Some n => Ok n
  | None => Raise AttributeError
  end.

(** [plan.N = n], by a caller. *)
Definition set_N (n : nat) (p : Plan) : Plan :=
  mk (activities p) (system p) (IC p) (LF p) (grouping_structure p) (Some n).

(** An event of the history: a dictionary with the keys ["date"],
    ["structure"] and ["flow"]. *)
Record Event := mkEvent {
  date : float;
  ev_structure : option DiGraph;
  flow : option float
}.

(** [history.sort(key=lambda a: a["date"])]: a stable sort. *)
Fixpoint insert (e : Event) (l : list Event) : list Event :=
  match l with
  | [] => [e]
  | e' :: l' =>
      if Float.ltb (date e) (date e') then e :: l
      else e' :: insert e l'
  end.
Definition sort (l : list Event) : list Event :=
  fold_left (fun acc e => insert e acc) l [].

Section WithMaxFlow.

(** The collaborators: [System.from_node_to_edge_capacity] and
    [networkx.maximum_flow_value]. *)
Variable from_node_to_edge_capacity : System -> DiGraph -> DiGraph.
Variable maximum_flow_value :
  DiGraph -> String.string -> String.string -> float.

(** The nodes to remove at [date]: those of the activities under way. *)
Definition node_ids (acts : list Activity) (date : float) : list nat :=
  map (fun a => Component.idx (Activity.component a))
      (filter (fun a =>
                 Float.gtb (Float.add (Activity.t a) (Activity.d a)) date
                 && Float.leb (Activity.t a) date)
              acts).

Definition non_active (ids : list nat) (n : DiGraph.Node) : bool :=
  match n with
  | DiGraph.Str _ => false
  | DiGraph.Comp c =>
      if in_dec Nat.eq_dec (Component.idx c) ids then true else false
  end.

Definition generate_structure_history (acts : list Activity)
           (sys : System) : list Event :=
  let history :=
    map (fun a => mkEvent (Activity.t a) None None) acts
    ++ map (fun a => mkEvent (Float.add (Activity.t a) (Activity.d a))
                             None None) acts in
  let history := history ++ [mkEvent 0 None None] in
  let history := sort history in
  map (fun event =>
         let structure := System.structure sys in
         let ids := node_ids acts (date event) in
         mkEvent (date event)
           (Some (DiGraph.remove_nodes_from structure
                    (filter (non_active ids) (DiGraph.nodes structure))))
           None)
      history.

Definition generate_flow_history (acts : list Activity) (sys : System)
  : list Event :=
  map (fun config =>
         mkEvent (date config) (ev_structure config)
           (option_map
              (fun g => maximum_flow_value
                          (from_node_to_edge_capacity sys g)
                          "s"%string "t"%string)
              (ev_structure config)))
      (generate_structure_history acts sys).

Definition flow_of (e : Event) : float :=
  match flow e with Some f => f | None => 0 end.

Definition evaluate_flow_reduction (acts : list Activity) (sys : System)
  : float :=
  let history := generate_flow_history acts sys in
  let dflt := mkEvent 0 None None in
  fold_left
    (fun lf i =>
       Float.add lf
         (Float.mul
            (Float.sub (System.regular_flow sys)
                       (flow_of (nth i history dflt)))
            (Float.sub (date (nth (i + 1) history dflt))
                       (date (nth i history dflt)))))
    (seq 0 (length history - 1)) 0.

(** One column of [set_dates]: the activities of slot [j] form a group,
    the group is minimized, and its activities (the plan's own objects)
    carry the new date. *)
Definition set_dates_column (fuel : nat) (sys : System)
           (gs : Np.matrix) (st : list Activity * float) (j : nat)
  : result (list Activity * float) :=
  let '(acts, ic) := st in
  if Np.any (Np.column 0%Z gs j) then
    rows <- mapM (fun i => row <- Np.get gs i ;;
                           e <- Np.get row j ;; Ok (i, e))
                 (seq 0 (System.N sys)) ;;
    let members := map fst (filter (fun ie => (snd ie =? 1)%Z) rows) in
    group <- mapM (Np.get acts) members ;;
    g <- Group.minimize fuel (Group.init group) ;;
    let acts' :=
      fold_left (fun l ia => Np.set_nth l (fst ia) (snd ia))
                (combine members (Group.activities g)) acts in
    Ok (acts', match Group.IC g with
               | Some c => Float.add ic c
               | None => ic
               end)
  else Ok (acts, ic).

Definition set_dates (fuel : nat) (acts : list Activity) (sys : System)
           (grouping_structure : Np.tensor)
  : result (list Activity * float) :=
  let gs := Np.sum_last grouping_structure in
  foldM (set_dates_column fuel sys gs) (seq 0 (Np.shape1 gs)) (acts, 0).

(** [Plan.__init__] *)
Definition init (fuel : nat) (acts : list Activity) (sys : System)
           (grouping_structure : option Np.tensor) : result Plan :=
  let ic := 0 in
  let lf := evaluate_flow_reduction acts sys in
  match grouping_structure with
  | None => Ok (mk acts sys ic lf None None)
  | Some gs =>
      '(acts', ic') <- set_dates fuel acts sys gs ;;
      Ok (mk acts' sys ic' (evaluate_flow_reduction acts' sys) (Some gs)
             None)
  end.

End WithMaxFlow.

End Plan.
Abbreviation Plan := Plan.Plan.

(** A few more array operations, with numpy's bound checks. *)

Module NpIdx.

(** [m[i, j] = v] *)
Definition set2 {A} (m : list (list A)) (i j : nat) (v : A)
  : result (list (list A)) :=
  match nth_error m i with
  | None => Raise IndexError
  | Some row =>
      if j <? length row then Ok (Np.set_nth m i (Np.set_nth row j v))
      else Raise IndexError
  end.

(** [np.delete(l, k)] *)
Fixpoint delete {A} (l : list A) (k : nat) : result (list A) :=
  match l, k with
  | [], _ => Raise IndexError
  | _ :: l', O => Ok l'
  | a :: l', S k' => l'' <- delete l' k' ;; Ok (a :: l'')
  end.

(** [x[:, j, :]] of a tensor. *)
Definition slot (x : Np.tensor) (j : nat) : Np.matrix := Np.column [] x j.

(** The value of an assignment [target[...] = m] is broadcast to the shape
    of the target: a dimension of length 1 is repeated, and any other
    difference of length is a [ValueError]. *)
Definition broadcast {A} (k : nat) (l : list A) : result (list A) :=
  if length l =? k then Ok l
  else match l with
       | [a] => Ok (repeat a k)
       | _ => Raise ValueError
       end.
Definition broadcast2 {A} (rows cols : nat) (m : list (list A))
  : result (list (list A)) :=
  m' <- mapM (broadcast cols) m ;;
  broadcast rows m'.

(** [np.min(np.array(l))]: raises on an empty array. *)
Definition min (l : list float) : result float :=
  match l with
  | [] => Raise ValueError
  | x :: l' =>
      Ok (fold_left (fun m y => if Float.ltb y m then y else m) l' x)
  end.

End NpIdx.

(** ** numpy.random

    The generator is a stream of raw draws and a position in it; every call
    consumes one draw. *)

Module Random.

Record state := mk {
  draws : nat -> Z;
  pos : nat
}.

Definition next (s : state) : Z * state :=
  (draws s (pos s), mk (draws s) (S (pos s))).

(** [np.random.rand()]: a float of [0, 1), on 53 bits. *)
Definition rand (s : state) : float * state :=
  let (z, s') := next s in
  (Qred (Qmake (z mod 9007199254740992) 9007199254740992), s').

(** [np.random.randint(n)]: an integer of [0, n); raises when [n = 0]. *)
Definition randint (n : nat) (s : state) : result (nat * state) :=
  match n with
  | O => Raise ValueError
  | _ => let (z, s') := next s in
         Ok (Z.to_nat (z mod Z.of_nat n), s')
  end.

(** [np.random.choice(l)]: an item of [l]; raises when [l] is empty. *)
Definition choice (l : list nat) (s : state) : result (nat * state) :=
  match l with
  | [] => Raise ValueError
  | _ => let (z, s') := next s in
         Ok (nth (Z.to_nat (z mod Z.of_nat (length l))) l O, s')
  end.

End Random.

(** ** Individual *)

Definition ref := nat.

(** A crowding distance: a float, or [inf]. *)
Inductive distance :=
| Finite (q : float)
| Infinite.

Module Individual.

(** [dominatorCounter] and [dominatedSolutions] are the attributes that the
    sort creates on the objects before it reads them; [dominator_counter]
    and [dominated_solutions] are those of [__init__]. *)
Record Individual := mk {
  plan : Plan;
  dominated_solutions : list ref;
  dominator_counter : Z;
  rank : Z;
  score : float * float;
  crowding_distance : distance;
  dominatorCounter : Z;
  dominatedSolutions : list ref
}.

(** [Individual.__init__] *)
Definition init (p : Plan) : Individual :=
  mk p [] 0%Z 0%Z (Plan.LF p, Plan.IC p) (Finite 0) 0%Z [].

Definition set_rank (v : Z) (i : Individual) : Individual :=
  mk (plan i) (dominated_solutions i) (dominator_counter i) v (score i)
     (crowding_distance i) (dominatorCounter i) (dominatedSolutions i).

Definition set_dominatorCounter (v : Z) (i : Individual) : Individual :=
  mk (plan i) (dominated_solutions i) (dominator_counter i) (rank i)
     (score i) (crowding_distance i) v (dominatedSolutions i).

Definition set_dominatedSolutions (v : list ref) (i : Individual)
  : Individual :=
  mk (plan i) (dominated_solutions i) (dominator_counter i) (rank i)
     (score i) (crowding_distance i) (dominatorCounter i) v.

Definition set_crowding_distance (v : distance) (i : Individual)
  : Individual :=
  mk (plan i) (dominated_solutions i) (dominator_counter i) (rank i)
     (score i) v (dominatorCounter i) (dominatedSolutions i).

Section WithMaxFlow.

Variable from_node_to_edge_capacity : System -> DiGraph -> DiGraph.
Variable maximum_flow_value :
  DiGraph -> String.string -> String.string -> float.
(** The iterations allowed to each Newton loop. *)
Variable fuel : nat.

(** The candidate groups [g]: the slots other than [g_id] with fewer
    than [resources] assignments. *)
Definition candidate_groups (x : Np.tensor) (g_id resources : nat)
  : list nat :=
  filter (fun j =>
            negb (j =? g_id)
            && (Np.sum2 (NpIdx.slot x j) <? Z.of_nat resources)%Z)
         (seq 0 (Np.shape1 x)).

(** The feasible groups [f] among the candidates. *)
Definition feasible_groups (acts : list Activity) (x : Np.tensor)
           (i : nat) (g : list nat) : result (list nat) :=
  foldM (fun f j =>
           members <- mapM (Np.get acts)
                           (Np.flatnonzero
                              (Np.sum_axis1 (NpIdx.slot x j))) ;;
           a_i <- Np.get acts i ;;
           ok <- Group.is_feasible (Group.init (members ++ [a_i])) ;;
           Ok (if ok then f ++ [j] else f))
        g [].

(** The body of [for i in range(x.shape[0])]. *)
Definition mutate_component (p : Plan) (p_mutation : float)
           (st : Np.tensor * Random.state) (i : nat)
  : result (Np.tensor * Random.state) :=
  let '(x, rng) := st in
  let '(u, rng) := Random.rand rng in
  if Float.ltb u p_mutation then
    x_i <- Np.get x i ;;
    g_id <- Np.get (Np.flatnonzero (Np.sum_axis0 x_i)) 0 ;;
    let resources := System.resources (Plan.system p) in
    let g := candidate_groups x g_id resources in
    f <- feasible_groups (Plan.activities p) x i g ;;
    n <- Plan.get_N p ;;
    let allele := Np.zeros2 n resources in
    '(j', rng) <- Random.choice f rng ;;
    '(r', rng) <- Random.randint resources rng ;;
    allele <- NpIdx.set2 allele j' r' 1%Z ;;
    x_i' <- NpIdx.broadcast2 (length x_i) (Np.shape1 x_i) allele ;;
    Ok (Np.set_nth x i x_i', rng)
  else Ok (x, rng).

(** [Individual.mutate]: returns a newly generated individual. *)
Definition mutate (individual : Individual) (p_mutation : float)
           (rng : Random.state) : result (Individual * Random.state) :=
  match Plan.grouping_structure (plan individual) with
  | None => Raise AttributeError
  | Some x =>
      '(x', rng') <- foldM (mutate_component (plan individual) p_mutation)
                           (seq 0 (length x)) (x, rng) ;;
      p' <- Plan.init from_node_to_edge_capacity maximum_flow_value fuel
                      (Plan.activities (plan individual))
                      (Plan.system (plan individual)) (Some x') ;;
      Ok (init p', rng')
  end.

End WithMaxFlow.

End Individual.
Abbreviation Individual := Individual.Individual.

(** ** The heap of Individual objects *)

Module Heap.

Record Heap := mk {
  objs : ref -> Individual;
  next : ref
}.

Definition get (h : Heap) (r : ref) : Individual := objs h r.

Definition set (h : Heap) (r : ref) (v : Individual) : Heap :=
  mk (fun r' => if Nat.eqb r' r then v else objs h r') (next h).

(** A new object: its reference is the next free one. *)
Definition alloc (h : Heap) (v : Individual) : ref * Heap :=
  (next h, mk (fun r' => if Nat.eqb r' (next h) then v else objs h r')
              (S (next h))).

Definition modify (h : Heap) (r : ref) (f : Individual -> Individual)
  : Heap :=
  set h r (f (get h r)).

End Heap.
Abbreviation Heap := Heap.Heap.

(** ** Mutation and the generational loop *)

Module MOGA.

Record MOGA := mk {
  init_pop_size : nat;
  parallel : bool;
  p_mutation : float;
  n_generations : nat;
  plan : Plan;
  population_history : list (list ref)
}.

(** [MOGA.__init__] *)
Definition init (init_pop_size : nat) (p_mutation : float)
           (n_generations : nat) (maintenance_plan : Plan)
           (parallel : bool) : MOGA :=
  mk init_pop_size parallel p_mutation n_generations maintenance_plan [].

Definition record_population (m : MOGA) (P : list ref) : MOGA :=
  mk (init_pop_size m) (parallel m) (p_mutation m) (n_generations m)
     (plan m) (population_history m ++ [P]).

(** *** The non-dominated sort of the sources *)

Definition score0 (i : Individual) : float := fst (Individual.score i).
Definition score1 (i : Individual) : float := snd (Individual.score i).

(** Line 294: [p] dominates [q]. *)
Definition dominates (p q : Individual) : bool :=
  Float.ltb (score0 p) (score0 q) && Float.ltb (score1 p) (score1 q).

(** Line 297: [p] is dominated by [q]. *)
Definition dominated_by (p q : Individual) : bool :=
  Float.gtb (score0 p) (score0 q) && Float.gtb (score1 p) (score1 q).

Definition clean (h : Heap) (i : ref) : Heap :=
  let h := Heap.modify h i (Individual.set_rank 0%Z) in
  let h := Heap.modify h i (Individual.set_dominatorCounter 0%Z) in
  Heap.modify h i (Individual.set_dominatedSolutions []).

(** The body of [for q in population]. *)
Definition compare (p : ref) (h : Heap) (q : ref) : Heap :=
  if dominates (Heap.get h p) (Heap.get h q) then
    Heap.modify h p
      (fun o => Individual.set_dominatedSolutions
                  (Individual.dominatedSolutions o ++ [q]) o)
  else if dominated_by (Heap.get h p) (Heap.get h q) then
    Heap.modify h p
      (fun o => Individual.set_dominatorCounter
                  (Individual.dominatorCounter o + 1)%Z o)
  else h.

(** The body of [for p in population]. *)
Definition first_front (population : list ref)
           (st : Heap * list ref) (p : ref) : Heap * list ref :=
  let h := fold_left (compare p) population (fst st) in
  if (Individual.dominatorCounter (Heap.get h p) =? 0)%Z then
    (Heap.modify h p (Individual.set_rank 1%Z), snd st ++ [p])
  else (h, snd st).

(** The body of [for q in p.dominatedSolutions]. *)
Definition release (i : nat) (st : Heap * list ref) (q : ref)
  : Heap * list ref :=
  let h :=
    Heap.modify (fst st) q
      (fun o => Individual.set_dominatorCounter
                  (Individual.dominatorCounter o - 1)%Z o) in
  if (Individual.dominatorCounter (Heap.get h q) =? 0)%Z then
    (Heap.modify h q (Individual.set_rank (Z.of_nat i + 2)%Z),
     snd st ++ [q])
  else (h, snd st).

(** The body of [while frontiers[i]], up to [frontiers.append(Q)]. *)
Definition next_front (i : nat) (h : Heap) (front : list ref)
  : Heap * list ref :=
  fold_left
    (fun st p =>
       fold_left (release i)
                 (Individual.dominatedSolutions (Heap.get (fst st) p)) st)
    front (h, []).

Fixpoint peel (fuel : nat) (i : nat) (frontiers : list (list ref))
         (h : Heap) : result (list (list ref) * Heap) :=
  match nth_error frontiers i with
  | None => Raise IndexError
  | Some [] => Ok (frontiers, h)
  | Some front =>
      match fuel with
      | O => OutOfFuel
      | S fuel' =>
          let st := next_front i h front in
          peel fuel' (S i) (frontiers ++ [snd st]) (fst st)
      end
  end.

Definition _fast_non_dominated_sort (fuel : nat) (population : list ref)
           (h : Heap) : result (list (list ref) * Heap) :=
  let h := fold_left clean population h in
  let st := fold_left (first_front population) population (h, []) in
  '(frontiers, h) <- peel fuel 0 [snd st] (fst st) ;;
  match last frontiers [O] with
  | [] => Ok (removelast frontiers, h)
  | _ => Ok (frontiers, h)
  end.

(** *** Initial population, mutation and the loop of [run] *)

Section WithCollaborators.

Variable from_node_to_edge_capacity : System -> DiGraph -> DiGraph.
Variable maximum_flow_value :
  DiGraph -> String.string -> String.string -> float.
(** The iterations allowed to each Newton loop. *)
Variable fuel : nat.

(** [run] calls [self.fast_non_dominated_sort] and
    [self._crowding_distance]; moga.py defines neither.  They are
    parameters here. *)
Variable fast_non_dominated_sort :
  list ref -> Heap -> result (list (list ref) * Heap).
Variable _crowding_distance :
  list ref -> Heap -> result (list ref * Heap).

Definition new_plan := Plan.init from_node_to_edge_capacity
                                 maximum_flow_value fuel.

(** The loop [for k, c in enumerate(R)] that drops a full group. *)
Definition drop_group (R : list nat) (qj : nat) : result (list nat) :=
  foldM (fun R' kc =>
           if (snd kc =? qj) then NpIdx.delete R' (fst kc) else Ok R')
        (combine (seq 0 (length R)) R) R.

(** The [while True] loop of [generate_individual] for component [i];
    every turn that does not leave the loop shortens [Q], and [n] is
    one more than its length. *)
Fixpoint assign (n : nat) (m : MOGA) (i : nat) (S_ : Np.matrix)
         (R Q : list nat) (rng : Random.state)
  : result (Np.matrix * list nat * Random.state) :=
  match n with
  | O => OutOfFuel
  | S n' =>
      '(j, rng) <- Random.randint (length Q) rng ;;
      qj <- Np.get Q j ;;
      S1 <- NpIdx.set2 S_ i qj 1%Z ;;
      marks <- mapM (fun kc => row <- Np.get S1 (fst kc) ;;
                               e <- Np.get row qj ;;
                               Ok (snd kc, e))
                    (combine (seq 0 (length (Plan.activities (plan m))))
                             (Plan.activities (plan m))) ;;
      let components :=
        map fst (filter (fun ce => (snd ce =? 1)%Z) marks) in
      max_end_date <-
        Float.max (map (fun c => Float.add (Activity.t c) (Activity.d c))
                       components) ;;
      min_begin_date <- NpIdx.min (map Activity.t components) ;;
      if Float.leb min_begin_date max_end_date then
        R' <- (if (Z.of_nat (System.resources (Plan.system (plan m)))
                   <=? Np.sum1 (Np.column 0%Z S1 qj))%Z
               then drop_group R qj else Ok R) ;;
        Ok (S1, R', rng)
      else
        Q' <- NpIdx.delete Q j ;;
        assign n' m i S_ R Q' rng
  end.

Definition generate_individual (m : MOGA) (rng : Random.state)
  : result (Np.matrix * Random.state) :=
  n <- Plan.get_N (plan m) ;;
  '(S_, _, rng) <-
    foldM (fun st i =>
             let '(S_, R, rng) := st in
             assign (S (length R)) m i S_ R R rng)
          (seq 0 n) (Np.zeros2 n n, seq 0 n, rng) ;;
  Ok (S_, rng).

Definition generate_individual_with_resources (m : MOGA)
           (rng : Random.state) : result (Np.tensor * Random.state) :=
  '(S_, rng) <- generate_individual m rng ;;
  let resources := System.resources (Plan.system (plan m)) in
  '(x, rng) <-
    foldM (fun st i =>
             let '(x, rng) := st in
             n <- Plan.get_N (plan m) ;;
             '(r, rng) <- Random.randint resources rng ;;
             row <- Np.get S_ i ;;
             if length row =? n then
               Ok (x ++ [map (fun e => Np.set_nth (repeat 0%Z resources)
                                                  r e) row], rng)
             else Raise ValueError)
          (seq 0 (length S_)) ([], rng) ;;
  match x with
  | [] => Raise ValueError
  | _ => Ok (x, rng)
  end.

(** A new [Individual] on a new [Plan] of the activities and the system
    of the plan of [m]. *)
Definition new_individual (m : MOGA) (s : Np.tensor) (h : Heap)
  : result (ref * Heap) :=
  p <- new_plan (Plan.activities (plan m)) (Plan.system (plan m))
                (Some s) ;;
  Ok (Heap.alloc h (Individual.init p)).

(** The solution with all the activities executed separately. *)
Definition singleton_structure (m : MOGA) (rng : Random.state)
  : result (Np.tensor * Random.state) :=
  n <- Plan.get_N (plan m) ;;
  let resources := System.resources (Plan.system (plan m)) in
  foldM (fun st i =>
           let '(S_, rng) := st in
           '(r, rng) <- Random.randint resources rng ;;
           S_i <- Np.get S_ i ;;
           S_i' <- NpIdx.set2 S_i i r 1%Z ;;
           Ok (Np.set_nth S_ i S_i', rng))
        (seq 0 n) (repeat (Np.zeros2 n resources) n, rng).

(** In the parallel mode the pool calls
    [generate_individual_with_resources] with one argument, the seed, which
    the method does not take: a [TypeError] as soon as there is a seed, and
    nothing to call when [init_pop_size <= 1]. *)
Definition generate_initial_population (m : MOGA) (h : Heap)
           (rng : Random.state)
  : result (list ref * Heap * Random.state) :=
  '(population, rng) <-
    (if parallel m then
       match seq 0 (init_pop_size m - 1) with
       | [] => Ok ([], rng)
       | _ :: _ => Raise TypeError
       end
     else
       foldM (fun st _ =>
                let '(l, rng) := st in
                '(s, rng) <- generate_individual_with_resources m rng ;;
                Ok (l ++ [s], rng))
             (seq 0 (init_pop_size m - 1)) ([], rng)) ;;
  '(population, h) <-
    foldM (fun st s =>
             let '(l, h) := st in
             '(r, h) <- new_individual m s h ;;
             Ok (l ++ [r], h))
          population ([], h) ;;
  '(S_, rng) <- singleton_structure m rng ;;
  '(r, h) <- new_individual m S_ h ;;
  Ok (population ++ [r], h, rng).

(** [mutation]: the offspring of [parents], in their order.  The pool
    of the parallel mode maps the same function over the same list. *)
Definition mutation (m : MOGA) (parents : list ref) (h : Heap)
           (rng : Random.state)
  : result (list ref * Heap * Random.state) :=
  foldM (fun st individual =>
           let '(offspring, h, rng) := st in
           '(o, rng) <- Individual.mutate from_node_to_edge_capacity
                          maximum_flow_value fuel
                          (Heap.get h individual) (p_mutation m) rng ;;
           let '(r, h) := Heap.alloc h o in
           Ok (offspring ++ [r], h, rng))
        parents ([], h, rng).

(** The loop [for f in fronts] of [run], with its [break]. *)
Fixpoint select (m : MOGA) (fronts : list (list ref)) (P : list ref)
         (h : Heap) : result (list ref * Heap) :=
  match fronts with
  | [] => Ok (P, h)
  | f :: fronts' =>
      '(f, h) <- _crowding_distance f h ;;
      if length P + length f <? init_pop_size m then
        select m fronts' (P ++ f) h
      else Ok (P ++ firstn (init_pop_size m - length P) f, h)
  end.

(** The body of [for i in range(self.n_generations)]. *)
Definition generation
           (st : MOGA * list ref * Heap * Random.state) (i : nat)
  : result (MOGA * list ref * Heap * Random.state) :=
  let '(m, P, h, rng) := st in
  '(Q, h, rng) <- mutation m P h rng ;;
  '(fronts, h) <- fast_non_dominated_sort (P ++ Q) h ;;
  '(P, h) <- select m fronts [] h ;;
  if length P =? init_pop_size m then
    Ok (record_population m P, P, h, rng)
  else Raise AssertionError.

Definition run (m : MOGA) (h : Heap) (rng : Random.state)
  : result (MOGA * Heap * Random.state) :=
  '(P, h, rng) <- generate_initial_population m h rng ;;
  let m := record_population m P in
  '(m, _, h, rng) <-
    foldM generation (seq 0 (n_generations m)) (m, P, h, rng) ;;
  Ok (m, h, rng).

End WithCollaborators.

End MOGA.
Abbreviation MOGA := MOGA.MOGA.

(** ** The two methods that [run] calls and moga.py does not define *)

Module Missing.

(** Modelled from the spec: [MOGA.fast_non_dominated_sort], missing from
    moga.py.  Section 4.7 of the spec gives it the algorithm of
    [_fast_non_dominated_sort]: the bookkeeping is reset, the first front
    holds the individuals without dominator, with rank 1, and front [i + 1]
    those whose counter reaches 0 while front [i] is processed, with rank
    [i + 2].  Its loop is allowed one turn more than the population has
    individuals. *)
Definition fast_non_dominated_sort (population : list ref) (h : Heap)
  : result (list (list ref) * Heap) :=
  MOGA._fast_non_dominated_sort (S (length population)) population h.

Definition add_distance (d : distance) (c : float) : distance :=
  match d with
  | Finite q => Finite (Float.add q c)
  | Infinite => Infinite
  end.

Definition distance_ltb (a b : distance) : bool :=
  match a, b with
  | Finite x, Finite y => Float.ltb x y
  | Finite _, Infinite => true
  | Infinite, _ => false
  end.

(** A stable sort of references, by insertion. *)
Fixpoint insert_by (lt : ref -> ref -> bool) (r : ref) (l : list ref)
  : list ref :=
  match l with
  | [] => [r]
  | r' :: l' => if lt r r' then r :: l else r' :: insert_by lt r l'
  end.
Definition sort_by (lt : ref -> ref -> bool) (l : list ref) : list ref :=
  fold_left (fun acc r => insert_by lt r acc) l [].

Definition distance_of (h : Heap) (r : ref) : distance :=
  Individual.crowding_distance (Heap.get h r).

(** One objective: the front in ascending order of the score, both ends
    at [inf], and for an inner individual the gap between its neighbours
    over the range of the score (0 when the range is 0). *)
Definition crowd_objective (key : Individual -> float) (front : list ref)
           (h : Heap) : Heap :=
  let sorted :=
    sort_by (fun a b => Float.ltb (key (Heap.get h a)) (key (Heap.get h b)))
            front in
  match sorted with
  | [] => h
  | first :: _ =>
      let final := last sorted first in
      let range := Float.sub (key (Heap.get h final))
                             (key (Heap.get h first)) in
      let h1 := Heap.modify h first
                  (Individual.set_crowding_distance Infinite) in
      let h2 := Heap.modify h1 final
                  (Individual.set_crowding_distance Infinite) in
      fold_left
        (fun h' i =>
           let gap :=
             Float.sub (key (Heap.get h (nth (i + 1) sorted first)))
                       (key (Heap.get h (nth (i - 1) sorted first))) in
           let c := match Float.div gap range with
                    | Ok c => c
                    | _ => 0
                    end in
           Heap.modify h' (nth i sorted first)
             (fun o => Individual.set_crowding_distance
                         (add_distance (Individual.crowding_distance o) c)
                         o))
        (seq 1 (length sorted - 2)) h2
  end.

(** Modelled from the spec: [MOGA._crowding_distance], missing from
    moga.py.  Section 4.7 of the spec: the distances of the front start
    from 0, each of the two objectives adds its share, and the front is
    returned in descending order of the distance. *)
Definition _crowding_distance (front : list ref) (h : Heap)
  : result (list ref * Heap) :=
  let h0 :=
    fold_left
      (fun h' r => Heap.modify h' r
                     (Individual.set_crowding_distance (Finite 0)))
      front h in
  let h1 := crowd_objective MOGA.score0 front h0 in
  let h2 := crowd_objective MOGA.score1 front h1 in
  Ok (sort_by (fun a b => distance_ltb (distance_of h2 b) (distance_of h2 a))
              front,
      h2).

End Missing.

(** What the loop of [run] needs of [_crowding_distance]: the front comes
    back in another order, and no rank and no allocation changes. *)
Definition crowding_ok
           (crowd : list ref -> Heap -> result (list ref * Heap)) : Prop :=
  forall f h f' h',
    crowd f h = Ok (f', h') ->
    Permutation f' f
    /\ (forall r, Individual.rank (Heap.get h' r)
                  = Individual.rank (Heap.get h r))
    /\ Heap.next h' = Heap.next h.

(** ** Notions used by the statements *)

(** [m] is the greatest of the window starts [b.t - b.component.x_star]. *)
Definition earliest_start_of (G : list Activity) (m : Q) : Prop :=
  (exists b, In b G /\
             m == Activity.t b - Component.x_star (Activity.component b))
  /\ forall b, In b G ->
       Activity.t b - Component.x_star (Activity.component b) <= m.

(** The [while] loop of [minimize] as a relation: from the iterates [x]
    and the value of [diff], the loop leaves with the iterates [xs].  No
    count of iterations occurs in it. *)
Inductive newton_run (g : Group) : list float -> float -> list float -> Prop :=
| newton_stop x diff :
    Float.gtb diff Group.tolerance = false ->
    newton_run g x diff x
| newton_step x diff num den q xs :
    Float.gtb diff Group.tolerance = true ->
    Group.dH g (Group.last1 x) = Ok num ->
    Group.ddH g (Group.last1 x) = Ok den ->
    Float.div num den = Ok q ->
    newton_run g (x ++ [Float.sub (Group.last1 x) q])
      (Float.sub (Group.last2 (x ++ [Float.sub (Group.last1 x) q]))
                 (Group.last1 (x ++ [Float.sub (Group.last1 x) q]))) xs ->
    newton_run g x diff xs.

(** Two components of shape 3 with their own optimal cost rates
    ([phi_star = cc * beta * x_star ** (beta - 1) / alpha ** beta]), due at
    0 and at 1. *)
Definition premature_group : Group :=
  Group.init
    [Activity.mk (Component.mk 0 0 1 1 3 1 3) 0 1;
     Activity.mk (Component.mk 1 0 100 1 3 1 300) 1 1].

(** One component of shape 11 and optimal age 400 with a null cost rate,
    due at 400. *)
Definition slow_group : Group :=
  Group.init [Activity.mk (Component.mk 0 0 1 1 11 400 0) 400 1].

(** [x * (9/10) ** n] *)
Fixpoint shrink (n : nat) (x : Q) : Q :=
  match n with
  | O => x
  | S n' => shrink n' (x * (9 # 10))
  end.

(** A system of two components between ["s"] and ["t"], with a flow
    primitive that counts the nodes left in the graph, and two activities
    without duration. *)
Definition two_nodes : DiGraph :=
  DiGraph.mk
    [DiGraph.Str "s"; DiGraph.Comp (Component.mk 0 0 10 1 2 1 20);
     DiGraph.Comp (Component.mk 1 0 10 1 2 1 20); DiGraph.Str "t"]
    [].
Definition two_system : System := System.mk 2 2 4 two_nodes.
Definition keep_graph (s : System) (g : DiGraph) : DiGraph := g.
Definition count_nodes (g : DiGraph) (s t : String.string) : float :=
  inject_Z (Z.of_nat (length (DiGraph.nodes g))).
Definition instant_activities : list Activity :=
  [Activity.mk (Component.mk 0 0 10 1 2 1 20) 3 0;
   Activity.mk (Component.mk 1 0 10 1 2 1 20) 5 0].

(** A single component on a single resource, in the only slot there is;
    and a generator whose draws are all zero. *)
Definition lone_plan : Plan :=
  Plan.mk [Activity.mk (Component.mk 0 0 10 1 2 1 20) 0 1]
          (System.mk 1 1 3
             (DiGraph.mk [DiGraph.Str "s";
                          DiGraph.Comp (Component.mk 0 0 10 1 2 1 20);
                          DiGraph.Str "t"] []))
          0 1 (Some [[[1%Z]]]) None.
Definition lone_individual : Individual := Individual.init lone_plan.
Definition zero_draws : Random.state := Random.mk (fun _ => 0%Z) 0.

(** *** Reading the heap during the sort *)

(** [p] dominates [q], for two references of the heap [h]. *)
Definition dom (h : Heap) (p q : ref) : bool :=
  MOGA.dominates (Heap.get h p) (Heap.get h q).

(** No object has another score in [h'] than in [h]. *)
Definition same_scores (h h' : Heap) : Prop :=
  forall r, Individual.score (Heap.get h' r) = Individual.score (Heap.get h r).

Definition ref_eq_dec : forall x y : ref, {x = y} + {x <> y} := Nat.eq_dec.
Definition memb (r : ref) (l : list ref) : bool := existsb (Nat.eqb r) l.
Definition cnt {A} (f : A -> bool) (l : list A) : nat := length (filter f l).

Definition rank_of (h : Heap) (r : ref) : Z := Individual.rank (Heap.get h r).
Definition counter_of (h : Heap) (r : ref) : Z :=
  Individual.dominatorCounter (Heap.get h r).
Definition dominated_of (h : Heap) (r : ref) : list ref :=
  Individual.dominatedSolutions (Heap.get h r).

(** An object after the first loop of the sort. *)
Definition cleaned (o : Individual) : Individual :=
  Individual.set_dominatedSolutions []
    (Individual.set_dominatorCounter 0%Z (Individual.set_rank 0%Z o)).

(** No member of [pop] dominates [p]. *)
Definition no_dominator (h : Heap) (pop : list ref) (p : ref) : bool :=
  (cnt (fun q => dom h q p) pop =? 0)%nat.

(** The number of members of [pop] that dominate [q] and are not among
    [processed]. *)
Definition undone (h : Heap) (pop processed : list ref) (q : ref) : nat :=
  cnt (fun p => dom h p q && negb (memb p processed)) pop.

(** The invariant of the loop [while frontiers[i]]: [done] are the fronts
    before [frontiers[i]], [cur] is [frontiers[i]], [hb] is the heap the
    sort started from and [f0] the first front. *)
Record sort_inv (hb : Heap) (pop f0 : list ref) (i : nat)
       (done : list (list ref)) (cur : list ref) (h : Heap) : Prop := {
  inv_scores : same_scores hb h;
  inv_nodup : NoDup (concat done ++ cur);
  inv_incl : incl (concat done ++ cur) pop;
  inv_counter : forall q, In q pop ->
      counter_of h q = Z.of_nat (undone hb pop (concat done) q);
  inv_ready : forall q, In q pop ->
      (In q (concat done ++ cur) <-> undone hb pop (concat done) q = 0%nat);
  inv_dominated : forall p, In p pop ->
      dominated_of h p = filter (dom hb p) pop;
  inv_len : length done = i;
  inv_nonempty : Forall (fun f => f <> []) done;
  inv_first : nth_error (done ++ [cur]) 0 = Some f0;
  inv_rank : forall k f q, nth_error (done ++ [cur]) k = Some f -> In q f ->
      rank_of h q = (Z.of_nat k + 1)%Z;
  inv_before : forall k f q p, nth_error (done ++ [cur]) k = Some f ->
      In q f -> In p pop -> dom hb p q = true ->
      In p (concat (firstn k done));
  inv_frame : forall r, ~ In r pop -> Heap.get h r = Heap.get hb r
}.

(** A heap whose object [r] has the [r]-th score of a list, and the
    population of the scores (1, 2), (2, 1) and (3, 3). *)
Definition scored (scores : list (float * float)) : Heap :=
  Heap.mk
    (fun r => Individual.mk lone_plan [] 0%Z 0%Z (nth r scores (0, 0))
                            (Finite 0) 0%Z [])
    (length scores).
Definition three_scores : Heap := scored [(1, 2); (2, 1); (3, 3)].

(** A plan of two activities on [two_system], as [Plan.__init__] builds
    it; the same plan after a caller's [plan.N = 2]; an empty heap and a
    generator.  [run_two] is a run of the whole algorithm on the plan that
    has its [N], with a null mutation probability: a mutation that fires
    reads the [N] of a plan that the code has built. *)
Definition two_plan : Plan :=
  Plan.mk [Activity.mk (Component.mk 0 0 10 1 2 1 20) 0 1;
           Activity.mk (Component.mk 1 0 10 1 2 1 20) (1 # 2) 1]
          two_system 0 2 None None.
Definition empty_heap : Heap := Heap.mk (fun _ => lone_individual) 0%nat.
Definition mixed_draws : Random.state :=
  Random.mk (fun n => (Z.of_nat n * 7919 + 3)%Z) 0%nat.
Definition counted_plan : Plan := Plan.set_N 2 two_plan.
Abbreviation run_two init_pop_size n_generations :=
  (MOGA.run keep_graph count_nodes 50 Missing.fast_non_dominated_sort
            Missing._crowding_distance
            (MOGA.init init_pop_size 0 n_generations counted_plan false)
            empty_heap mixed_draws).

(** *** The state of the loop of [run] *)

(** A heap that differs from [h] by crowding distances only. *)
Definition only_distances (h h' : Heap) : Prop :=
  (forall r, Individual.rank (Heap.get h' r) = Individual.rank (Heap.get h r))
  /\ Heap.next h' = Heap.next h.

(** A list of objects allocated below [next h], all different, of rank 0. *)
Definition fresh_unranked (st : list ref * Heap) : Prop :=
  NoDup (fst st)
  /\ forall r, In r (fst st) ->
       (r < Heap.next (snd st))%nat /\ rank_of (snd st) r = 0%Z.

(** The offspring are new objects, and the old ones are as they were. *)
Definition offspring_of (h : Heap) (Q : list ref) (h1 : Heap) : Prop :=
  NoDup Q
  /\ (forall r, In r Q -> (Heap.next h <= r < Heap.next h1)%nat)
  /\ (Heap.next h <= Heap.next h1)%nat
  /\ forall r, (r < Heap.next h)%nat -> Heap.get h1 r = Heap.get h r.

(** The state of the loop: the population is made of distinct allocated
    objects, and every individual of the history is allocated and either
    ranked or still in the population. *)
Definition ranked_or_current
           (st : MOGA * list ref * Heap * Random.state) : Prop :=
  let '(m, P, h, _) := st in
  NoDup P
  /\ (forall r, In r P -> (r < Heap.next h)%nat)
  /\ forall pop r, In pop (MOGA.population_history m) -> In r pop ->
       (r < Heap.next h)%nat /\ (In r P \/ (1 <= rank_of h r)%Z).

Definition all_ranked
           (st : MOGA * list ref * Heap * Random.state) : Prop :=
  let '(m, P, h, _) := st in
  ranked_or_current st
  /\ forall pop r, In pop (MOGA.population_history m) -> In r pop ->
       (1 <= rank_of h r)%Z.

(** *** More about the sort *)

(** Every member of a front but the first has a dominator in the front
    before. *)
Definition tight (hb : Heap) (fronts : list (list ref)) : Prop :=
  forall k f q, nth_error fronts (S k) = Some f -> In q f ->
    exists fk p, nth_error fronts k = Some fk /\ In p fk
                 /\ dom hb p q = true.

(** What the sort leaves alone in an object. *)
Definition same_core (o o' : Individual) : Prop :=
  Individual.plan o' = Individual.plan o
  /\ Individual.score o' = Individual.score o
  /\ Individual.crowding_distance o' = Individual.crowding_distance o
  /\ Individual.dominated_solutions o' = Individual.dominated_solutions o
  /\ Individual.dominator_counter o' = Individual.dominator_counter o.

(** No object has changed but for the bookkeeping of the sort. *)
Definition keeps_core (h h' : Heap) : Prop :=
  forall r, same_core (Heap.get h r) (Heap.get h' r).

(** *** The history of a plan *)

(** The dates of the events of a plan: the start and the end of every
    activity, and the date 0. *)
Definition event_dates (acts : list Activity) : list float :=
  map Activity.t acts
  ++ map (fun a => Float.add (Activity.t a) (Activity.d a)) acts ++ [0].

(** The activity [a] is under way at [date]. *)
Definition under_way (a : Activity) (date : float) : Prop :=
  Activity.t a <= date /\ date < Activity.t a + Activity.d a.

(** No activity on a component with the [idx] of the node [n] is under way
    at [date]; a string node is always idle. *)
Definition idle (acts : list Activity) (date : float) (n : DiGraph.Node)
  : Prop :=
  match n with
  | DiGraph.Str _ => True
  | DiGraph.Comp c =>
      forall a, In a acts ->
        Component.idx (Activity.component a) = Component.idx c ->
        ~ under_way a date
  end.

(** *** The dates of a plan with a grouping structure *)

(** [gs[i, j]], 0 outside the array. *)
Definition entry (gs : Np.matrix) (i j : nat) : Z := nth j (nth i gs []) 0%Z.

(** [a] with the date [x]: what [minimize] makes of a member of a group. *)
Definition moved_to (x : float) (a : Activity) : Activity := Activity.set_t a x.

(** The activities [acts'] are those of [acts] but for their dates. *)
Definition same_but_dates (acts acts' : list Activity) : Prop :=
  map Activity.component acts' = map Activity.component acts
  /\ map Activity.d acts' = map Activity.d acts.

(** A group of one component of shape 1. *)
Definition exponential_group : Group :=
  Group.init [Activity.mk (Component.mk 0 0 10 1 1 1 20) 0 1].

(** Structures for the two activities of [two_plan], on two slots and two
    resources: both activities in slot 0; the first in slot 0 and the second
    in no slot; one activity in each slot. *)
Definition paired_structure : Np.tensor :=
  [[[1; 0]; [0; 0]]; [[1; 0]; [0; 0]]]%Z.
Definition half_structure : Np.tensor :=
  [[[1; 0]; [0; 0]]; [[0; 0]; [0; 0]]]%Z.
Definition split_structure : Np.tensor :=
  [[[1; 0]; [0; 0]]; [[0; 0]; [1; 0]]]%Z.

(** *** Random structures *)

(** The generator after [n] more draws. *)
Definition advance (n : nat) (s : Random.state) : Random.state :=
  Random.mk (Random.draws s) (Random.pos s + n).

(** The array of [n] slots and [resources] resources with a single 1, at
    [j, r]. *)
Definition one_hot (n resources j r : nat) : Np.matrix :=
  Np.set_nth (Np.zeros2 n resources) j
             (Np.set_nth (repeat 0%Z resources) r 1%Z).

(** The body of [for i in range(self.system.N)] of
    [Plan.generate_random_assignment_matrix]: a new array with a single 1,
    at a random slot and a random resource.  The entries, floats in the
    source, are the integers 0 and 1 here, as in the other structures. *)
Definition random_assignment (n resources : nat)
           (st : Np.tensor * Random.state) (i : nat)
  : result (Np.tensor * Random.state) :=
  let '(sgm, rng) := st in
  let x := Np.zeros2 n resources in
  '(j, rng) <- Random.randint n rng ;;
  '(r, rng) <- Random.randint resources rng ;;
  x <- NpIdx.set2 x j r 1%Z ;;
  Ok (sgm ++ [x], rng).

(** [Plan.generate_random_assignment_matrix]; [np.stack] raises on an empty
    list. *)
Definition generate_random_assignment_matrix (p : Plan) (rng : Random.state)
  : result (Np.tensor * Random.state) :=
  let n := System.N (Plan.system p) in
  let resources := System.resources (Plan.system p) in
  '(sgm, rng) <- foldM (random_assignment n resources) (seq 0 n) ([], rng) ;;
  match sgm with
  | [] => Raise ValueError
  | _ => Ok (sgm, rng)
  end.

(** The [n] by [n] identity matrix. *)
Definition identity (n : nat) : Np.matrix :=
  map (fun i => Np.set_nth (repeat 0%Z n) i 1%Z) (seq 0 n).

(** [np.sum(S[:, c])]: the number of components in group [c]. *)
Definition group_size (S_ : Np.matrix) (c : nat) : Z :=
  Np.sum1 (Np.column 0%Z S_ c).

(** The row of a component assigned to group [j] alone. *)
Definition unit_row (n j : nat) : Np.vector :=
  Np.set_nth (repeat 0%Z n) j 1%Z.

(** The state of the loop [for i in range(self.plan.N)] of
    [generate_individual] before component [k]: the components before [k]
    have a group each, the rows from [k] on are empty, the groups of [R]
    have room, and no group is over the bound [b]. *)
Record assigned (n : nat) (b : Z) (k : nat) (S_ : Np.matrix) (R : list nat)
  : Prop := {
  as_length : length S_ = n;
  as_rest : forall i, (k <= i < n)%nat -> nth_error S_ i = Some (repeat 0%Z n);
  as_done : forall i, (i < k)%nat ->
      exists j, (j < n)%nat /\ nth_error S_ i = Some (unit_row n j);
  as_nodup : NoDup R;
  as_room : forall c, In c R -> (c < n)%nat /\ (group_size S_ c < b)%Z;
  as_bound : forall c, (group_size S_ c <= b)%Z
}.

(** A plan on a system without repair crew. *)
Definition idle_plan : Plan :=
  Plan.mk (Plan.activities two_plan) (System.mk 2 0 4 two_nodes) 0 0 None
          None.

(** *** Mutation and selection *)

(** The group that [mutate] tests for slot [j]: the activities assigned to
    the slot and the activity of component [i]. *)
Definition joined_group (acts : list Activity) (x : Np.tensor) (i j : nat)
  : result Group :=
  members <- mapM (Np.get acts)
                  (Np.flatnonzero (Np.sum_axis1 (NpIdx.slot x j))) ;;
  a_i <- Np.get acts i ;;
  Ok (Group.init (members ++ [a_i])).

(** The state of the loop of [mutation] that started on the heap [h]: the
    offspring are new objects of rank 0, as many as there were turns, and no
    object of [h] has changed. *)
Definition new_unranked (h : Heap) (st : list ref * Heap * Random.state)
  : Prop :=
  let '(Q, h1, _) := st in
  NoDup Q
  /\ Heap.next h1 = (Heap.next h + length Q)%nat
  /\ (forall r, In r Q ->
        (Heap.next h <= r < Heap.next h1)%nat
        /\ Individual.rank (Heap.get h1 r) = 0%Z)
  /\ forall r, (r < Heap.next h)%nat -> Heap.get h1 r = Heap.get h r.

(** The selection prefers the earlier fronts: when a member of a front is
    selected, so are all the members of the fronts before. *)
Definition elitist (fronts : list (list ref)) (P : list ref) : Prop :=
  forall k fk r, nth_error fronts k = Some fk -> In r fk -> In r P ->
    forall k' fk' r', (k' < k)%nat -> nth_error fronts k' = Some fk' ->
      In r' fk' -> In r' P.

(** An engine on [counted_plan] and an engine on [lone_plan], which never
    mutate, and a heap of two individuals for the second. *)
Definition two_moga : MOGA := MOGA.init 2 0 1 counted_plan false.
Definition still_moga : MOGA := MOGA.init 2 0 1 lone_plan false.
Definition two_scores : Heap := scored [(1, 2); (2, 1)].

(** *** The history of the engine *)

(** The engine [m'] is [m] with [news] appended to its history. *)
Definition extends (m : MOGA) (news : list (list ref)) (m' : MOGA) : Prop :=
  MOGA.init_pop_size m' = MOGA.init_pop_size m
  /\ MOGA.parallel m' = MOGA.parallel m
  /\ MOGA.p_mutation m' = MOGA.p_mutation m
  /\ MOGA.n_generations m' = MOGA.n_generations m
  /\ MOGA.plan m' = MOGA.plan m
  /\ MOGA.population_history m' = MOGA.population_history m ++ news.

(** The group of the activity of [lone_plan]; and an engine that has
    already recorded a population. *)
Definition lone_group : Group := Group.init (Plan.activities lone_plan).
Definition used_moga : MOGA := MOGA.record_population two_moga [0%nat].

(** * Properties *)

(** ** Floats *)

Lemma ltb_lt (x y : float) : Float.ltb x y = true <-> x < y.
Proof.
  unfold Float.ltb. rewrite Qlt_alt.
  destruct (x ?= y); split; intro E; congruence.
Qed.

Lemma ltb_ge (x y : float) : Float.ltb x y = false <-> y <= x.
Proof.
  rewrite <- not_true_iff_false, ltb_lt. split; intro E.
  - now apply Qnot_lt_le.
  - now apply Qle_not_lt.
Qed.

Lemma leb_le (x y : float) : Float.leb x y = true <-> x <= y.
Proof. unfold Float.leb. rewrite negb_true_iff. apply ltb_ge. Qed.

Lemma add_correct (x y : float) : Float.add x y == x + y.
Proof. apply Qred_correct. Qed.

Lemma sub_correct (x y : float) : Float.sub x y == x - y.
Proof. apply Qred_correct. Qed.

Lemma mul_correct (x y : float) : Float.mul x y == x * y.
Proof. apply Qred_correct. Qed.

Lemma Qeq_le (x y : Q) : x == y -> x <= y.
Proof. intro E. rewrite E. apply Qle_refl. Qed.

(** A reduced rational equal to zero is the constant [0]. *)
Lemma Qred_zero (x : Q) : x == 0 -> Qred x = 0.
Proof. intro E. now rewrite (Qred_complete _ _ E). Qed.

(** [Float.max] answers the greatest item of a non-empty list. *)
Lemma fold_max_spec (l : list float) (x : float) :
  let m := fold_left (fun m y => if Float.ltb m y then y else m) l x in
  In m (x :: l) /\ forall y, In y (x :: l) -> y <= m.
Proof.
  revert x. induction l as [|z l IH]; intro x; simpl.
  - split; [now left|]. intros y [<-|[]]. apply Qle_refl.
  - destruct (IH (if Float.ltb x z then z else x)) as [Hin Hmax].
    simpl in Hin, Hmax. split.
    + destruct Hin as [E|Hin]; [|now right; right].
      rewrite <- E. destruct (Float.ltb x z); [right|]; now left.
    + intros y [E|[E|Hy]].
      * subst y. destruct (Float.ltb x z) eqn:E.
        -- apply Qle_trans with z; [|apply Hmax; now left].
           apply Qlt_le_weak; now apply ltb_lt.
        -- apply Hmax; now left.
      * subst y. destruct (Float.ltb x z) eqn:E.
        -- apply Hmax; now left.
        -- apply Qle_trans with x; [now apply ltb_ge|apply Hmax; now left].
      * apply Hmax; now right.
Qed.

(** ** Dominance *)

(** C5: line 294 of moga.py takes [p] to dominate [q] exactly when both
    scores of [p] are strictly below those of [q]; line 297, the test that
    [p] is dominated by [q], is the same relation with the arguments
    exchanged; the relation is irreflexive, and it never holds both ways
    (so it is antisymmetric). *)
Theorem dominates_strict_pareto (p q : Individual) :
  (MOGA.dominates p q = true <->
   MOGA.score0 p < MOGA.score0 q /\ MOGA.score1 p < MOGA.score1 q)
  /\ MOGA.dominated_by p q = MOGA.dominates q p
  /\ MOGA.dominates p p = false
  /\ (MOGA.dominates p q = true -> MOGA.dominates q p = false)
  /\ (MOGA.dominates p q = true -> MOGA.dominates q p = true -> p = q).
Proof.
  assert (Hiff : forall a b, MOGA.dominates a b = true <->
     MOGA.score0 a < MOGA.score0 b /\ MOGA.score1 a < MOGA.score1 b).
  { intros a b. unfold MOGA.dominates.
    now rewrite andb_true_iff, !ltb_lt. }
  assert (Hasym : forall a b, MOGA.dominates a b = true ->
                              MOGA.dominates b a = false).
  { intros a b Hab. apply not_true_iff_false. intro Hba.
    apply Hiff in Hab, Hba. destruct Hab as [H0 _], Hba as [H0' _].
    exact (Qlt_irrefl _ (Qlt_trans _ _ _ H0 H0')). }
  split; [apply Hiff|]. split; [reflexivity|]. split; [|split].
  - apply not_true_iff_false. intro Hpp. apply Hiff in Hpp.
    exact (Qlt_irrefl _ (proj1 Hpp)).
  - apply Hasym.
  - intros Hpq Hqp. rewrite (Hasym _ _ Hpq) in Hqp. discriminate.
Qed.

(** ** Feasibility of a group *)

Lemma fold_flag_true (m : float) (l : list Activity) (b : bool) :
  fold_left (fun is_feasible a =>
               if Float.ltb (Group.window_end a) m then false
               else is_feasible) l b = true
  <-> b = true /\ forall a, In a l -> m <= Group.window_end a.
Proof.
  revert b. induction l as [|a l IH]; intro b; simpl.
  - split; [intro E; split; [exact E|intros _ []] | intros [E _]; exact E].
  - rewrite IH. destruct (Float.ltb (Group.window_end a) m) eqn:E.
    + split; [intros [F _]; discriminate|].
      intros [_ Hall]. apply ltb_lt in E.
      exfalso. apply (Qlt_not_le _ _ E). apply Hall. now left.
    + apply ltb_ge in E. split.
      * intros [Hb Hall]. split; [exact Hb|].
        intros a' [<-|Ha']; [exact E|now apply Hall].
      * intros [Hb Hall]. split; [exact Hb|].
        intros a' Ha'. apply Hall. now right.
Qed.

(** C6: [is_feasible] answers [True] exactly when the window starts of the
    group have a greatest value (the group has a member) and
    [a.t + a.component.x_star] is at least that value for every member [a];
    on a group with a member it always answers. *)
Theorem is_feasible_iff (g : Group) :
  (Group.is_feasible g = Ok true <->
   exists m, earliest_start_of (Group.activities g) m /\
     forall a, In a (Group.activities g) ->
       Activity.t a + Component.x_star (Activity.component a) >= m)
  /\ (Group.activities g <> [] -> exists b, Group.is_feasible g = Ok b).
Proof.
  unfold Group.is_feasible. destruct (Group.activities g) as [|a0 l] eqn:EG.
  - simpl. split.
    + split; [discriminate|]. intros (m & [(b & [] & _) _] & _).
    + intro F. now elim F.
  - set (G := a0 :: l). split; [|intros _; simpl; eauto].
    change (map Group.window_start G)
      with (Group.window_start a0 :: map Group.window_start l).
    unfold Float.max, bind.
    destruct (fold_max_spec (map Group.window_start l)
                            (Group.window_start a0)) as [Hin Hmax].
    set (m := fold_left _ (map Group.window_start l) _) in *.
    change (Group.window_start a0 :: map Group.window_start l)
      with (map Group.window_start G) in Hin, Hmax.
    assert (Hm : earliest_start_of G m).
    { split.
      - apply in_map_iff in Hin. destruct Hin as (b & Eb & Hb).
        exists b. split; [exact Hb|]. rewrite <- Eb. apply sub_correct.
      - intros b Hb. apply (in_map Group.window_start) in Hb.
        apply Hmax in Hb. unfold Group.window_start in Hb.
        now rewrite sub_correct in Hb. }
    pose proof (fold_flag_true m G true) as HF.
    split.
    + intro E. injection E as E. apply HF in E.
      exists m. split; [exact Hm|]. intros a Ha.
      unfold Qge. apply Qle_trans with (Group.window_end a).
      * apply (proj2 E), Ha.
      * apply Qeq_le, add_correct.
    + intros (m' & [(b & Hb & Eb) Hmax'] & Hall). f_equal.
      apply HF. split; [reflexivity|]. intros a Ha.
      apply Qle_trans with
        (Activity.t a + Component.x_star (Activity.component a)).
      * apply Qle_trans with m'; [|now apply Hall].
        destruct Hm as [(b' & Hb' & Eb') _].
        apply Qle_trans with
          (Activity.t b' - Component.x_star (Activity.component b')).
        -- apply Qeq_le, Eb'.
        -- now apply Hmax'.
      * apply Qeq_le, Qeq_sym, add_correct.
Qed.

(** ** The Newton loop of [Group.minimize] *)

Lemma gtb_false (d tol : float) : Float.gtb d tol = false <-> d <= tol.
Proof. unfold Float.gtb. apply ltb_ge. Qed.

Lemma last1_app (x : list float) (v : float) : Group.last1 (x ++ [v]) = v.
Proof. unfold Group.last1. apply last_last. Qed.

Lemma last2_app (x : list float) (v : float) :
  Group.last2 (x ++ [v]) = Group.last1 x.
Proof. unfold Group.last2, Group.last1. now rewrite removelast_last. Qed.

Lemma newton_sound (g : Group) (fuel : nat) :
  forall x diff xs,
    Group.newton fuel g x diff = Ok xs ->
    newton_run g x diff xs /\ (length xs <= length x + fuel)%nat.
Proof.
  induction fuel as [|fuel IH]; intros x diff xs; simpl;
    destruct (Float.gtb diff Group.tolerance) eqn:Ed; try discriminate.
  - intro E. injection E as <-. split; [now constructor|lia].
  - destruct (Group.dH g (Group.last1 x)) as [num| |] eqn:En;
      try discriminate.
    destruct (Group.ddH g (Group.last1 x)) as [den| |] eqn:Edn;
      try discriminate.
    simpl. destruct (Float.div num den) as [q| |] eqn:Eq; try discriminate.
    simpl. intro E. apply IH in E. destruct E as [Hrun Hlen]. split.
    + eapply newton_step; eauto.
    + rewrite length_app in Hlen. simpl in Hlen. lia.
  - intro E. injection E as <-. split; [now constructor|lia].
Qed.

Lemma newton_mono (g : Group) (fuel : nat) :
  forall fuel' x diff xs,
    Group.newton fuel g x diff = Ok xs -> (fuel <= fuel')%nat ->
    Group.newton fuel' g x diff = Ok xs.
Proof.
  induction fuel as [|fuel IH]; intros fuel' x diff xs; simpl;
    destruct (Float.gtb diff Group.tolerance) eqn:Ed; try discriminate.
  - intros E _. destruct fuel'; simpl; now rewrite Ed.
  - intros E Hle. destruct fuel' as [|fuel']; [lia|]. simpl. rewrite Ed.
    destruct (Group.dH g (Group.last1 x)) as [num| |]; try discriminate.
    destruct (Group.ddH g (Group.last1 x)) as [den| |]; try discriminate.
    simpl in *. destruct (Float.div num den) as [q| |]; try discriminate.
    simpl in *. apply IH; [exact E|lia].
  - intros E _. destruct fuel'; simpl; now rewrite Ed.
Qed.

(** Where the loop leaves: either at once, or after a step whose signed
    difference [x[-2] - x[-1]] is at most the tolerance. *)
Lemma newton_run_exit (g : Group) x diff xs :
  newton_run g x diff xs ->
  (xs = x /\ diff <= Group.tolerance)
  \/ ((length x < length xs)%nat
      /\ Float.sub (Group.last2 xs) (Group.last1 xs) <= Group.tolerance).
Proof.
  induction 1 as [x diff Hd | x diff num den q xs Hd En Edn Eq Hrun IH].
  - left. split; [reflexivity|now apply gtb_false].
  - right. destruct IH as [[-> Hle] | [Hlen Hle]].
    + split; [rewrite length_app; simpl; lia|exact Hle].
    + split; [rewrite length_app in Hlen; simpl in Hlen; lia|exact Hle].
Qed.

(** C4 (as the code has it): [minimize] has no iteration cap, no warning
    and no fallback to the mean.  When it returns, the loop has made at
    least one step from the mean of the due dates, it has left on a step
    whose signed difference [x[-2] - x[-1]] is at most [1e-3], the dates are
    the last iterate and [IC] is [H] there; and the same answer comes with
    any larger allowance of iterations. *)
Theorem minimize_runs_without_cap (fuel : nat) (g g' : Group) :
  Group.minimize fuel g = Ok g' ->
  (forall fuel', (fuel <= fuel')%nat -> Group.minimize fuel' g = Ok g')
  /\ exists x0 xs ic,
      Group.mean g = Ok x0
      /\ newton_run g [x0] Group.diff0 xs
      /\ (2 <= length xs <= fuel + 1)%nat
      /\ Float.sub (Group.last2 xs) (Group.last1 xs) <= 1 # 1000
      /\ Group.H g (Group.last1 xs) = Ok ic
      /\ g' = Group.mk
                (map (fun a => Activity.set_t a (Group.last1 xs))
                     (Group.activities g))
                (Group.size g) (Some ic).
Proof.
  unfold Group.minimize. intro E.
  destruct (Group.mean g) as [x0| |] eqn:Em; try discriminate. simpl in E.
  destruct (Group.newton fuel g [x0] Group.diff0) as [xs| |] eqn:En;
    try discriminate.
  simpl in E.
  destruct (Group.H g (Group.last1 xs)) as [ic| |] eqn:Eh; try discriminate.
  simpl in E. injection E as <-. split.
  - intros fuel' Hle. simpl.
    rewrite (@newton_mono g fuel fuel' _ _ _ En Hle). simpl.
    now rewrite Eh.
  - exists x0, xs, ic. destruct (@newton_sound g fuel _ _ _ En) as [Hrun Hlen].
    simpl in Hlen. split; [reflexivity|]. split; [exact Hrun|].
    destruct (newton_run_exit Hrun) as [[_ Hle] | [Hlt Hle]].
    + exfalso. revert Hle. unfold Group.diff0, Group.tolerance, Qle.
      simpl. lia.
    + simpl in Hlt. repeat split; try lia; try assumption.
Qed.

Lemma minimize_runs_without_cap_witness :
  exists g',
    Group.minimize 10 premature_group = Ok g'
    /\ Group.minimize 200 premature_group = Ok g'.
Proof.
  eexists. split; [vm_compute; reflexivity|].
  refine (proj1 (@minimize_runs_without_cap 10 premature_group _ _) 200%nat _);
    [vm_compute; reflexivity|lia].
Defined.

(** C3 (the code at [premature_group]): the mean of the due dates is 1/2;
    the first Newton step goes up to 501/412, so [x[-2] - x[-1]] is
    negative and the loop leaves, although the step is longer than [1e-3]
    and the next step would be longer than [1e-3] too; the dates and [IC]
    are those of 501/412. *)
Theorem minimize_leaves_on_negative_difference :
  Group.mean premature_group = Ok (1 # 2)
  /\ Group.newton 10 premature_group [1 # 2] Group.diff0
     = Ok [1 # 2; 501 # 412]
  /\ ~ Qabs ((1 # 2) - (501 # 412)) <= 1 # 1000
  /\ (exists num den q,
         Group.dH premature_group (501 # 412) = Ok num
         /\ Group.ddH premature_group (501 # 412) = Ok den
         /\ Float.div num den = Ok q
         /\ ~ Qabs q <= 1 # 1000)
  /\ exists ic,
      Group.H premature_group (501 # 412) = Ok ic
      /\ Group.minimize 10 premature_group
         = Ok (Group.mk
                 (map (fun a => Activity.set_t a (501 # 412))
                      (Group.activities premature_group))
                 2 (Some ic)).
Proof.
  split; [reflexivity|]. split; [vm_compute; reflexivity|].
  split; [vm_compute; intro F; now apply F|]. split.
  - eexists _, _, _. split; [vm_compute; reflexivity|].
    split; [vm_compute; reflexivity|]. split; [vm_compute; reflexivity|].
    vm_compute. intro F; now apply F.
  - eexists. split; vm_compute; reflexivity.
Qed.

(** *** A group on which the loop is slow

    On [slow_group] the Newton step from a positive [x] goes to
    [x * 9/10]. *)

Lemma slow_step (x : Q) :
  0 < x -> Qred x = x ->
  exists num den q,
    Group.dH slow_group x = Ok num /\ Group.ddH slow_group x = Ok den
    /\ Float.div num den = Ok q /\ q == x / 10.
Proof.
  intros Hx Hred.
  assert (Hu : Float.add 400 (Float.sub x 400) = x).
  { unfold Float.add, Float.sub. rewrite <- Hred at 2. apply Qred_complete.
    rewrite Qred_correct. ring. }
  unfold Group.dH, Group.ddH, Group.sum_over, slow_group, Group.init.
  cbn [Group.activities mapM Activity.t].
  unfold Activity.dh, Activity.ddh.
  cbn [Activity.component Component.alpha Component.beta Component.x_star Component.cc Component.phi_star].
  rewrite Hu.
  change (Float.pow 1 (- (11))) with (Ok (A:=float) 1).
  cbn [bind].
  unfold Float.pow. 
  change (11 - 1 <? 0)%Z with false. change (11 - 2 <? 0)%Z with false.
  rewrite !andb_false_r. cbn [bind].
  set (num := Float.sum _). set (den := Float.sum _).
  assert (En : num == 11 * x ^ 10).
  { unfold num, Float.sum, Float.sub, Float.mul, Float.add, Float.of_Z.
    cbn [fold_left]. rewrite !Qred_correct.
    change (11 - 1)%Z with 10%Z. change (inject_Z 11) with 11. ring. }
  assert (Ed : den == 110 * x ^ 9).
  { unfold den, Float.sum, Float.sub, Float.mul, Float.add, Float.of_Z.
    cbn [fold_left]. rewrite !Qred_correct.
    change (11 - 2)%Z with 9%Z. change (inject_Z 11) with 11.
    change (inject_Z (11 - 1)) with 10. ring. }
  assert (Hp : 0 < x ^ 9) by now apply Qpower_0_lt.
  assert (Hd : ~ den == 0).
  { rewrite Ed. intro F. assert (0 < 110 * x ^ 9) by (apply Qmult_lt_0_compat; [reflexivity|exact Hp]). rewrite F in H. now apply Qlt_irrefl in H. }
  exists num, den, (Qred (num / den)). repeat split.
  - unfold Float.div. destruct (Qeq_bool den 0) eqn:E; [|reflexivity].
    apply Qeq_bool_iff in E. contradiction.
  - rewrite Qred_correct, En, Ed. field. intro F. rewrite F in Hx. now apply Qlt_irrefl in Hx.
Qed.


Lemma shrink_compat (n : nat) : forall x y, x == y -> shrink n x == shrink n y.
Proof.
  induction n as [|n IH]; intros x y E; simpl; [exact E|].
  apply IH. now rewrite E.
Qed.

Lemma shrink_le (n : nat) : forall x, 0 <= x -> shrink n x <= x.
Proof.
  induction n as [|n IH]; intros x Hx; simpl; [apply Qle_refl|].
  apply Qle_trans with (x * (9 # 10)).
  - apply IH. apply Qmult_le_0_compat; [exact Hx|discriminate].
  - lra.
Qed.

Lemma slow_loop (fuel : nat) :
  forall xl diff x,
    Group.last1 xl = x -> Qred x = x -> 0 < x ->
    Group.tolerance < diff ->
    Group.tolerance * 10 < shrink fuel x ->
    Group.newton fuel slow_group xl diff = OutOfFuel.
Proof.
  induction fuel as [|fuel IH]; intros xl diff x El Hred Hx Hd Hs; simpl;
    apply ltb_lt in Hd; unfold Float.gtb; rewrite Hd; [reflexivity|].
  destruct (slow_step Hx Hred) as (num & den & q & E1 & E2 & E3 & Eq).
  rewrite El, E1, E2. simpl. rewrite E3. simpl.
  assert (Ev : Float.sub x q == x * (9 # 10)).
  { rewrite sub_correct, Eq. field. }
  assert (Hs' : Group.tolerance * 10 < x * (9 # 10)).
  { eapply Qlt_le_trans; [exact Hs|]. simpl. apply shrink_le. lra. }
  apply IH with (x := Float.sub x q).
  - apply last1_app.
  - apply Qred_complete, Qred_correct.
  - rewrite Ev. lra.
  - rewrite last1_app, last2_app, El, sub_correct, Ev.
    unfold Group.tolerance in *. lra.
  - eapply Qlt_le_trans; [exact Hs|]. simpl.
    apply Qeq_le, shrink_compat. now rewrite Ev.
Qed.


(** C4, refuted at [slow_group]: the iterates go down from 400 by a tenth
    of their value at each step, and after 100 steps the loop is still
    running. *)
Lemma minimize_exceeds_100_iterations :
  Group.minimize 100 slow_group = OutOfFuel.
Proof.
  unfold Group.minimize.
  assert (Em : Group.mean slow_group = Ok 400) by (vm_compute; reflexivity).
  rewrite Em. cbn [bind].
  match goal with
  | |- bind ?m _ = _ => assert (El : m = OutOfFuel)
  end.
  { apply slow_loop with (x := 400).
    - reflexivity.
    - reflexivity.
    - reflexivity.
    - reflexivity.
    - vm_compute. reflexivity. }
  now rewrite El.
Qed.

(** ** Lost flow *)

Section FlowReduction.

Variable from_node_to_edge_capacity : System -> DiGraph -> DiGraph.
Variable maximum_flow_value :
  DiGraph -> String.string -> String.string -> float.

Lemma filter_none {A} (f : A -> bool) (l : list A) :
  (forall a, In a l -> f a = false) -> filter f l = [].
Proof.
  induction l as [|a l IH]; intro Hf; simpl; [reflexivity|].
  rewrite (Hf a (or_introl eq_refl)). apply IH.
  intros b Hb. apply Hf. now right.
Qed.

Lemma filter_all {A} (f : A -> bool) (l : list A) :
  (forall a, In a l -> f a = true) -> filter f l = l.
Proof.
  induction l as [|a l IH]; intro Hf; simpl; [reflexivity|].
  rewrite (Hf a (or_introl eq_refl)). f_equal. apply IH.
  intros b Hb. apply Hf. now right.
Qed.

(** Removing no node leaves the graph as it is. *)
Lemma remove_nodes_from_nil (g : DiGraph) :
  DiGraph.remove_nodes_from g [] = g.
Proof.
  destruct g as [ns es]. unfold DiGraph.remove_nodes_from. simpl.
  now rewrite !filter_all by reflexivity.
Qed.

(** Without durations no activity is under way at any date. *)
Lemma node_ids_instant (acts : list Activity) (date : float) :
  (forall a, In a acts -> Activity.d a == 0) ->
  Plan.node_ids acts date = [].
Proof.
  intro Hd. unfold Plan.node_ids. rewrite filter_none; [reflexivity|].
  intros a Ha. apply andb_false_iff.
  destruct (Float.gtb (Float.add (Activity.t a) (Activity.d a)) date)
    eqn:E; [right|now left].
  unfold Float.gtb in E. apply ltb_lt in E.
  rewrite add_correct, (Hd a Ha), Qplus_0_r in E.
  unfold Float.leb. apply negb_false_iff. now apply ltb_lt.
Qed.

Lemma flow_history_instant (acts : list Activity) (sys : System) :
  (forall a, In a acts -> Activity.d a == 0) ->
  forall e,
    In e (Plan.generate_flow_history from_node_to_edge_capacity
            maximum_flow_value acts sys) ->
    Plan.flow e
    = Some (maximum_flow_value
              (from_node_to_edge_capacity sys (System.structure sys))
              "s"%string "t"%string).
Proof.
  intros Hd e He. unfold Plan.generate_flow_history in He.
  apply in_map_iff in He. destruct He as (c & <- & Hc).
  unfold Plan.generate_structure_history in Hc.
  apply in_map_iff in Hc. destruct Hc as (ev & <- & _). simpl.
  rewrite node_ids_instant by exact Hd.
  rewrite filter_none; [now rewrite remove_nodes_from_nil|].
  intros [name|c] _; reflexivity.
Qed.

Lemma fold_left_fixed {A B} (f : A -> B -> A) (a : A) (l : list B) :
  (forall b, In b l -> f a b = a) -> fold_left f l a = a.
Proof.
  induction l as [|b l IH]; intro Hf; simpl; [reflexivity|].
  rewrite (Hf b (or_introl eq_refl)). apply IH.
  intros b' Hb'. apply Hf. now right.
Qed.

(** C7: when no activity has a duration and [regular_flow] is the maximum
    flow of the whole graph, [evaluate_flow_reduction] answers exactly 0. *)
Theorem evaluate_flow_reduction_instant (acts : list Activity)
        (sys : System) :
  (forall a, In a acts -> Activity.d a == 0) ->
  System.regular_flow sys
  == maximum_flow_value
       (from_node_to_edge_capacity sys (System.structure sys))
       "s"%string "t"%string ->
  Plan.evaluate_flow_reduction from_node_to_edge_capacity maximum_flow_value
    acts sys = 0.
Proof.
  intros Hd Hrf. unfold Plan.evaluate_flow_reduction.
  set (history := Plan.generate_flow_history _ _ acts sys).
  apply fold_left_fixed. intros i Hi. apply in_seq in Hi.
  assert (Hin : In (nth i history (Plan.mkEvent 0 None None)) history)
    by (apply nth_In; lia).
  unfold Plan.flow_of.
  rewrite (flow_history_instant acts sys Hd _ Hin).
  unfold Float.add, Float.mul, Float.sub. apply Qred_zero.
  rewrite !Qred_correct, Hrf. ring.
Qed.

End FlowReduction.

Lemma evaluate_flow_reduction_instant_witness :
  Plan.evaluate_flow_reduction keep_graph count_nodes instant_activities
    two_system = 0.
Proof.
  apply evaluate_flow_reduction_instant.
  - intros a [<-|[<-|[]]]; reflexivity.
  - reflexivity.
Defined.

(** C9: a plan built without a grouping structure keeps the activities it
    was given, dates included, has [IC = 0], and its [LF] is the flow
    reduction of those activities; the construction cannot fail. *)
Theorem plan_without_grouping_structure
        (from_node_to_edge_capacity : System -> DiGraph -> DiGraph)
        (maximum_flow_value :
           DiGraph -> String.string -> String.string -> float)
        (fuel : nat) (acts : list Activity) (sys : System) :
  exists p,
    Plan.init from_node_to_edge_capacity maximum_flow_value fuel acts sys
              None = Ok p
    /\ Plan.activities p = acts
    /\ map Activity.t (Plan.activities p) = map Activity.t acts
    /\ Plan.IC p = 0
    /\ Plan.LF p
       = Plan.evaluate_flow_reduction from_node_to_edge_capacity
           maximum_flow_value acts sys
    /\ Plan.grouping_structure p = None.
Proof. eexists. repeat split. Qed.

(** ** Mutation *)

(** C2 (what the code does): when the component is selected for mutation
    and the list [f] of feasible candidate groups is empty, the mutation of
    the component does not leave the assignment as it was: it raises.  On a
    plan as [Plan.__init__] builds it, the error is the [AttributeError] of
    [individual.plan.N] (line 67); on a plan to which a caller has assigned
    [N], it is the [ValueError] of [np.random.choice(f)] (line 69). *)
Theorem mutate_component_without_candidate
        (p : Plan) (p_mutation : float) (x : Np.tensor)
        (rng : Random.state) (i : nat) (x_i : Np.matrix) (g_id : nat) :
  fst (Random.rand rng) < p_mutation ->
  Np.get x i = Ok x_i ->
  Np.get (Np.flatnonzero (Np.sum_axis0 x_i)) 0 = Ok g_id ->
  Individual.feasible_groups (Plan.activities p) x i
    (Individual.candidate_groups x g_id
       (System.resources (Plan.system p))) = Ok [] ->
  Individual.mutate_component p p_mutation (x, rng) i
  = Raise (match Plan.N p with
           | None => AttributeError
           | Some _ => ValueError
           end).
Proof.
  intros Hcoin Hx Hg Hf. unfold Individual.mutate_component, Plan.get_N.
  destruct (Random.rand rng) as [u rng']. simpl in Hcoin.
  apply ltb_lt in Hcoin. rewrite Hcoin, Hx. simpl.
  rewrite Hg. simpl. rewrite Hf. simpl.
  destruct (Plan.N p); reflexivity.
Qed.

Lemma mutate_component_without_candidate_witness :
  Individual.mutate keep_graph count_nodes 50 lone_individual 1 zero_draws
  = Raise AttributeError
  /\ Individual.mutate keep_graph count_nodes 50
       (Individual.init (Plan.set_N 1 lone_plan)) 1 zero_draws
     = Raise ValueError.
Proof.
  split.
  - pose proof (@mutate_component_without_candidate lone_plan 1 [[[1%Z]]]
                  zero_draws 0 [[1%Z]] 0 eq_refl eq_refl eq_refl eq_refl)
      as E.
    unfold Individual.mutate.
    cbv beta iota delta [lone_individual Individual.init Individual.plan
                         lone_plan Plan.grouping_structure length seq foldM]
      in E |- *.
    rewrite E. reflexivity.
  - pose proof (@mutate_component_without_candidate (Plan.set_N 1 lone_plan)
                  1 [[[1%Z]]] zero_draws 0 [[1%Z]] 0 eq_refl eq_refl eq_refl
                  eq_refl) as E.
    unfold Individual.mutate.
    cbv beta iota delta [Individual.init Individual.plan Plan.set_N
                         lone_plan Plan.grouping_structure length seq foldM]
      in E |- *.
    rewrite E. reflexivity.
Defined.

(** ** The non-dominated sort *)

Lemma memb_In (r : ref) (l : list ref) : memb r l = true <-> In r l.
Proof.
  unfold memb. rewrite existsb_exists. split.
  - intros (x & Hx & E). apply Nat.eqb_eq in E. now subst.
  - intro H. exists r. split; [exact H|apply Nat.eqb_refl].
Qed.

Lemma memb_not_In (r : ref) (l : list ref) : memb r l = false <-> ~ In r l.
Proof. rewrite <- memb_In. now destruct (memb r l). Qed.

Lemma get_modify (h : Heap) (r r' : ref) (f : Individual -> Individual) :
  Heap.get (Heap.modify h r f) r'
  = if Nat.eqb r' r then f (Heap.get h r) else Heap.get h r'.
Proof. reflexivity. Qed.

Lemma same_scores_refl h : same_scores h h.
Proof. intro r. reflexivity. Qed.

Lemma same_scores_trans h1 h2 h3 :
  same_scores h1 h2 -> same_scores h2 h3 -> same_scores h1 h3.
Proof. intros H12 H23 r. now rewrite H23, H12. Qed.

Lemma dom_same_scores h h' p q : same_scores h h' -> dom h' p q = dom h p q.
Proof.
  intro Hs. unfold dom, MOGA.dominates, MOGA.score0, MOGA.score1.
  now rewrite !Hs.
Qed.

Lemma dom_asym h p q : dom h p q = true -> dom h q p = false.
Proof.
  unfold dom, MOGA.dominates. rewrite andb_true_iff, andb_false_iff.
  intros [H0 _]. left. apply ltb_lt in H0. apply ltb_ge.
  now apply Qlt_le_weak.
Qed.

Lemma dom_irrefl h p : dom h p p = false.
Proof.
  destruct (dom h p p) eqn:E; [|reflexivity].
  now rewrite (dom_asym _ _ _ E) in E.
Qed.

Lemma get_clean h a r :
  Heap.get (MOGA.clean h a) r
  = if Nat.eqb r a then cleaned (Heap.get h a) else Heap.get h r.
Proof.
  unfold MOGA.clean, cleaned, Heap.modify, Heap.set, Heap.get. simpl.
  rewrite !Nat.eqb_refl. destruct (Nat.eqb r a); reflexivity.
Qed.

Lemma get_clean_fold (l : list ref) : forall h r,
  Heap.get (fold_left MOGA.clean l h) r
  = if memb r l then cleaned (Heap.get h r) else Heap.get h r.
Proof.
  induction l as [|a l IH]; intros h r; simpl; [reflexivity|].
  rewrite IH, get_clean. destruct (Nat.eqb r a) eqn:E.
  - apply Nat.eqb_eq in E. subst a. simpl.
    destruct (memb r l); reflexivity.
  - simpl. reflexivity.
Qed.

Lemma get_compare p h q r :
  Heap.get (MOGA.compare p h q) r
  = if Nat.eqb r p then
      if dom h p q then
        Individual.set_dominatedSolutions (dominated_of h p ++ [q])
                                          (Heap.get h p)
      else if dom h q p then
        Individual.set_dominatorCounter (counter_of h p + 1)%Z (Heap.get h p)
      else Heap.get h p
    else Heap.get h r.
Proof.
  unfold MOGA.compare.
  change (MOGA.dominated_by (Heap.get h p) (Heap.get h q)) with (dom h q p).
  change (MOGA.dominates (Heap.get h p) (Heap.get h q)) with (dom h p q).
  destruct (dom h p q); [|destruct (dom h q p)];
    rewrite ?get_modify; destruct (Nat.eqb r p) eqn:E; try reflexivity.
  apply Nat.eqb_eq in E. now subst.
Qed.

Lemma compare_same_scores p h q : same_scores h (MOGA.compare p h q).
Proof.
  intro r. rewrite get_compare.
  destruct (Nat.eqb r p) eqn:E; [|reflexivity].
  apply Nat.eqb_eq in E. subst r.
  destruct (dom h p q); [reflexivity|]. destruct (dom h q p); reflexivity.
Qed.

Lemma compare_fold (p : ref) (qs : list ref) : forall h,
  let h' := fold_left (MOGA.compare p) qs h in
  same_scores h h'
  /\ (forall r, r <> p -> Heap.get h' r = Heap.get h r)
  /\ rank_of h' p = rank_of h p
  /\ dominated_of h' p = dominated_of h p ++ filter (dom h p) qs
  /\ counter_of h' p
     = (counter_of h p + Z.of_nat (cnt (fun q => dom h q p) qs))%Z.
Proof.
  unfold cnt. induction qs as [|q qs IH]; intro h; simpl.
  - repeat split; try reflexivity.
    + now rewrite app_nil_r.
    + lia.
  - destruct (IH (MOGA.compare p h q)) as (Hs & Hfr & Hrk & Hds & Hdc).
    pose proof (compare_same_scores p h q) as Hs1.
    split; [eapply same_scores_trans; eauto|].
    split.
    { intros r Hr. rewrite Hfr by exact Hr. rewrite get_compare.
      apply Nat.eqb_neq in Hr. now rewrite Hr. }
    rewrite Hrk, Hds, Hdc.
    rewrite (filter_ext _ _ (fun a => dom_same_scores p a Hs1)).
    rewrite (filter_ext (fun q0 => dom (MOGA.compare p h q) q0 p)
                        (fun q0 => dom h q0 p))
      by (intro a; apply dom_same_scores, Hs1).
    unfold rank_of, dominated_of, counter_of.
    rewrite get_compare, Nat.eqb_refl.
    destruct (dom h p q) eqn:Epq.
    + rewrite (dom_asym _ _ _ Epq). simpl.
      repeat split; try reflexivity. now rewrite <- app_assoc.
    + destruct (dom h q p) eqn:Eqp; simpl.
      * repeat split; try reflexivity. unfold counter_of. lia.
      * repeat split; reflexivity.
Qed.

Lemma first_front_step (pop : list ref) (h : Heap) (front : list ref)
      (p : ref) :
  counter_of h p = 0%Z -> dominated_of h p = [] ->
  let st := MOGA.first_front pop (h, front) p in
  same_scores h (fst st)
  /\ snd st = front ++ (if no_dominator h pop p then [p] else [])
  /\ dominated_of (fst st) p = filter (dom h p) pop
  /\ counter_of (fst st) p = Z.of_nat (cnt (fun q => dom h q p) pop)
  /\ rank_of (fst st) p = (if no_dominator h pop p then 1%Z else rank_of h p)
  /\ forall r, r <> p -> Heap.get (fst st) r = Heap.get h r.
Proof.
  intros Hc Hd. unfold MOGA.first_front. cbn [fst snd].
  destruct (compare_fold p pop h) as (Hs & Hfr & Hrk & Hds & Hdc).
  set (hc := fold_left (MOGA.compare p) pop h) in *.
  rewrite Hc in Hdc. rewrite Hd in Hds. simpl in Hds, Hdc.
  change (Individual.dominatorCounter (Heap.get hc p)) with (counter_of hc p).
  rewrite Hdc. unfold no_dominator.
  destruct (cnt (fun q => dom h q p) pop) as [|n] eqn:En; cbn [fst snd].
  - change (Z.of_nat 0 =? 0)%Z with true. cbn [fst snd Nat.eqb]. repeat split.
    + intro r. rewrite get_modify. destruct (Nat.eqb r p) eqn:E.
      * apply Nat.eqb_eq in E. subst r. apply Hs.
      * apply Hs.
    + unfold dominated_of. rewrite get_modify, Nat.eqb_refl. exact Hds.
    + unfold counter_of. rewrite get_modify, Nat.eqb_refl. exact Hdc.
    + unfold rank_of. now rewrite get_modify, Nat.eqb_refl.
    + intros r Hr. rewrite get_modify. apply Nat.eqb_neq in Hr.
      rewrite Hr. apply Hfr. now apply Nat.eqb_neq.
  - change (Z.of_nat (S n) =? 0)%Z with false. cbn [fst snd Nat.eqb].
    rewrite app_nil_r. repeat split; try assumption.
Qed.

Lemma first_front_fold (pop ps : list ref) : forall h front,
  NoDup ps ->
  (forall p, In p ps -> counter_of h p = 0%Z /\ dominated_of h p = []) ->
  let st := fold_left (MOGA.first_front pop) ps (h, front) in
  same_scores h (fst st)
  /\ snd st = front ++ filter (no_dominator h pop) ps
  /\ (forall p, In p ps ->
        dominated_of (fst st) p = filter (dom h p) pop
        /\ counter_of (fst st) p = Z.of_nat (cnt (fun q => dom h q p) pop)
        /\ rank_of (fst st) p
           = (if no_dominator h pop p then 1%Z else rank_of h p))
  /\ forall r, ~ In r ps -> Heap.get (fst st) r = Heap.get h r.
Proof.
  induction ps as [|p ps IH]; intros h front Hnd Hclean; simpl.
  - split; [apply same_scores_refl|]. split; [now rewrite app_nil_r|].
    split; [intros p0 []|reflexivity].
  - inversion Hnd as [|? ? Hnotin Hnd']; subst.
    destruct (Hclean p (or_introl eq_refl)) as [Hc Hd].
    destruct (first_front_step pop h front p Hc Hd)
      as (Hs1 & Hf1 & Hds1 & Hdc1 & Hrk1 & Hfr1).
    destruct (MOGA.first_front pop (h, front) p) as [h1 front1] eqn:E1.
    cbn [fst snd] in *.
    assert (Hclean1 : forall p', In p' ps ->
              counter_of h1 p' = 0%Z /\ dominated_of h1 p' = []).
    { intros p' Hp'. unfold counter_of, dominated_of.
      rewrite Hfr1 by (intros ->; contradiction).
      apply Hclean. now right. }
    destruct (IH h1 front1 Hnd' Hclean1) as (Hs & Hf & Hall & Hfr).
    assert (Ext : forall pp a, dom h1 pp a = dom h pp a)
      by (intros; now apply dom_same_scores).
    assert (End : forall a, no_dominator h1 pop a = no_dominator h pop a).
    { intro a. unfold no_dominator, cnt.
      now rewrite (filter_ext (fun q => dom h1 q a) (fun q => dom h q a))
        by (intro; apply Ext). }
    split; [eapply same_scores_trans; eauto|]. split; [|split].
    + rewrite Hf, Hf1, (filter_ext _ _ End), <- app_assoc.
      destruct (no_dominator h pop p); reflexivity.
    + intros p' [<-|Hp'].
      * unfold dominated_of, counter_of, rank_of in *.
        rewrite (Hfr p Hnotin). now rewrite Hds1, Hdc1, Hrk1.
      * destruct (Hall p' Hp') as (A & B & C).
        rewrite A, B, C, End. unfold cnt.
        rewrite (filter_ext (dom h1 p') (dom h p')) by (intro; apply Ext).
        rewrite (filter_ext (fun q => dom h1 q p') (fun q => dom h q p'))
          by (intro; apply Ext).
        repeat split. unfold rank_of.
        rewrite Hfr1 by (intros ->; contradiction). reflexivity.
    + intros r Hr. rewrite Hfr by (intro; apply Hr; now right).
      apply Hfr1. intros ->. apply Hr. now left.
Qed.

Lemma release_step (i : nat) (h : Heap) (Q : list ref) (q : ref) :
  let st := MOGA.release i (h, Q) q in
  same_scores h (fst st)
  /\ (forall r, dominated_of (fst st) r = dominated_of h r)
  /\ (forall r, counter_of (fst st) r
                = if Nat.eqb r q then (counter_of h q - 1)%Z
                  else counter_of h r)
  /\ snd st = Q ++ (if (counter_of h q =? 1)%Z then [q] else [])
  /\ (forall r, rank_of (fst st) r
                = if Nat.eqb r q && (counter_of h q =? 1)%Z
                  then (Z.of_nat i + 2)%Z else rank_of h r)
  /\ forall r, r <> q -> Heap.get (fst st) r = Heap.get h r.
Proof.
  unfold MOGA.release. cbn [fst snd]. rewrite get_modify, Nat.eqb_refl.
  cbn [Individual.set_dominatorCounter Individual.dominatorCounter].
  change (Individual.dominatorCounter (Heap.get h q)) with (counter_of h q).
  replace (counter_of h q - 1 =? 0)%Z with (counter_of h q =? 1)%Z
    by (destruct (Z.eqb_spec (counter_of h q) 1),
                 (Z.eqb_spec (counter_of h q - 1) 0); lia).
  destruct (counter_of h q =? 1)%Z eqn:E1; cbn [fst snd];
    unfold same_scores, dominated_of, counter_of, rank_of;
    repeat split; intros; rewrite ?get_modify, ?Nat.eqb_refl;
    try (destruct (Nat.eqb r q) eqn:E;
         [apply Nat.eqb_eq in E; subst r|];
         rewrite ?Nat.eqb_refl; reflexivity).
  all: try (now rewrite app_nil_r).
  all: try (apply Nat.eqb_neq in H; now rewrite H).
  all: try (rewrite ?andb_false_r; reflexivity).
Qed.

Lemma release_fold (i : nat) (decs : list ref) : forall h Q,
  let st := fold_left (MOGA.release i) decs (h, Q) in
  same_scores h (fst st)
  /\ (forall r, dominated_of (fst st) r = dominated_of h r)
  /\ (forall r, counter_of (fst st) r
                = (counter_of h r
                   - Z.of_nat (count_occ ref_eq_dec decs r))%Z)
  /\ (exists Qn,
         snd st = Q ++ Qn /\ NoDup Qn
         /\ (forall r, In r Qn <->
                       (0 < counter_of h r
                        <= Z.of_nat (count_occ ref_eq_dec decs r))%Z)
         /\ forall r, rank_of (fst st) r
                      = if memb r Qn then (Z.of_nat i + 2)%Z
                        else rank_of h r)
  /\ forall r, ~ In r decs -> Heap.get (fst st) r = Heap.get h r.
Proof.
  induction decs as [|d decs IH]; intros h Q; cbn [fold_left].
  - cbn [fst snd]. split; [apply same_scores_refl|].
    split; [reflexivity|]. split; [intro r; simpl; lia|]. split.
    + exists []. split; [now rewrite app_nil_r|]. split; [constructor|].
      split; [|reflexivity]. intro r. simpl. split; [intros []|lia].
    + reflexivity.
  - destruct (release_step i h Q d) as (Hs1 & Hd1 & Hc1 & Hq1 & Hr1 & Hf1).
    destruct (MOGA.release i (h, Q) d) as [h1 Q1]. cbn [fst snd] in *.
    destruct (IH h1 Q1) as (Hs & Hd & Hc & (Qn & HQ & Hnd & Hin & Hrk) & Hf).
    split; [eapply same_scores_trans; eauto|].
    split; [intro r; now rewrite Hd, Hd1|].
    split.
    { intro r. rewrite Hc, Hc1. cbn [count_occ].
      destruct (ref_eq_dec d r) as [->|Hne].
      - rewrite Nat.eqb_refl. lia.
      - assert (E : Nat.eqb r d = false)
          by (apply Nat.eqb_neq; congruence).
        rewrite E. lia. }
    split.
    { exists ((if (counter_of h d =? 1)%Z then [d] else []) ++ Qn).
      split; [now rewrite HQ, Hq1, <- app_assoc|].
      assert (Hind : forall r, In r ((if (counter_of h d =? 1)%Z
                                      then [d] else []) ++ Qn)
                <-> (0 < counter_of h r
                     <= Z.of_nat (count_occ ref_eq_dec (d :: decs) r))%Z).
      { intro r. rewrite in_app_iff, Hin, Hc1. cbn [count_occ].
        destruct (ref_eq_dec d r) as [->|Hne].
        - rewrite Nat.eqb_refl.
          destruct (Z.eqb_spec (counter_of h r) 1) as [E|E]; simpl;
            split; intros; lia.
        - assert (E : Nat.eqb r d = false)
            by (apply Nat.eqb_neq; congruence).
          rewrite E. destruct (counter_of h d =? 1)%Z; simpl;
            split; intros; try tauto.
          all: destruct H as [[E'|[]]|H]; [congruence|exact H]. }
      split; [|split; [exact Hind|]].
      - destruct (Z.eqb_spec (counter_of h d) 1) as [E|E];
          [|exact Hnd]. simpl. constructor; [|exact Hnd].
        rewrite Hin, Hc1, Nat.eqb_refl. lia.
      - intro r. rewrite Hrk, Hr1.
        destruct (memb r Qn) eqn:Em.
        + assert (Hr : In r ((if (counter_of h d =? 1)%Z then [d] else [])
                             ++ Qn))
            by (apply in_app_iff; right; now apply memb_In).
          apply memb_In in Hr. now rewrite Hr.
        + destruct (Nat.eqb r d && (counter_of h d =? 1)%Z) eqn:Eb.
          * apply andb_true_iff in Eb. destruct Eb as [Er Ec].
            apply Nat.eqb_eq in Er. subst r. rewrite Ec. simpl.
            now rewrite Nat.eqb_refl.
          * assert (Hr : memb r ((if (counter_of h d =? 1)%Z
                                  then [d] else []) ++ Qn) = false).
            { apply memb_not_In. rewrite in_app_iff.
              apply memb_not_In in Em. intros [Hr|Hr]; [|contradiction].
              destruct (counter_of h d =? 1)%Z; [|exact Hr].
              destruct Hr as [<-|[]]. now rewrite Nat.eqb_refl in Eb. }
            now rewrite Hr. }
    intros r Hr. rewrite Hf by (intro; apply Hr; now right).
    apply Hf1. intros ->. apply Hr. now left.
Qed.

Lemma next_front_flat (i : nat) (front : list ref) : forall h Q,
  fold_left
    (fun st p =>
       fold_left (MOGA.release i)
                 (Individual.dominatedSolutions (Heap.get (fst st) p)) st)
    front (h, Q)
  = fold_left (MOGA.release i) (concat (map (dominated_of h) front)) (h, Q).
Proof.
  induction front as [|p front IH]; intros h Q; [reflexivity|].
  cbn [fold_left map concat fst]. rewrite fold_left_app.
  change (Individual.dominatedSolutions (Heap.get h p))
    with (dominated_of h p).
  destruct (release_fold i (dominated_of h p) h Q) as (_ & Hd & _).
  destruct (fold_left (MOGA.release i) (dominated_of h p) (h, Q))
    as [h1 Q1].
  cbn [fst] in Hd. rewrite IH. f_equal. f_equal. apply map_ext. exact Hd.
Qed.

Lemma cnt_add {A} (f g k : A -> bool) (l : list A) :
  (forall x, In x l ->
     Nat.b2n (f x) = (Nat.b2n (g x) + Nat.b2n (k x))%nat) ->
  cnt f l = (cnt g l + cnt k l)%nat.
Proof.
  unfold cnt. induction l as [|a l IH]; intro H; [reflexivity|].
  simpl. specialize (IH (fun x Hx => H x (or_intror Hx))).
  specialize (H a (or_introl eq_refl)).
  destruct (f a), (g a), (k a); simpl in *; lia.
Qed.

Lemma cnt_perm {A} (f : A -> bool) (l l' : list A) :
  Permutation l l' -> cnt f l = cnt f l'.
Proof.
  unfold cnt. induction 1; simpl; try congruence.
  - destruct (f x); simpl; congruence.
  - destruct (f x), (f y); reflexivity.
Qed.

Lemma cnt_filter {A} (f g : A -> bool) (l : list A) :
  cnt f (filter g l) = cnt (fun x => f x && g x) l.
Proof.
  unfold cnt. induction l as [|a l IH]; [reflexivity|]. simpl.
  destruct (g a); simpl; rewrite ?andb_true_r, ?andb_false_r;
    [destruct (f a); simpl; congruence|exact IH].
Qed.

Lemma cnt_zero {A} (f : A -> bool) (l : list A) :
  cnt f l = 0%nat <-> forall x, In x l -> f x = false.
Proof.
  unfold cnt. induction l as [|a l IH]; simpl.
  - split; [intros _ x []|reflexivity].
  - destruct (f a) eqn:E; simpl.
    + split; [discriminate|]. intro H.
      specialize (H a (or_introl eq_refl)). congruence.
    + rewrite IH. split.
      * intros H x [<-|Hx]; [exact E|now apply H].
      * intros H x Hx. apply H. now right.
Qed.

Lemma filter_memb_perm (pop cur : list ref) :
  NoDup pop -> NoDup cur -> incl cur pop ->
  Permutation cur (filter (fun p => memb p cur) pop).
Proof.
  intros Hp Hc Hi. apply NoDup_Permutation.
  - exact Hc.
  - now apply NoDup_filter.
  - intro x. rewrite filter_In, memb_In. split; [|tauto].
    intro Hx. split; [now apply Hi|exact Hx].
Qed.

Lemma count_occ_filter (f : ref -> bool) (l : list ref) (r : ref) :
  NoDup l ->
  count_occ ref_eq_dec (filter f l) r
  = Nat.b2n (f r && memb r l).
Proof.
  induction 1 as [|a l Hn Hnd IH].
  - simpl. now rewrite andb_false_r.
  - change (memb r (a :: l)) with (Nat.eqb r a || memb r l).
    cbn [filter]. destruct (ref_eq_dec a r) as [->|Hne].
    + rewrite Nat.eqb_refl. cbn [orb]. rewrite andb_true_r.
      apply memb_not_In in Hn. rewrite Hn, andb_false_r in IH.
      destruct (f r); [|exact IH].
      rewrite count_occ_cons_eq by reflexivity.
      change (Nat.b2n true) with 1%nat. f_equal. exact IH.
    + assert (E : Nat.eqb r a = false)
        by (apply Nat.eqb_neq; congruence).
      rewrite E. cbn [orb]. destruct (f a); [|exact IH].
      rewrite count_occ_cons_neq by exact Hne. exact IH.
Qed.

Lemma count_occ_dominated (h : Heap) (pop cur : list ref) (q : ref) :
  NoDup pop ->
  count_occ ref_eq_dec
    (concat (map (fun p => filter (dom h p) pop) cur)) q
  = if memb q pop then cnt (fun p => dom h p q) cur else 0%nat.
Proof.
  intro Hp. unfold cnt. induction cur as [|p cur IH]; simpl.
  - now destruct (memb q pop).
  - rewrite count_occ_app, IH, count_occ_filter by exact Hp.
    destruct (memb q pop); rewrite ?andb_false_r, ?andb_true_r;
      [|reflexivity].
    destruct (dom h p q); reflexivity.
Qed.

Lemma memb_app (r : ref) (l l' : list ref) :
  memb r (l ++ l') = memb r l || memb r l'.
Proof. unfold memb. apply existsb_app. Qed.

Lemma undone_app (h : Heap) (pop processed cur : list ref) (q : ref) :
  NoDup pop -> NoDup cur -> incl cur pop ->
  (forall p, In p cur -> ~ In p processed) ->
  undone h pop processed q
  = (undone h pop (processed ++ cur) q + cnt (fun p => dom h p q) cur)%nat.
Proof.
  intros Hp Hc Hi Hdis. unfold undone.
  rewrite (cnt_perm (fun p => dom h p q) (filter_memb_perm Hp Hc Hi)).
  rewrite cnt_filter. apply cnt_add. intros x Hx. rewrite memb_app.
  destruct (dom h x q); simpl; [|reflexivity].
  destruct (memb x cur) eqn:Ec; simpl.
  - apply memb_In in Ec. apply Hdis in Ec. apply memb_not_In in Ec.
    now rewrite Ec.
  - rewrite orb_false_r. destruct (memb x processed); reflexivity.
Qed.

Lemma undone_nil hb pop q :
  undone hb pop [] q = cnt (fun p => dom hb p q) pop.
Proof.
  unfold undone, cnt. f_equal. apply filter_ext. intro a. simpl.
  apply andb_true_r.
Qed.

(** The state after the first two loops. *)
Lemma first_loops_inv (hb : Heap) (pop : list ref) :
  NoDup pop ->
  let st := fold_left (MOGA.first_front pop) pop
                      (fold_left MOGA.clean pop hb, []) in
  snd st = filter (no_dominator hb pop) pop
  /\ sort_inv hb pop (snd st) 0 [] (snd st) (fst st).
Proof.
  intros Hnd. set (hc := fold_left MOGA.clean pop hb).
  assert (Hsc : same_scores hb hc).
  { intro r. unfold hc. rewrite get_clean_fold.
    destruct (memb r pop); reflexivity. }
  assert (Hclean : forall p, In p pop ->
            counter_of hc p = 0%Z /\ dominated_of hc p = []).
  { intros p Hp. unfold counter_of, dominated_of, hc.
    rewrite get_clean_fold. apply memb_In in Hp. rewrite Hp.
    split; reflexivity. }
  destruct (@first_front_fold pop pop hc [] Hnd Hclean)
    as (Hs & Hf & Hall & Hfr).
  set (st := fold_left (MOGA.first_front pop) pop (hc, [])) in *.
  cbn zeta.
  assert (Ext : forall a b, dom hc a b = dom hb a b)
    by (intros; now apply dom_same_scores).
  assert (End : forall a, no_dominator hc pop a = no_dominator hb pop a).
  { intro a. unfold no_dominator, cnt.
    now rewrite (filter_ext (fun q => dom hc q a) (fun q => dom hb q a))
      by (intro; apply Ext). }
  assert (Hfront : snd st = filter (no_dominator hb pop) pop).
  { rewrite Hf. simpl. apply filter_ext, End. }
  assert (Hcnt : forall q, cnt (fun p => dom hc p q) pop
                           = cnt (fun p => dom hb p q) pop).
  { intro q. unfold cnt. f_equal. apply filter_ext. intro; apply Ext. }
  split; [exact Hfront|]. constructor; simpl.
  - eapply same_scores_trans; eauto.
  - rewrite Hfront. now apply NoDup_filter.
  - rewrite Hfront. intros x Hx. apply filter_In in Hx. tauto.
  - intros q Hq. destruct (Hall q Hq) as (_ & Hc & _).
    now rewrite Hc, undone_nil, Hcnt.
  - intros q Hq. rewrite Hfront, filter_In, undone_nil.
    unfold no_dominator. rewrite Nat.eqb_eq. tauto.
  - intros p Hp. destruct (Hall p Hp) as (Hd & _).
    rewrite Hd. apply filter_ext. intro; apply Ext.
  - reflexivity.
  - constructor.
  - reflexivity.
  - intros k f q Hk Hq. destruct k as [|k]; simpl in Hk.
    + injection Hk as <-. rewrite Hfront in Hq. apply filter_In in Hq.
      destruct Hq as [Hq Hn]. destruct (Hall q Hq) as (_ & _ & Hr).
      rewrite Hr, End, Hn. reflexivity.
    + destruct k; discriminate.
  - intros k f q p Hk Hq Hp Hd. exfalso. destruct k as [|k]; simpl in Hk.
    + injection Hk as <-. rewrite Hfront in Hq. apply filter_In in Hq.
      destruct Hq as [Hq Hn]. unfold no_dominator in Hn.
      apply Nat.eqb_eq in Hn. rewrite cnt_zero in Hn.
      specialize (Hn p Hp). simpl in Hn. congruence.
    + destruct k; discriminate.
  - intros r Hr. rewrite Hfr by exact Hr. unfold hc.
    rewrite get_clean_fold. apply memb_not_In in Hr. now rewrite Hr.
Qed.

Lemma in_front (l : list (list ref)) k f q :
  nth_error l k = Some f -> In q f -> In q (concat l).
Proof.
  intros Hk Hq. apply in_concat. exists f. split; [|exact Hq].
  eapply nth_error_In; eauto.
Qed.

Lemma NoDup_app_disjoint (l l' : list ref) :
  NoDup (l ++ l') -> forall a, In a l' -> ~ In a l.
Proof.
  induction l as [|b l IH]; simpl; intros Hnd a Ha; [tauto|].
  inversion Hnd as [|? ? Hn Hnd']; subst. intros [->|Hl].
  - apply Hn. apply in_app_iff. now right.
  - exact (IH Hnd' a Ha Hl).
Qed.

Lemma next_front_inv (hb : Heap) (pop f0 : list ref) (i : nat)
      (done : list (list ref)) (cur : list ref) (h : Heap) :
  NoDup pop -> sort_inv hb pop f0 i done cur h -> cur <> [] ->
  let st := MOGA.next_front i h cur in
  sort_inv hb pop f0 (S i) (done ++ [cur]) (snd st) (fst st).
Proof.
  intros Hnd [Hsc Hndp Hinc Hcnt Hrdy Hdom Hlen Hne Hfst Hrk Hbef Hfr] Hcur.
  unfold MOGA.next_front. rewrite next_front_flat.
  assert (Hcur_pop : incl cur pop)
    by (intros x Hx; apply Hinc, in_app_iff; now right).
  assert (Hdecs : concat (map (dominated_of h) cur)
                  = concat (map (fun p => filter (dom hb p) pop) cur)).
  { f_equal. apply map_ext_in. intros a Ha. apply Hdom, Hcur_pop, Ha. }
  rewrite Hdecs. set (decs := concat _).
  destruct (release_fold i decs h [])
    as (Hs & Hd & Hc & (Qn & HQ & HndQ & HinQ & HrkQ) & Hf).
  set (st := fold_left (MOGA.release i) decs (h, [])) in *.
  simpl in HQ. cbn zeta. rewrite HQ.
  set (P := concat done) in *.
  assert (HP' : concat (done ++ [cur]) = P ++ cur).
  { rewrite concat_app. simpl. now rewrite app_nil_r. }
  assert (Hocc : forall q, count_occ ref_eq_dec decs q
                  = if memb q pop then cnt (fun p => dom hb p q) cur
                    else 0%nat)
    by (intro q; now apply count_occ_dominated).
  assert (Hun : forall q, undone hb pop P q
                 = (undone hb pop (P ++ cur) q
                    + cnt (fun p => dom hb p q) cur)%nat).
  { intro q. apply undone_app; try assumption.
    - eapply NoDup_app_remove_l; eauto.
    - now apply NoDup_app_disjoint. }
  assert (HQpop : forall q, In q Qn -> In q pop).
  { intros q Hq. apply HinQ in Hq. rewrite Hocc in Hq.
    destruct (memb q pop) eqn:E; [now apply memb_In|simpl in Hq; lia]. }
  assert (HQnew : forall q, In q Qn -> ~ In q (P ++ cur)).
  { intros q Hq Hold. pose proof (HQpop q Hq) as Hqp.
    apply HinQ in Hq. rewrite (Hcnt q Hqp) in Hq.
    apply (Hrdy q Hqp) in Hold. lia. }
  assert (Hcnt' : forall q, In q pop ->
            counter_of (fst st) q = Z.of_nat (undone hb pop (P ++ cur) q)).
  { intros q Hq. rewrite Hc, (Hcnt q Hq), Hocc, Hun.
    apply memb_In in Hq. rewrite Hq. lia. }
  constructor.
  - eapply same_scores_trans; eauto.
  - rewrite HP'. apply NoDup_app; try assumption.
    intros a Ha Hq. exact (HQnew a Hq Ha).
  - rewrite HP'. intros x Hx. apply in_app_iff in Hx.
    destruct Hx as [Hx|Hx]; [now apply Hinc|now apply HQpop].
  - rewrite HP'. exact Hcnt'.
  - rewrite HP'. intros q Hq. rewrite in_app_iff. split.
    + intros [Hold|Hnew].
      * apply (Hrdy q Hq) in Hold. rewrite Hun in Hold. lia.
      * apply HinQ in Hnew. rewrite (Hcnt q Hq), Hocc, Hun in Hnew.
        apply memb_In in Hq. rewrite Hq in Hnew. lia.
    + intro Hz. destruct (Nat.eq_dec (undone hb pop P q) 0) as [E|E].
      * left. now apply (Hrdy q Hq).
      * right. apply HinQ. rewrite (Hcnt q Hq), Hocc, Hun.
        rewrite Hun in E. apply memb_In in Hq. rewrite Hq. lia.
  - intros p Hp. rewrite Hd. now apply Hdom.
  - rewrite length_app. simpl. lia.
  - apply Forall_app. split; [exact Hne|]. now constructor.
  - rewrite nth_error_app1; [exact Hfst|]. rewrite length_app. simpl. lia.
  - intros k f q Hk Hq. rewrite HrkQ.
    destruct (Nat.lt_ge_cases k (length (done ++ [cur]))) as [Hlt|Hge].
    + rewrite nth_error_app1 in Hk by exact Hlt.
      assert (Hold : In q (P ++ cur))
        by (rewrite <- HP'; eapply in_front; eauto).
      assert (Em : memb q Qn = false).
      { apply memb_not_In. intro Hn. exact (HQnew q Hn Hold). }
      rewrite Em. eapply Hrk; eauto.
    + rewrite nth_error_app2 in Hk by exact Hge.
      rewrite length_app in *. simpl in *.
      destruct (k - (length done + 1))%nat as [|n] eqn:En;
        [|destruct n; discriminate].
      simpl in Hk. injection Hk as <-. apply memb_In in Hq. rewrite Hq.
      lia.
  - intros k f q p Hk Hq Hp Hpq.
    destruct (Nat.lt_ge_cases k (length (done ++ [cur]))) as [Hlt|Hge].
    + rewrite nth_error_app1 in Hk by exact Hlt.
      rewrite firstn_app, concat_app. apply in_app_iff. left.
      eapply Hbef; eauto.
    + rewrite nth_error_app2 in Hk by exact Hge.
      rewrite firstn_all2 by exact Hge. rewrite HP'.
      rewrite length_app in *. simpl in *.
      destruct (k - (length done + 1))%nat as [|n] eqn:En;
        [|destruct n; discriminate].
      simpl in Hk. injection Hk as <-.
      pose proof (HQpop q Hq) as Hqp.
      assert (Hz : undone hb pop (P ++ cur) q = 0%nat).
      { apply HinQ in Hq. rewrite (Hcnt q Hqp), Hocc, Hun in Hq.
        apply memb_In in Hqp. rewrite Hqp in Hq. lia. }
      unfold undone in Hz. rewrite cnt_zero in Hz.
      specialize (Hz p Hp). simpl in Hz. rewrite Hpq in Hz. simpl in Hz.
      apply negb_false_iff in Hz. now apply memb_In.
  - intros r Hr. rewrite Hf; [now apply Hfr|].
    intro Hin. apply Hr. unfold decs in Hin. apply in_concat in Hin.
    destruct Hin as (l & Hl & Hrl). apply in_map_iff in Hl.
    destruct Hl as (p & <- & _). apply filter_In in Hrl. tauto.
Qed.

Lemma exists_min (g : ref -> Q) (l : list ref) :
  l <> [] -> exists u, In u l /\ forall v, In v l -> g u <= g v.
Proof.
  induction l as [|a l IH]; [congruence|]. intros _.
  destruct l as [|b l].
  - exists a. split; [now left|]. intros v [<-|[]]. apply Qle_refl.
  - destruct IH as (u & Hu & Hmin); [discriminate|].
    destruct (Qlt_le_dec (g a) (g u)) as [Hlt|Hle].
    + exists a. split; [now left|]. intros v [<-|Hv]; [apply Qle_refl|].
      apply Qle_trans with (g u); [now apply Qlt_le_weak|now apply Hmin].
    + exists u. split; [now right|]. intros v [<-|Hv]; [exact Hle|].
      now apply Hmin.
Qed.

Lemma inv_complete (hb : Heap) (pop f0 : list ref) (i : nat)
      (done : list (list ref)) (h : Heap) :
  sort_inv hb pop f0 i done [] h ->
  forall q, In q pop -> In q (concat done).
Proof.
  intros Inv q Hq.
  destruct (memb q (concat done)) eqn:Eq; [now apply memb_In|].
  exfalso.
  set (U := filter (fun p => negb (memb p (concat done))) pop).
  assert (HU : U <> []).
  { intro E. assert (Hin : In q U)
      by (apply filter_In; split; [exact Hq|now rewrite Eq]).
    rewrite E in Hin. exact Hin. }
  destruct (exists_min (fun r => MOGA.score0 (Heap.get hb r)) HU)
    as (u & Hu & Hmin).
  apply filter_In in Hu. destruct Hu as [Hup Hun].
  apply negb_true_iff, memb_not_In in Hun. apply Hun.
  assert (Hz : undone hb pop (concat done) u = 0%nat).
  { unfold undone. apply cnt_zero. intros p Hp.
    destruct (dom hb p u) eqn:Ed; [|reflexivity]. simpl.
    apply negb_false_iff. destruct (memb p (concat done)) eqn:Ep;
      [reflexivity|exfalso].
    assert (HpU : In p U)
      by (apply filter_In; split; [exact Hp|now rewrite Ep]).
    specialize (Hmin p HpU). simpl in Hmin.
    unfold dom, MOGA.dominates in Ed. apply andb_true_iff in Ed.
    destruct Ed as [Ed _]. apply ltb_lt in Ed.
    exact (Qlt_not_le _ _ Ed Hmin). }
  apply (inv_ready Inv u Hup) in Hz. now rewrite app_nil_r in Hz.
Qed.

Lemma peel_spec (hb : Heap) (pop f0 : list ref) :
  NoDup pop ->
  forall fuel i done cur h,
    sort_inv hb pop f0 i done cur h ->
    (length pop - length (concat done) < fuel)%nat ->
    exists fronts h',
      MOGA.peel fuel i (done ++ [cur]) h = Ok (fronts ++ [[]], h')
      /\ sort_inv hb pop f0 (length fronts) fronts [] h'.
Proof.
  intro Hnd. induction fuel as [|fuel IH]; intros i done cur h Inv Hfuel;
    [lia|].
  assert (Hnth : nth_error (done ++ [cur]) i = Some cur).
  { rewrite nth_error_app2 by (rewrite (inv_len Inv); lia).
    rewrite (inv_len Inv), Nat.sub_diag. reflexivity. }
  cbn [MOGA.peel]. rewrite Hnth. destruct cur as [|c cur].
  - exists done, h. split; [reflexivity|].
    now rewrite (inv_len Inv).
  - assert (Hcur : c :: cur <> []) by discriminate.
    pose proof (next_front_inv Hnd Inv Hcur) as Inv'. cbn zeta in Inv'.
    assert (Hlen : (length (concat done) + S (length cur)
                    <= length pop)%nat).
    { pose proof (NoDup_incl_length (inv_nodup Inv) (inv_incl Inv)) as Hl.
      rewrite length_app in Hl. exact Hl. }
    apply IH; [exact Inv'|].
    rewrite concat_app, length_app. simpl. rewrite app_nil_r. simpl. lia.
Qed.

Lemma fast_sort_spec (hb : Heap) (pop : list ref) (fuel : nat) :
  NoDup pop -> (length pop < fuel)%nat ->
  exists fronts h',
    MOGA._fast_non_dominated_sort fuel pop hb = Ok (fronts, h')
    /\ sort_inv hb pop (filter (no_dominator hb pop) pop)
                (length fronts) fronts [] h'.
Proof.
  intros Hnd Hfuel. unfold MOGA._fast_non_dominated_sort.
  destruct (first_loops_inv hb Hnd) as [Hf0 Inv]. cbn zeta in Hf0, Inv.
  set (st := fold_left (MOGA.first_front pop) pop
                       (fold_left MOGA.clean pop hb, [])) in *.
  rewrite Hf0 in Inv at 1.
  destruct (@peel_spec hb pop _ Hnd fuel 0 [] (snd st) (fst st) Inv)
    as (fronts & h' & Hpeel & Inv'); [simpl; lia|].
  simpl in Hpeel. rewrite Hpeel. exists fronts, h'. cbn [bind].
  rewrite last_last, removelast_last. split; [reflexivity|exact Inv'].
Qed.

(** C10: on a list of distinct individuals (non-empty, as the claim has
    it), given iterations enough for its loop, [_fast_non_dominated_sort]
    returns a non-empty list of non-empty fronts whose concatenation holds
    every individual of the list exactly once. *)
Theorem fast_non_dominated_sort_partitions
        (fuel : nat) (population : list ref) (h : Heap) :
  population <> [] -> NoDup population ->
  (length population < fuel)%nat ->
  exists fronts h',
    MOGA._fast_non_dominated_sort fuel population h = Ok (fronts, h')
    /\ fronts <> []
    /\ Forall (fun f => f <> []) fronts
    /\ NoDup (concat fronts)
    /\ Permutation (concat fronts) population.
Proof.
  intros Hne Hnd Hfuel.
  destruct (fast_sort_spec h Hnd Hfuel) as (fronts & h' & Hsort & Inv).
  exists fronts, h'. split; [exact Hsort|].
  pose proof (inv_nodup Inv) as Hn. rewrite app_nil_r in Hn.
  pose proof (inv_incl Inv) as Hi. rewrite app_nil_r in Hi.
  pose proof (inv_complete Inv) as Hc.
  split; [|split; [exact (inv_nonempty Inv)|split; [exact Hn|]]].
  - intros ->. destruct population as [|p l]; [congruence|].
    exact (Hc p (or_introl eq_refl)).
  - apply NoDup_Permutation; try assumption.
    intro x. split; [apply Hi|apply Hc].
Qed.

Lemma fast_non_dominated_sort_partitions_witness :
  exists fronts h',
    MOGA._fast_non_dominated_sort 4 [0; 1; 2]%nat three_scores
    = Ok (fronts, h')
    /\ fronts <> []
    /\ Forall (fun f => f <> []) fronts
    /\ NoDup (concat fronts)
    /\ Permutation (concat fronts) [0; 1; 2]%nat.
Proof.
  apply fast_non_dominated_sort_partitions.
  - discriminate.
  - repeat constructor; simpl; intuition discriminate.
  - simpl. lia.
Defined.

(** ** The loop of [run] *)

Lemma bind_ok {A B} (m : result A) (k : A -> result B) (b : B) :
  bind m k = Ok b -> exists a, m = Ok a /\ k a = Ok b.
Proof. destruct m as [a| |]; simpl; intro E; try discriminate. eauto. Qed.

Lemma get_N_ok (p : Plan) (n : nat) : Plan.get_N p = Ok n -> Plan.N p = Some n.
Proof. unfold Plan.get_N. destruct (Plan.N p); [congruence|discriminate]. Qed.

Lemma get_N_some (p : Plan) (n : nat) : Plan.N p = Some n -> Plan.get_N p = Ok n.
Proof. unfold Plan.get_N. now intros ->. Qed.

Lemma get_N_none (p : Plan) : Plan.N p = None -> Plan.get_N p = Raise AttributeError.
Proof. unfold Plan.get_N. now intros ->. Qed.

Lemma foldM_inv {A B} (I : A -> Prop) (body : A -> B -> result A)
      (l : list B) :
  (forall a b a', In b l -> I a -> body a b = Ok a' -> I a') ->
  forall acc acc', I acc -> foldM body l acc = Ok acc' -> I acc'.
Proof.
  induction l as [|b l IH]; intros Hstep acc acc' Hacc E; simpl in E.
  - now injection E as <-.
  - apply bind_ok in E. destruct E as (a & Ea & E).
    apply (IH (fun a0 b0 a' Hb => Hstep a0 b0 a' (or_intror Hb)) a acc');
      [|exact E].
    exact (Hstep acc b a (or_introl eq_refl) Hacc Ea).
Qed.

Lemma foldM_count {A B} (len : A -> nat) (body : A -> B -> result A)
      (l : list B) :
  (forall a b a', body a b = Ok a' -> len a' = S (len a)) ->
  forall acc acc',
    foldM body l acc = Ok acc' -> len acc' = (len acc + length l)%nat.
Proof.
  intro Hstep. induction l as [|b l IH]; intros acc acc' E; simpl in E.
  - injection E as <-. simpl. lia.
  - apply bind_ok in E. destruct E as (a & Ea & E).
    rewrite (IH _ _ E), (Hstep _ _ _ Ea). simpl. lia.
Qed.

Section Run.
Variable from_node_to_edge_capacity : System -> DiGraph -> DiGraph.
Variable maximum_flow_value :
  DiGraph -> String.string -> String.string -> float.
Variable fuel : nat.
Variable fast_non_dominated_sort :
  list ref -> Heap -> result (list (list ref) * Heap).
Variable _crowding_distance :
  list ref -> Heap -> result (list ref * Heap).

Local Abbreviation run := (MOGA.run from_node_to_edge_capacity maximum_flow_value
  fuel fast_non_dominated_sort _crowding_distance).
Local Abbreviation generation := (MOGA.generation from_node_to_edge_capacity
  maximum_flow_value fuel fast_non_dominated_sort _crowding_distance).
Local Abbreviation generate_initial_population :=
  (MOGA.generate_initial_population from_node_to_edge_capacity
     maximum_flow_value fuel).

Lemma initial_population_length (m : MOGA) h rng P h' rng' :
  generate_initial_population m h rng = Ok (P, h', rng') ->
  length P = (MOGA.init_pop_size m - 1 + 1)%nat.
Proof.
  unfold MOGA.generate_initial_population. intro E.
  apply bind_ok in E. destruct E as ([structures rng1] & E1 & E).
  apply bind_ok in E. destruct E as ([population h1] & E2 & E).
  apply bind_ok in E. destruct E as ([S_ rng2] & E3 & E).
  apply bind_ok in E. destruct E as ([r h2] & E4 & E).
  injection E as <- <- <-.
  assert (Hs : length structures = (MOGA.init_pop_size m - 1)%nat).
  { destruct (MOGA.parallel m).
    - destruct (MOGA.init_pop_size m - 1)%nat as [|k]; simpl in E1;
        [|discriminate].
      injection E1 as <- _. reflexivity.
    - apply (foldM_count (fun st => length (fst st))) in E1.
      + simpl in E1. now rewrite length_seq in E1.
      + intros [l g] b a'. intro Eb. apply bind_ok in Eb.
        destruct Eb as ([s g'] & _ & Eb). injection Eb as <-. simpl.
        rewrite length_app. simpl. lia. }
  apply (foldM_count (fun st => length (fst st))) in E2.
  2:{ intros [l g] b a'. intro Eb. apply bind_ok in Eb.
      destruct Eb as ([r' g'] & _ & Eb). injection Eb as <-. simpl.
      rewrite length_app. simpl. lia. }
  simpl in E2.
  rewrite length_app, E2, Hs. simpl. lia.
Qed.

Lemma generation_records st i st' :
  generation st i = Ok st' ->
  exists P',
    length P' = MOGA.init_pop_size (fst (fst (fst st)))
    /\ fst (fst (fst st'))
       = MOGA.record_population (fst (fst (fst st))) P'.
Proof.
  destruct st as [[[m P] h] rng]. intro E. unfold MOGA.generation in E.
  apply bind_ok in E. destruct E as ([[Q h1] rng1] & _ & E).
  apply bind_ok in E. destruct E as ([fronts h2] & _ & E).
  apply bind_ok in E. destruct E as ([P' h3] & _ & E).
  destruct (Nat.eqb_spec (length P') (MOGA.init_pop_size m)) as [El|];
    [|discriminate].
  injection E as <-. exists P'. split; [exact El|reflexivity].
Qed.

Lemma plan_init_without_N acts sys gs p :
  Plan.init from_node_to_edge_capacity maximum_flow_value fuel acts sys gs
  = Ok p ->
  Plan.N p = None.
Proof.
  unfold Plan.init. destruct gs as [gs|]; intro E.
  - apply bind_ok in E. destruct E as ([acts' ic'] & _ & E).
    now injection E as <-.
  - now injection E as <-.
Qed.

Lemma initial_population_needs_N (m : MOGA) h rng :
  Plan.N (MOGA.plan m) = None ->
  generate_initial_population m h rng
  = Raise (if MOGA.parallel m && (2 <=? MOGA.init_pop_size m)%nat
           then TypeError else AttributeError).
Proof.
  intro HN. apply get_N_none in HN.
  assert (Hs : forall r, MOGA.singleton_structure m r = Raise AttributeError).
  { intro r. unfold MOGA.singleton_structure. now rewrite HN. }
  assert (Hg : forall r, MOGA.generate_individual_with_resources m r
                         = Raise AttributeError).
  { intro r. unfold MOGA.generate_individual_with_resources,
      MOGA.generate_individual. now rewrite HN. }
  unfold MOGA.generate_initial_population.
  destruct (MOGA.parallel m); destruct (MOGA.init_pop_size m) as [|[|k]];
    cbn [Nat.sub seq foldM bind andb Nat.leb]; rewrite ?Hg, ?Hs; reflexivity.
Qed.

Lemma initial_population_has_N (m : MOGA) h rng r :
  generate_initial_population m h rng = Ok r ->
  exists n, Plan.N (MOGA.plan m) = Some n.
Proof.
  intro E. destruct (Plan.N (MOGA.plan m)) as [n|] eqn:EN; [now exists n|].
  rewrite (initial_population_needs_N m h rng EN) in E. discriminate.
Qed.

(** C1 (the code on a plan that [Plan.__init__] has built): [run] does not
    return.  The plan has no [N], and the first read of [self.plan.N], in
    [generate_initial_population], raises [AttributeError] before a
    population is stored; in the parallel mode with a seed to map
    ([init_pop_size >= 2]) the pool has raised [TypeError] before that. *)
Theorem run_raises_on_a_built_plan
        (acts : list Activity) (sys : System) (gs : option Np.tensor)
        (maintenance_plan : Plan)
        (init_pop_size : nat) (p_mutation : float) (n_generations : nat)
        (parallel : bool) (h : Heap) (rng : Random.state) :
  Plan.init from_node_to_edge_capacity maximum_flow_value fuel acts sys gs
  = Ok maintenance_plan ->
  run (MOGA.init init_pop_size p_mutation n_generations maintenance_plan
                 parallel) h rng
  = Raise (if parallel && (2 <=? init_pop_size)%nat
           then TypeError else AttributeError).
Proof.
  intro E. apply plan_init_without_N in E. unfold MOGA.run.
  rewrite initial_population_needs_N by exact E. reflexivity.
Qed.

(** X29: when [run] returns on a new [MOGA] with [init_pop_size >= 1],
    which takes a plan with an [N] that a caller has assigned to it,
    [population_history] has [n_generations + 1] populations and each of
    them has [init_pop_size] individuals; whatever the two missing methods
    do. *)
Theorem run_population_history
        (init_pop_size : nat) (p_mutation : float) (n_generations : nat)
        (maintenance_plan : Plan) (parallel : bool)
        (h : Heap) (rng : Random.state)
        (m' : MOGA) (h' : Heap) (rng' : Random.state) :
  (1 <= init_pop_size)%nat ->
  run (MOGA.init init_pop_size p_mutation n_generations maintenance_plan
                 parallel) h rng = Ok (m', h', rng') ->
  length (MOGA.population_history m') = (n_generations + 1)%nat
  /\ Forall (fun P => length P = init_pop_size)
            (MOGA.population_history m').
Proof.
  intros Hn E. unfold MOGA.run in E.
  apply bind_ok in E. destruct E as ([[P h1] rng1] & Einit & E).
  apply bind_ok in E. destruct E as ([[[m1 P1] h2] rng2] & Eloop & E).
  injection E as <- <- <-.
  apply initial_population_length in Einit. simpl in Einit.
  set (m0 := MOGA.record_population _ P) in Eloop.
  change (MOGA.n_generations m0) with n_generations in Eloop.
  split.
  - apply (foldM_count
             (fun st : MOGA * list ref * Heap * Random.state =>
                length (MOGA.population_history (fst (fst (fst st))))))
      in Eloop.
    + simpl in Eloop. rewrite length_seq in Eloop. lia.
    + intros a b a' Eb.
      destruct (generation_records _ _ Eb) as (P' & _ & E').
      rewrite E'. simpl. rewrite length_app. simpl. lia.
  - set (I := fun st : MOGA * list ref * Heap * Random.state =>
                MOGA.init_pop_size (fst (fst (fst st))) = init_pop_size
                /\ Forall (fun P => length P = init_pop_size)
                     (MOGA.population_history (fst (fst (fst st))))).
    assert (HI : I (m1, P1, h2, rng2)).
    { eapply (@foldM_inv _ _ I); [|  |exact Eloop].
      - intros a b a' _ [Ha Hall] Eb.
        destruct (generation_records _ _ Eb) as (P' & HP' & E').
        unfold I. rewrite E'. simpl.
        split; [exact Ha|]. apply Forall_app. split; [exact Hall|].
        constructor; [congruence|constructor].
      - split; [reflexivity|]. simpl. constructor; [lia|constructor]. }
    exact (proj2 HI).
Qed.
End Run.

Lemma run_raises_on_a_built_plan_witness :
  Plan.init keep_graph count_nodes 50 (Plan.activities two_plan) two_system
            None
  = Ok two_plan
  /\ MOGA.run keep_graph count_nodes 50 Missing.fast_non_dominated_sort
              Missing._crowding_distance
              (MOGA.init 2 (1 # 2) 1 two_plan false) empty_heap mixed_draws
     = Raise AttributeError.
Proof.
  assert (E : Plan.init keep_graph count_nodes 50 (Plan.activities two_plan)
                        two_system None
              = Ok two_plan) by (vm_compute; reflexivity).
  split; [exact E|].
  exact (@run_raises_on_a_built_plan keep_graph count_nodes 50
           Missing.fast_non_dominated_sort Missing._crowding_distance
           _ _ _ two_plan 2 (1 # 2) 1 false empty_heap mixed_draws E).
Defined.

Lemma run_population_history_witness :
  exists m' h' rng',
    run_two 2 1 = Ok (m', h', rng')
    /\ length (MOGA.population_history m') = 2%nat
    /\ Forall (fun P => length P = 2%nat) (MOGA.population_history m').
Proof.
  assert (E : exists r, run_two 2 1 = Ok r)
    by (vm_compute; eexists; reflexivity).
  destruct E as [[[m' h'] rng'] E]. exists m', h', rng'.
  split; [exact E|].
  exact (@run_population_history _ _ _ _ _ 2 0 1 counted_plan false
           empty_heap mixed_draws m' h' rng' (le_S _ _ (le_n 1)) E).
Defined.

(** *** The sort allocates nothing *)

Lemma fold_left_keeps {A B} (P : A -> Prop) (f : A -> B -> A)
      (l : list B) :
  (forall a b, P a -> P (f a b)) -> forall a, P a -> P (fold_left f l a).
Proof.
  intro Hf. induction l as [|b l IH]; intros a Ha; simpl; [exact Ha|].
  apply IH, Hf, Ha.
Qed.

Lemma compare_next p h q : Heap.next (MOGA.compare p h q) = Heap.next h.
Proof.
  unfold MOGA.compare.
  destruct (MOGA.dominates _ _); [reflexivity|].
  destruct (MOGA.dominated_by _ _); reflexivity.
Qed.

Lemma first_front_next pop st p :
  Heap.next (fst (MOGA.first_front pop st p)) = Heap.next (fst st).
Proof.
  unfold MOGA.first_front.
  assert (E : Heap.next (fold_left (MOGA.compare p) pop (fst st))
              = Heap.next (fst st)).
  { apply (fold_left_keeps
             (fun h => Heap.next h = Heap.next (fst st)));
      [|reflexivity].
    intros a b Ha. now rewrite compare_next. }
  destruct (_ =? 0)%Z; simpl; exact E.
Qed.

Lemma release_next i st q :
  Heap.next (fst (MOGA.release i st q)) = Heap.next (fst st).
Proof. unfold MOGA.release. destruct (_ =? 0)%Z; reflexivity. Qed.

Lemma next_front_next i h front :
  Heap.next (fst (MOGA.next_front i h front)) = Heap.next h.
Proof.
  unfold MOGA.next_front.
  apply (fold_left_keeps
           (fun st : Heap * list ref => Heap.next (fst st) = Heap.next h));
    [|reflexivity].
  intros st p Hst.
  apply (fold_left_keeps
           (fun st : Heap * list ref => Heap.next (fst st) = Heap.next h));
    [|exact Hst].
  intros st' q Hst'. now rewrite release_next.
Qed.

Lemma peel_next (fuel : nat) : forall i frontiers h fronts h',
  MOGA.peel fuel i frontiers h = Ok (fronts, h') ->
  Heap.next h' = Heap.next h.
Proof.
  induction fuel as [|fuel IH]; intros i frontiers h fronts h' E;
    simpl in E; destruct (nth_error frontiers i) as [[|c cur]|];
    try discriminate; try (now injection E as _ <-).
  apply IH in E. now rewrite E, next_front_next.
Qed.

Lemma sort_next fuel pop h fronts h' :
  MOGA._fast_non_dominated_sort fuel pop h = Ok (fronts, h') ->
  Heap.next h' = Heap.next h.
Proof.
  unfold MOGA._fast_non_dominated_sort. intro E.
  apply bind_ok in E. destruct E as ([fr h1] & Ep & E).
  apply peel_next in Ep.
  assert (E1 : Heap.next h' = Heap.next h1)
    by (destruct (last fr [0%nat]); now injection E as _ <-).
  rewrite E1, Ep.
  assert (Hc : Heap.next (fold_left MOGA.clean pop h) = Heap.next h).
  { apply (fold_left_keeps (fun a => Heap.next a = Heap.next h));
      [|reflexivity]. intros a b Ha. exact Ha. }
  rewrite <- Hc.
  apply (fold_left_keeps
           (fun st : Heap * list ref =>
              Heap.next (fst st)
              = Heap.next (fold_left MOGA.clean pop h)));
    [|reflexivity].
  intros st p Hst. now rewrite first_front_next.
Qed.

(** What the loop of [run] uses of the sort. *)
Lemma missing_sort_spec (pop : list ref) (h : Heap) fronts h' :
  NoDup pop ->
  Missing.fast_non_dominated_sort pop h = Ok (fronts, h') ->
  Permutation (concat fronts) pop
  /\ (forall r, In r pop -> (1 <= rank_of h' r)%Z)
  /\ (forall r, ~ In r pop -> Heap.get h' r = Heap.get h r)
  /\ Heap.next h' = Heap.next h.
Proof.
  intros Hnd E. unfold Missing.fast_non_dominated_sort in E.
  pose proof (sort_next _ _ _ E) as Hnext.
  destruct (@fast_sort_spec h pop (S (length pop)) Hnd (Nat.lt_succ_diag_r _))
    as (fronts0 & h0 & E0 & Inv).
  rewrite E in E0. injection E0 as <- <-.
  pose proof (inv_nodup Inv) as Hn. rewrite app_nil_r in Hn.
  pose proof (inv_incl Inv) as Hi. rewrite app_nil_r in Hi.
  pose proof (inv_complete Inv) as Hc.
  split; [|split; [|split; [exact (inv_frame Inv)|exact Hnext]]].
  - apply NoDup_Permutation; try assumption.
    intro x. split; [apply Hi|apply Hc].
  - intros r Hr. apply Hc in Hr. apply in_concat in Hr.
    destruct Hr as (f & Hf & Hr). apply In_nth_error in Hf.
    destruct Hf as [k Hk].
    assert (Hk' : nth_error (fronts ++ [[]]) k = Some f).
    { rewrite nth_error_app1; [exact Hk|].
      apply nth_error_Some. congruence. }
    rewrite (inv_rank Inv _ _ Hk' Hr). lia.
Qed.

(** *** The crowding distance of the spec *)

Lemma insert_by_perm lt r l : Permutation (Missing.insert_by lt r l) (r :: l).
Proof.
  induction l as [|a l IH]; simpl; [apply Permutation_refl|].
  destruct (lt r a); [apply Permutation_refl|].
  eapply Permutation_trans; [apply perm_skip, IH|apply perm_swap].
Qed.

Lemma sort_by_perm lt l : Permutation (Missing.sort_by lt l) l.
Proof.
  unfold Missing.sort_by.
  assert (G : forall acc,
             Permutation
               (fold_left (fun acc r => Missing.insert_by lt r acc) l acc)
               (l ++ acc)).
  { induction l as [|a l IH]; intro acc; simpl; [apply Permutation_refl|].
    eapply Permutation_trans; [apply IH|].
    eapply Permutation_trans;
      [apply Permutation_app_head, insert_by_perm|].
    apply Permutation_sym, Permutation_middle. }
  specialize (G []). now rewrite app_nil_r in G.
Qed.

Lemma only_distances_refl h : only_distances h h.
Proof. split; reflexivity. Qed.

Lemma only_distances_trans h1 h2 h3 :
  only_distances h1 h2 -> only_distances h2 h3 -> only_distances h1 h3.
Proof.
  intros [R12 N12] [R23 N23]. split; [intro r|]; congruence.
Qed.

Lemma modify_distance h r (g : Individual -> distance) :
  only_distances h
    (Heap.modify h r (fun o => Individual.set_crowding_distance (g o) o)).
Proof.
  split; [|reflexivity]. intro r'. rewrite get_modify.
  destruct (Nat.eqb r' r) eqn:E; [|reflexivity].
  apply Nat.eqb_eq in E. now subst.
Qed.

Lemma crowd_objective_distances key front h :
  only_distances h (Missing.crowd_objective key front h).
Proof.
  unfold Missing.crowd_objective.
  destruct (Missing.sort_by _ front) as [|first rest];
    [apply only_distances_refl|].
  apply (fold_left_keeps (only_distances h)).
  - intros a b Ha. eapply only_distances_trans; [exact Ha|].
    apply (modify_distance a _
             (fun o => Missing.add_distance (Individual.crowding_distance o) _)).
  - eapply only_distances_trans;
      [|apply (modify_distance _ _ (fun _ => Infinite))].
    apply (modify_distance _ _ (fun _ => Infinite)).
Qed.

Lemma missing_crowding_ok : crowding_ok Missing._crowding_distance.
Proof.
  intros f h f' h' E. unfold Missing._crowding_distance in E.
  injection E as <- <-. split; [apply sort_by_perm|].
  eapply only_distances_trans; [|apply crowd_objective_distances].
  eapply only_distances_trans; [|apply crowd_objective_distances].
  apply (fold_left_keeps (only_distances h));
    [|apply only_distances_refl].
  intros a b Ha. eapply only_distances_trans; [exact Ha|].
  apply (modify_distance a b (fun _ => Finite 0)).
Qed.

(** *** Allocation *)

Section Allocation.

Variable from_node_to_edge_capacity : System -> DiGraph -> DiGraph.
Variable maximum_flow_value :
  DiGraph -> String.string -> String.string -> float.
Variable fuel : nat.

Lemma get_alloc h v r :
  Heap.get (snd (Heap.alloc h v)) r
  = if Nat.eqb r (Heap.next h) then v else Heap.get h r.
Proof. reflexivity. Qed.

Lemma new_individual_spec (m : MOGA) s h r h' :
  MOGA.new_individual from_node_to_edge_capacity maximum_flow_value fuel
    m s h = Ok (r, h') ->
  r = Heap.next h /\ Heap.next h' = S (Heap.next h)
  /\ rank_of h' r = 0%Z
  /\ forall r', r' <> Heap.next h -> Heap.get h' r' = Heap.get h r'.
Proof.
  unfold MOGA.new_individual. intro E. apply bind_ok in E.
  destruct E as (p & _ & E). injection E as <- <-.
  split; [reflexivity|]. split; [reflexivity|]. split.
  - unfold rank_of, Heap.get. simpl. now rewrite Nat.eqb_refl.
  - intros r' Hr'. unfold Heap.get. simpl. apply Nat.eqb_neq in Hr'.
    now rewrite Hr'.
Qed.

Lemma fresh_unranked_step (m : MOGA) s l h r h' :
  fresh_unranked (l, h) ->
  MOGA.new_individual from_node_to_edge_capacity maximum_flow_value fuel
    m s h = Ok (r, h') ->
  fresh_unranked (l ++ [r], h').
Proof.
  intros [Hnd Hall] E. apply new_individual_spec in E.
  destruct E as (-> & Hn & Hr & Hfr). simpl in *. split; simpl.
  - apply NoDup_app; [exact Hnd|repeat constructor; intros []|].
    intros a Ha [<-|[]]. apply Hall in Ha. lia.
  - intros r Hin. apply in_app_iff in Hin. destruct Hin as [Hin|[<-|[]]].
    + destruct (Hall r Hin) as [Hlt Hrk]. split; [lia|].
      unfold rank_of in *. rewrite Hfr by lia. exact Hrk.
    + split; [lia|exact Hr].
Qed.

Lemma initial_population_fresh (m : MOGA) h rng P h' rng' :
  MOGA.generate_initial_population from_node_to_edge_capacity
    maximum_flow_value fuel m h rng = Ok (P, h', rng') ->
  fresh_unranked (P, h').
Proof.
  unfold MOGA.generate_initial_population. intro E.
  apply bind_ok in E. destruct E as ([structures rng1] & _ & E).
  apply bind_ok in E. destruct E as ([population h1] & E2 & E).
  apply bind_ok in E. destruct E as ([S_ rng2] & _ & E).
  apply bind_ok in E. destruct E as ([r h2] & E4 & E).
  injection E as <- <- <-.
  eapply fresh_unranked_step; [|exact E4].
  eapply (@foldM_inv _ _ fresh_unranked); [| |exact E2].
  - intros [l g] s [l' g'] _ Ha Eb. apply bind_ok in Eb.
    destruct Eb as ([r' g''] & Er & Eb). injection Eb as <- <-.
    eapply fresh_unranked_step; eauto.
  - split; [constructor|intros r0 []].
Qed.

Lemma mutation_offspring (m : MOGA) (P : list ref) h rng Q h1 rng1 :
  MOGA.mutation from_node_to_edge_capacity maximum_flow_value fuel
    m P h rng = Ok (Q, h1, rng1) ->
  offspring_of h Q h1.
Proof.
  unfold MOGA.mutation. intro E.
  eapply (@foldM_inv _ _
            (fun st : list ref * Heap * Random.state =>
               offspring_of h (fst (fst st)) (snd (fst st))))
    in E; [exact E| |].
  - intros [[l g] s] p [[l' g'] s'] _ (Hnd & Hin & Hle & Hfr) Eb.
    simpl in *. apply bind_ok in Eb.
    destruct Eb as ([o s''] & _ & Eb). injection Eb as <- <- <-.
    split; [|split; [|split]]; simpl.
    + apply NoDup_app; [exact Hnd|repeat constructor; intros []|].
      intros a Ha [<-|[]]. apply Hin in Ha. lia.
    + intros r Hr. apply in_app_iff in Hr.
      destruct Hr as [Hr|[<-|[]]]; [apply Hin in Hr; lia|lia].
    + lia.
    + intros r Hr. unfold Heap.get at 1. simpl.
      assert (En : Nat.eqb r (Heap.next g) = false)
        by (apply Nat.eqb_neq; lia).
      rewrite En. now apply Hfr.
  - simpl. split; [constructor|]. split; [intros r []|].
    split; [lia|reflexivity].
Qed.

End Allocation.

(** *** The generations *)

Lemma NoDup_app_firstn (l l' : list ref) k :
  NoDup (l ++ l') -> NoDup (l ++ firstn k l').
Proof.
  intro H. rewrite <- (firstn_skipn k l'), app_assoc in H.
  eapply NoDup_app_remove_r; eauto.
Qed.

Lemma in_firstn (l : list ref) k x : In x (firstn k l) -> In x l.
Proof.
  intro H. rewrite <- (firstn_skipn k l). apply in_app_iff. now left.
Qed.

Section Generations.

Variable from_node_to_edge_capacity : System -> DiGraph -> DiGraph.
Variable maximum_flow_value :
  DiGraph -> String.string -> String.string -> float.
Variable fuel : nat.
Variable crowd : list ref -> Heap -> result (list ref * Heap).
Hypothesis crowd_ok : crowding_ok crowd.

Lemma select_spec (m : MOGA) (fronts : list (list ref)) :
  forall P h P' h',
    MOGA.select crowd m fronts P h = Ok (P', h') ->
    incl P' (P ++ concat fronts)
    /\ (NoDup (P ++ concat fronts) -> NoDup P')
    /\ only_distances h h'.
Proof.
  induction fronts as [|f fronts IH]; intros P h P' h' E; simpl in E.
  - injection E as <- <-. simpl. rewrite app_nil_r.
    split; [apply incl_refl|]. split; [tauto|apply only_distances_refl].
  - apply bind_ok in E. destruct E as ([f' h1] & Ec & E).
    destruct (crowd_ok Ec) as (Hperm & Hd).
    assert (Hp : Permutation ((P ++ f') ++ concat fronts)
                             (P ++ concat (f :: fronts))).
    { simpl. rewrite <- app_assoc. apply Permutation_app_head.
      now apply Permutation_app_tail. }
    destruct (length P + length f' <? MOGA.init_pop_size m)%nat.
    + apply IH in E. destruct E as (Hi & Hn & Hd').
      split; [|split].
      * intros x Hx. apply Hi in Hx.
        eapply Permutation_in; [exact Hp|exact Hx].
      * intro Hnd. apply Hn.
        eapply Permutation_NoDup; [apply Permutation_sym, Hp|exact Hnd].
      * eapply only_distances_trans; [exact Hd|exact Hd'].
    + injection E as <- <-. split; [|split; [|exact Hd]].
      * intros x Hx. eapply Permutation_in; [exact Hp|].
        apply in_app_iff. left. apply in_app_iff in Hx.
        apply in_app_iff. destruct Hx as [Hx|Hx]; [now left|right].
        eapply in_firstn; eauto.
      * intro Hnd. apply NoDup_app_firstn.
        eapply NoDup_app_remove_r.
        eapply Permutation_NoDup; [apply Permutation_sym, Hp|exact Hnd].
Qed.

Local Abbreviation generation :=
  (MOGA.generation from_node_to_edge_capacity maximum_flow_value fuel
     Missing.fast_non_dominated_sort crowd).

Lemma generation_ranks st i st' :
  ranked_or_current st -> generation st i = Ok st' -> all_ranked st'.
Proof.
  destruct st as [[[m P] h] rng]. intros (HndP & HP & Hhist) E.
  unfold MOGA.generation in E.
  apply bind_ok in E. destruct E as ([[Q h1] rng1] & Em & E).
  apply bind_ok in E. destruct E as ([fronts h2] & Es & E).
  apply bind_ok in E. destruct E as ([P' h3] & Esel & E).
  destruct (length P' =? MOGA.init_pop_size m)%nat; [|discriminate].
  injection E as <-.
  apply mutation_offspring in Em.
  destruct Em as (HndQ & HQ & Hle & Hold).
  assert (HndPQ : NoDup (P ++ Q)).
  { apply NoDup_app; try assumption.
    intros a Ha Hq. apply HP in Ha. apply HQ in Hq. lia. }
  destruct (@missing_sort_spec _ _ _ _ HndPQ Es) as (Hperm & Hrk & Hfr & Hn2).
  destruct (@select_spec m fronts [] h2 P' h3 Esel) as (Hincl & Hnd' & Hrk3 & Hn3).
  simpl in Hincl, Hnd'.
  assert (Hin' : forall r, In r P' -> In r (P ++ Q)).
  { intros r Hr. eapply Permutation_in; [exact Hperm|]. now apply Hincl. }
  assert (Hlt : forall r, In r (P ++ Q) -> (r < Heap.next h3)%nat).
  { intros r Hr. rewrite Hn3, Hn2. apply in_app_iff in Hr.
    destruct Hr as [Hr|Hr]; [apply HP in Hr; lia|apply HQ in Hr; lia]. }
  assert (Hranked : forall pop r,
            In pop (MOGA.population_history m ++ [P']) -> In r pop ->
            (r < Heap.next h3)%nat /\ (1 <= rank_of h3 r)%Z).
  { intros pop r Hpop Hr. unfold rank_of. rewrite Hrk3.
    apply in_app_iff in Hpop. destruct Hpop as [Hpop|[<-|[]]].
    - destruct (Hhist pop r Hpop Hr) as [Hal Hor].
      split; [rewrite Hn3, Hn2; lia|].
      destruct (in_dec ref_eq_dec r (P ++ Q)) as [Hi|Hni];
        [now apply Hrk|].
      destruct Hor as [Hp|Hone];
        [exfalso; apply Hni, in_app_iff; now left|].
      rewrite (Hfr r Hni), (Hold r Hal). exact Hone.
    - split; [now apply Hlt, Hin'|now apply Hrk, Hin']. }
  split; [split; [|split]|].
  - apply Hnd'. eapply Permutation_NoDup;
      [apply Permutation_sym, Hperm|exact HndPQ].
  - intros r Hr. now apply Hlt, Hin'.
  - intros pop r Hpop Hr. destruct (Hranked pop r Hpop Hr). tauto.
  - intros pop r Hpop Hr. now destruct (Hranked pop r Hpop Hr).
Qed.

Lemma all_ranked_current st : all_ranked st -> ranked_or_current st.
Proof. destruct st as [[[m P] h] rng]. now intros [H _]. Qed.

Lemma run_ranks
      (init_pop_size : nat) (p_mutation : float) (n_generations : nat)
      (maintenance_plan : Plan) (parallel : bool)
      (h : Heap) (rng : Random.state)
      (m' : MOGA) (h' : Heap) (rng' : Random.state) :
  MOGA.run from_node_to_edge_capacity maximum_flow_value fuel
    Missing.fast_non_dominated_sort crowd
    (MOGA.init init_pop_size p_mutation n_generations maintenance_plan
               parallel) h rng = Ok (m', h', rng') ->
  forall P r, In P (MOGA.population_history m') -> In r P ->
    (n_generations = 0%nat -> rank_of h' r = 0%Z)
    /\ ((1 <= n_generations)%nat -> (1 <= rank_of h' r)%Z).
Proof.
  intro E. unfold MOGA.run in E.
  apply bind_ok in E. destruct E as ([[P0 h1] rng1] & Einit & E).
  apply bind_ok in E. destruct E as ([[[m1 P1] h2] rng2] & Eloop & E).
  injection E as <- <- <-.
  apply initial_population_fresh in Einit. destruct Einit as [Hnd Hall].
  simpl in Hnd, Hall.
  set (m0 := MOGA.record_population _ P0) in Eloop.
  change (MOGA.n_generations m0) with n_generations in Eloop.
  assert (H0 : ranked_or_current (m0, P0, h1, rng1)).
  { split; [exact Hnd|]. split; [intros r Hr; now apply Hall|].
    intros pop r [<-|[]] Hr. split; [now apply Hall|now left]. }
  intros P r HP Hr. split.
  - intros ->. simpl in Eloop. injection Eloop as <- _ <- _.
    destruct HP as [<-|[]]. now apply Hall.
  - intro Hn. destruct n_generations as [|n]; [lia|].
    cbn [seq foldM] in Eloop. apply bind_ok in Eloop.
    destruct Eloop as (st1 & E1 & Eloop).
    apply (@generation_ranks _ _ _ H0) in E1.
    eapply (@foldM_inv _ _ all_ranked) in Eloop; [| |exact E1].
    + destruct Eloop as [_ Hr1]. eapply Hr1; eauto.
    + intros a b a' _ Ha Eb.
      eapply generation_ranks; [apply all_ranked_current, Ha|exact Eb].
Qed.

End Generations.

(** C8 (as the code has it): after [run] has returned, which takes a plan
    with an [N] that a caller has assigned to it, with the two missing
    methods as the spec describes them, every individual of every stored
    population has rank at least 1 when [n_generations >= 1]: the sort of
    each generation ranks the objects that the stored lists share with the
    population.  With [n_generations = 0] the only stored population is the
    initial one, and all its individuals have rank 0. *)
Theorem stored_ranks
        (from_node_to_edge_capacity : System -> DiGraph -> DiGraph)
        (maximum_flow_value :
           DiGraph -> String.string -> String.string -> float)
        (fuel : nat)
        (init_pop_size : nat) (p_mutation : float) (n_generations : nat)
        (maintenance_plan : Plan) (parallel : bool)
        (h : Heap) (rng : Random.state)
        (m' : MOGA) (h' : Heap) (rng' : Random.state) :
  MOGA.run from_node_to_edge_capacity maximum_flow_value fuel
    Missing.fast_non_dominated_sort Missing._crowding_distance
    (MOGA.init init_pop_size p_mutation n_generations maintenance_plan
               parallel) h rng = Ok (m', h', rng') ->
  forall P r, In P (MOGA.population_history m') -> In r P ->
    (n_generations = 0%nat -> Individual.rank (Heap.get h' r) = 0%Z)
    /\ ((1 <= n_generations)%nat ->
        (1 <= Individual.rank (Heap.get h' r))%Z).
Proof.
  intro E.
  exact (@run_ranks _ _ _ _ missing_crowding_ok _ _ _ _ _ _ _ _ _ _ E).
Qed.

Lemma stored_ranks_witness :
  exists m' h' rng',
    run_two 2 1 = Ok (m', h', rng')
    /\ forall P r, In P (MOGA.population_history m') -> In r P ->
         (1 <= Individual.rank (Heap.get h' r))%Z.
Proof.
  assert (E : exists r, run_two 2 1 = Ok r)
    by (vm_compute; eexists; reflexivity).
  destruct E as [[[m' h'] rng'] E]. exists m', h', rng'.
  split; [exact E|]. intros P r HP Hr.
  exact (proj2 (@stored_ranks _ _ _ 2 0 1 counted_plan false empty_heap
                  mixed_draws m' h' rng' E P r HP Hr)
               (le_n 1)).
Defined.

(** C8, refuted with [n_generations = 0] on [counted_plan], the plan of two
    activities to which the caller has assigned [N = 2]: [run] returns, and
    the stored initial population holds an individual whose rank is 0. *)
Lemma initial_population_unranked :
  match run_two 2 0 with
  | Ok (m', h', _) =>
      exists P r,
        In P (MOGA.population_history m') /\ In r P
        /\ ~ (1 <= Individual.rank (Heap.get h' r))%Z
  | _ => False
  end.
Proof.
  vm_compute. exists [0; 1]%nat, 0%nat.
  split; [now left|]. split; [now left|]. intro F. now apply F.
Qed.

(** ** More about the non-dominated sort *)

(** The invariant at the end of the sort, from its answer. *)
Lemma sort_answer_inv (fuel : nat) (pop : list ref) (h : Heap) fronts h' :
  NoDup pop -> (length pop < fuel)%nat ->
  MOGA._fast_non_dominated_sort fuel pop h = Ok (fronts, h') ->
  sort_inv h pop (filter (no_dominator h pop) pop) (length fronts) fronts []
           h'.
Proof.
  intros Hnd Hfuel E.
  destruct (fast_sort_spec h Hnd Hfuel) as (fronts0 & h0 & E0 & Inv).
  rewrite E in E0. now injection E0 as <- <-.
Qed.

Lemma front_of (fronts : list (list ref)) (r : ref) :
  In r (concat fronts) ->
  exists k f, nth_error fronts k = Some f /\ In r f.
Proof.
  intro Hr. apply in_concat in Hr. destruct Hr as (f & Hf & Hr).
  apply In_nth_error in Hf. destruct Hf as [k Hk]. eauto.
Qed.

Lemma nth_error_snoc (fronts : list (list ref)) k f :
  nth_error fronts k = Some f -> nth_error (fronts ++ [[]]) k = Some f.
Proof.
  intro Hk. rewrite nth_error_app1; [exact Hk|].
  apply nth_error_Some. congruence.
Qed.

(** X1: the first front of the answer is the list of the individuals
    that no individual of the population dominates, in the order of the
    population. *)
Theorem first_front_is_non_dominated
        (fuel : nat) (population : list ref) (h : Heap) fronts h' :
  NoDup population -> (length population < fuel)%nat ->
  MOGA._fast_non_dominated_sort fuel population h = Ok (fronts, h') ->
  hd [] fronts = filter (no_dominator h population) population
  /\ forall r, In r (hd [] fronts) <->
       In r population
       /\ forall q, In q population ->
            MOGA.dominates (Heap.get h q) (Heap.get h r) = false.
Proof.
  intros Hnd Hfuel E. pose proof (@sort_answer_inv _ _ _ _ _ Hnd Hfuel E) as Inv.
  assert (H0 : hd [] fronts = filter (no_dominator h population) population).
  { pose proof (inv_first Inv) as Hf. destruct fronts as [|f fronts];
      simpl in Hf; now injection Hf as <-. }
  split; [exact H0|]. intro r. rewrite H0, filter_In.
  unfold no_dominator. rewrite Nat.eqb_eq, cnt_zero. reflexivity.
Qed.

(** X2: after the sort, the rank of an individual is the number of its
    front, counted from 1. *)
Theorem rank_is_front_number
        (fuel : nat) (population : list ref) (h : Heap) fronts h' :
  NoDup population -> (length population < fuel)%nat ->
  MOGA._fast_non_dominated_sort fuel population h = Ok (fronts, h') ->
  forall k f r,
    nth_error fronts k = Some f -> In r f ->
    Individual.rank (Heap.get h' r) = (Z.of_nat k + 1)%Z.
Proof.
  intros Hnd Hfuel E k f r Hk Hr.
  pose proof (@sort_answer_inv _ _ _ _ _ Hnd Hfuel E) as Inv.
  exact (inv_rank Inv _ _ (nth_error_snoc _ _ Hk) Hr).
Qed.

(** X3: after the sort, an individual that dominates another one of the
    population has a strictly lower rank; so no front holds two individuals
    of which one dominates the other. *)
Theorem dominator_has_lower_rank
        (fuel : nat) (population : list ref) (h : Heap) fronts h' :
  NoDup population -> (length population < fuel)%nat ->
  MOGA._fast_non_dominated_sort fuel population h = Ok (fronts, h') ->
  forall p q,
    In p population -> In q population ->
    MOGA.dominates (Heap.get h p) (Heap.get h q) = true ->
    (1 <= Individual.rank (Heap.get h' p)
     < Individual.rank (Heap.get h' q))%Z.
Proof.
  intros Hnd Hfuel E p q Hp Hq Hpq.
  pose proof (@sort_answer_inv _ _ _ _ _ Hnd Hfuel E) as Inv.
  destruct (front_of _ _ (inv_complete Inv q Hq)) as (k & f & Hk & Hqf).
  pose proof (@inv_before _ _ _ _ _ _ _ Inv k f q p
                (nth_error_snoc _ _ Hk) Hqf Hp Hpq) as Hb.
  destruct (front_of _ _ Hb) as (k' & f' & Hk' & Hpf).
  rewrite nth_error_firstn in Hk'.
  destruct (Nat.ltb_spec k' k) as [Hlt|]; [|discriminate].
  pose proof (inv_rank Inv _ _ (nth_error_snoc _ _ Hk) Hqf) as Rq.
  pose proof (inv_rank Inv _ _ (nth_error_snoc _ _ Hk') Hpf) as Rp.
  unfold rank_of in Rq, Rp. lia.
Qed.

Lemma cnt_pos {A} (f : A -> bool) (l : list A) :
  (0 < cnt f l)%nat -> exists x, In x l /\ f x = true.
Proof.
  unfold cnt. induction l as [|a l IH]; simpl; [lia|].
  destruct (f a) eqn:E; [intros _; exists a; auto|].
  intro H. destruct (IH H) as (x & Hx & Hf). exists x. auto.
Qed.

Lemma next_front_dominated (hb : Heap) (pop f0 : list ref) (i : nat)
      (done : list (list ref)) (cur : list ref) (h : Heap) :
  NoDup pop -> sort_inv hb pop f0 i done cur h ->
  forall q, In q (snd (MOGA.next_front i h cur)) ->
    exists p, In p cur /\ dom hb p q = true.
Proof.
  intros Hnd Inv q Hq. unfold MOGA.next_front in Hq.
  rewrite next_front_flat in Hq.
  assert (Hdecs : concat (map (dominated_of h) cur)
                  = concat (map (fun p => filter (dom hb p) pop) cur)).
  { f_equal. apply map_ext_in. intros a Ha.
    apply (inv_dominated Inv), (inv_incl Inv), in_app_iff. now right. }
  rewrite Hdecs in Hq.
  destruct (release_fold i
              (concat (map (fun p => filter (dom hb p) pop) cur)) h [])
    as (_ & _ & _ & (Qn & HQ & _ & HinQ & _) & _).
  rewrite HQ in Hq. simpl in Hq. apply HinQ in Hq.
  rewrite count_occ_dominated in Hq by exact Hnd.
  destruct (memb q pop); [|simpl in Hq; lia].
  apply cnt_pos. lia.
Qed.

Lemma peel_tight (hb : Heap) (pop f0 : list ref) :
  NoDup pop ->
  forall fuel i done cur h fronts h',
    sort_inv hb pop f0 i done cur h ->
    tight hb (done ++ [cur]) ->
    MOGA.peel fuel i (done ++ [cur]) h = Ok (fronts, h') ->
    tight hb fronts.
Proof.
  intro Hnd. induction fuel as [|fuel IH];
    intros i done cur h fronts h' Inv Ht E;
    assert (Hnth : nth_error (done ++ [cur]) i = Some cur)
      by (rewrite nth_error_app2 by (rewrite (inv_len Inv); lia);
          rewrite (inv_len Inv), Nat.sub_diag; reflexivity);
    cbn [MOGA.peel] in E; rewrite Hnth in E;
    destruct cur as [|c cur]; try discriminate;
    try (injection E as <- _; exact Ht).
  assert (Hcur : c :: cur <> []) by discriminate.
  pose proof (next_front_inv Hnd Inv Hcur) as Inv'. cbn zeta in Inv'.
  pose proof (next_front_dominated Hnd Inv) as Hdom.
  refine (IH _ _ _ _ _ _ Inv' _ E).
  intros k f q Hk Hq.
  destruct (Nat.lt_ge_cases (S k) (length (done ++ [c :: cur])))
    as [Hlt|Hge].
  - rewrite nth_error_app1 in Hk by exact Hlt.
    destruct (Ht k f q Hk Hq) as (fk & p & Hfk & Hp & Hd).
    exists fk, p. split; [|auto].
    rewrite nth_error_app1 by lia. exact Hfk.
  - rewrite nth_error_app2 in Hk by exact Hge.
    assert (Hlen : length (done ++ [c :: cur]) = S i)
      by (rewrite length_app, (inv_len Inv); simpl; lia).
    rewrite Hlen in Hk, Hge.
    destruct (Nat.eq_dec k i) as [->|Hne].
    + rewrite Nat.sub_diag in Hk. simpl in Hk. injection Hk as <-.
      destruct (Hdom q Hq) as (p & Hp & Hd).
      exists (c :: cur), p. split; [|auto].
      rewrite nth_error_app1 by lia. exact Hnth.
    + replace (S k - S i)%nat with (S (k - S i)) in Hk by lia.
      simpl in Hk. destruct (k - S i)%nat; discriminate.
Qed.

(** X5: every individual of a front other than the first is dominated by
    an individual of the front just before: no individual could stand in
    an earlier front than it does. *)
Theorem later_front_has_dominator_in_previous
        (fuel : nat) (population : list ref) (h : Heap) fronts h' :
  NoDup population -> (length population < fuel)%nat ->
  MOGA._fast_non_dominated_sort fuel population h = Ok (fronts, h') ->
  forall k f q,
    nth_error fronts (S k) = Some f -> In q f ->
    exists fk p,
      nth_error fronts k = Some fk /\ In p fk
      /\ MOGA.dominates (Heap.get h p) (Heap.get h q) = true.
Proof.
  intros Hnd Hfuel E. unfold MOGA._fast_non_dominated_sort in E.
  destruct (first_loops_inv h Hnd) as [Hf0 Inv]. cbn zeta in Hf0, Inv.
  set (st := fold_left (MOGA.first_front population) population
                       (fold_left MOGA.clean population h, [])) in *.
  rewrite Hf0 in Inv at 1.
  destruct (@peel_spec h population _ Hnd fuel 0 [] (snd st) (fst st) Inv)
    as (fronts0 & h0 & Hpeel & _); [simpl; lia|].
  assert (Ht : tight h fronts0 -> tight h fronts).
  { simpl in Hpeel. rewrite Hpeel in E. cbn [bind] in E.
    rewrite last_last, removelast_last in E. now injection E as <- _. }
  assert (Ht0 : tight h (fronts0 ++ [[]])).
  { refine (@peel_tight h population _ Hnd fuel 0 [] (snd st) (fst st)
              _ _ Inv _ Hpeel).
    intros k f q Hk. destruct k; discriminate. }
  intros k f q Hk Hq. refine (Ht _ k f q Hk Hq).
  intros k0 f1 q0 Hk0 Hq0.
  destruct (Ht0 k0 f1 q0 (nth_error_snoc _ _ Hk0) Hq0)
    as (fk & p & Hfk & Hp & Hd).
  exists fk, p. split; [|auto].
  rewrite nth_error_app1 in Hfk; [exact Hfk|].
  assert (S k0 < length fronts0)%nat by (apply nth_error_Some; congruence).
  lia.
Qed.

Lemma keeps_core_refl h : keeps_core h h.
Proof. intro r. repeat split. Qed.

Lemma keeps_core_trans h1 h2 h3 :
  keeps_core h1 h2 -> keeps_core h2 h3 -> keeps_core h1 h3.
Proof.
  intros H12 H23 r. destruct (H12 r) as (A & B & C & D & F).
  destruct (H23 r) as (A' & B' & C' & D' & F').
  repeat split; congruence.
Qed.

Lemma keeps_core_modify h r (f : Individual -> Individual) :
  (forall o, same_core o (f o)) -> keeps_core h (Heap.modify h r f).
Proof.
  intros Hf r'. rewrite get_modify. destruct (Nat.eqb r' r) eqn:E.
  - apply Nat.eqb_eq in E. subst. apply Hf.
  - repeat split.
Qed.

Lemma keeps_core_fold {B} (f : Heap -> B -> Heap) (l : list B) h :
  (forall a b, keeps_core a (f a b)) -> keeps_core h (fold_left f l h).
Proof.
  intro Hf. apply (fold_left_keeps (keeps_core h));
    [|apply keeps_core_refl].
  intros a b Ha. eapply keeps_core_trans; [exact Ha|apply Hf].
Qed.

Lemma keeps_core_fold_fst {B} (f : Heap * list ref -> B -> Heap * list ref)
      (l : list B) st :
  (forall a b, keeps_core (fst a) (fst (f a b))) ->
  keeps_core (fst st) (fst (fold_left f l st)).
Proof.
  intro Hf.
  apply (fold_left_keeps
           (fun a : Heap * list ref => keeps_core (fst st) (fst a)));
    [|apply keeps_core_refl].
  intros a b Ha. eapply keeps_core_trans; [exact Ha|apply Hf].
Qed.

Lemma clean_core h a : keeps_core h (MOGA.clean h a).
Proof.
  unfold MOGA.clean.
  eapply keeps_core_trans; [eapply keeps_core_trans|];
    apply keeps_core_modify; intro o; repeat split.
Qed.

Lemma compare_core p h q : keeps_core h (MOGA.compare p h q).
Proof.
  unfold MOGA.compare. destruct (MOGA.dominates _ _);
    [apply keeps_core_modify; intro o; repeat split|].
  destruct (MOGA.dominated_by _ _);
    [apply keeps_core_modify; intro o; repeat split|apply keeps_core_refl].
Qed.

Lemma first_front_core pop st p :
  keeps_core (fst st) (fst (MOGA.first_front pop st p)).
Proof.
  unfold MOGA.first_front.
  assert (E : keeps_core (fst st)
                (fold_left (MOGA.compare p) pop (fst st)))
    by (apply keeps_core_fold; intros; apply compare_core).
  destruct (_ =? 0)%Z; simpl; [|exact E].
  eapply keeps_core_trans; [exact E|].
  apply keeps_core_modify. intro o. repeat split.
Qed.

Lemma release_core i st q :
  keeps_core (fst st) (fst (MOGA.release i st q)).
Proof.
  unfold MOGA.release.
  assert (E : keeps_core (fst st)
                (Heap.modify (fst st) q
                   (fun o => Individual.set_dominatorCounter
                               (Individual.dominatorCounter o - 1)%Z o)))
    by (apply keeps_core_modify; intro o; repeat split).
  destruct (_ =? 0)%Z; simpl; [|exact E].
  eapply keeps_core_trans; [exact E|].
  apply keeps_core_modify. intro o. repeat split.
Qed.

Lemma next_front_core i h front :
  keeps_core h (fst (MOGA.next_front i h front)).
Proof.
  unfold MOGA.next_front.
  apply (@keeps_core_fold_fst _ _ front (h, [])).
  intros a p. apply keeps_core_fold_fst. intros; apply release_core.
Qed.

Lemma peel_core (fuel : nat) : forall i frontiers h fronts h',
  MOGA.peel fuel i frontiers h = Ok (fronts, h') -> keeps_core h h'.
Proof.
  induction fuel as [|fuel IH]; intros i frontiers h fronts h' E;
    simpl in E; destruct (nth_error frontiers i) as [[|c cur]|];
    try discriminate;
    try (injection E as _ <-; apply keeps_core_refl).
  apply IH in E. eapply keeps_core_trans; [|exact E].
  apply next_front_core.
Qed.

Lemma sort_core fuel pop h fronts h' :
  MOGA._fast_non_dominated_sort fuel pop h = Ok (fronts, h') ->
  keeps_core h h'.
Proof.
  unfold MOGA._fast_non_dominated_sort. intro E.
  apply bind_ok in E. destruct E as ([fr h1] & Ep & E).
  apply peel_core in Ep.
  assert (E1 : h' = h1)
    by (destruct (last fr [0%nat]); now injection E as _ <-).
  subst h'. eapply keeps_core_trans; [|exact Ep].
  apply keeps_core_trans with (fold_left MOGA.clean pop h);
    [apply keeps_core_fold; intros; apply clean_core|].
  apply (@keeps_core_fold_fst _ _ pop (fold_left MOGA.clean pop h, [])).
  intros; apply first_front_core.
Qed.

(** X4: the sort allocates nothing, and changes neither the plan, nor
    the score, nor the crowding distance of any object; the objects outside
    the population are not written at all. *)
Theorem sort_writes_bookkeeping_only
        (fuel : nat) (population : list ref) (h : Heap) fronts h' :
  MOGA._fast_non_dominated_sort fuel population h = Ok (fronts, h') ->
  Heap.next h' = Heap.next h
  /\ (forall r,
        Individual.plan (Heap.get h' r) = Individual.plan (Heap.get h r)
        /\ Individual.score (Heap.get h' r)
           = Individual.score (Heap.get h r)
        /\ Individual.crowding_distance (Heap.get h' r)
           = Individual.crowding_distance (Heap.get h r))
  /\ (NoDup population -> (length population < fuel)%nat ->
      forall r, ~ In r population -> Heap.get h' r = Heap.get h r).
Proof.
  intro E. split; [exact (sort_next _ _ _ E)|]. split.
  - intro r. destruct (sort_core _ _ _ E r) as (A & B & C & _). auto.
  - intros Hnd Hfuel.
    exact (inv_frame (@sort_answer_inv _ _ _ _ _ Hnd Hfuel E)).
Qed.

Lemma three_distinct : NoDup [0; 1; 2]%nat.
Proof. repeat constructor; simpl; intuition discriminate. Qed.

Lemma three_sorted :
  exists fronts h',
    MOGA._fast_non_dominated_sort 4 [0; 1; 2]%nat three_scores
    = Ok (fronts, h').
Proof. vm_compute. eexists _, _. reflexivity. Qed.

Lemma first_front_is_non_dominated_witness :
  exists fronts h',
    MOGA._fast_non_dominated_sort 4 [0; 1; 2]%nat three_scores
    = Ok (fronts, h')
    /\ hd [] fronts
       = filter (no_dominator three_scores [0; 1; 2]%nat) [0; 1; 2]%nat.
Proof.
  destruct three_sorted as (fronts & h' & E). exists fronts, h'.
  split; [exact E|].
  exact (proj1 (@first_front_is_non_dominated 4 _ _ _ _ three_distinct
                  (le_n 4) E)).
Defined.

Lemma rank_is_front_number_witness :
  exists fronts h',
    MOGA._fast_non_dominated_sort 4 [0; 1; 2]%nat three_scores
    = Ok (fronts, h')
    /\ forall k f r, nth_error fronts k = Some f -> In r f ->
         Individual.rank (Heap.get h' r) = (Z.of_nat k + 1)%Z.
Proof.
  destruct three_sorted as (fronts & h' & E). exists fronts, h'.
  split; [exact E|].
  exact (@rank_is_front_number 4 _ _ _ _ three_distinct (le_n 4) E).
Defined.

Lemma dominator_has_lower_rank_witness :
  exists fronts h',
    MOGA._fast_non_dominated_sort 4 [0; 1; 2]%nat three_scores
    = Ok (fronts, h')
    /\ (1 <= Individual.rank (Heap.get h' 0%nat)
         < Individual.rank (Heap.get h' 2%nat))%Z.
Proof.
  destruct three_sorted as (fronts & h' & E). exists fronts, h'.
  split; [exact E|].
  refine (@dominator_has_lower_rank 4 _ _ _ _ three_distinct (le_n 4) E
            0%nat 2%nat _ _ _).
  - now left.
  - now right; right; left.
  - reflexivity.
Defined.

Lemma later_front_has_dominator_in_previous_witness :
  exists fronts h',
    MOGA._fast_non_dominated_sort 4 [0; 1; 2]%nat three_scores
    = Ok (fronts, h')
    /\ forall k f q, nth_error fronts (S k) = Some f -> In q f ->
         exists fk p,
           nth_error fronts k = Some fk /\ In p fk
           /\ MOGA.dominates (Heap.get three_scores p)
                (Heap.get three_scores q) = true.
Proof.
  destruct three_sorted as (fronts & h' & E). exists fronts, h'.
  split; [exact E|].
  exact (@later_front_has_dominator_in_previous 4 _ _ _ _ three_distinct
           (le_n 4) E).
Defined.

Lemma sort_writes_bookkeeping_only_witness :
  exists fronts h',
    MOGA._fast_non_dominated_sort 4 [0; 1; 2]%nat three_scores
    = Ok (fronts, h')
    /\ Heap.next h' = Heap.next three_scores.
Proof.
  destruct three_sorted as (fronts & h' & E). exists fronts, h'.
  split; [exact E|].
  exact (proj1 (@sort_writes_bookkeeping_only 4 _ _ _ _ E)).
Defined.

(** ** The penalty of an activity *)

Lemma expectedCost_compat (a : Activity) (x y : float) :
  x == y -> Activity.expectedCost a x = Activity.expectedCost a y.
Proof.
  intros E. unfold Activity.expectedCost, Float.div.
  destruct (Qeq_bool (Component.alpha (Activity.component a)) 0);
    [reflexivity|].
  assert (Qred (x / Component.alpha (Activity.component a))
          = Qred (y / Component.alpha (Activity.component a))) as ->.
  { apply Qred_complete. rewrite E. reflexivity. }
  reflexivity.
Qed.

(** X6: an activity that is not deferred pays no penalty: [h(0)] is 0
    whenever the expected cost at the optimal age [x_star] can be computed,
    and raises what that computation raises otherwise. *)
Theorem no_deferral_no_penalty (a : Activity) :
  Activity.h a 0
  = (c <- Activity.expectedCost a (Component.x_star (Activity.component a)) ;;
     Ok 0).
Proof.
  assert (E : Activity.expectedCost a
                (Float.add (Component.x_star (Activity.component a)) 0)
              = Activity.expectedCost a
                  (Component.x_star (Activity.component a))).
  { apply expectedCost_compat. rewrite add_correct. ring. }
  unfold Activity.h. rewrite E.
  destruct (Activity.expectedCost a
              (Component.x_star (Activity.component a))) as [c| |];
    cbn [bind]; [|reflexivity..].
  f_equal. unfold Float.sub, Float.mul. apply Qred_zero.
  rewrite (Qred_correct (c - c)), (Qred_correct (0 * _)). ring.
Qed.

(** ** More about the feasibility of a group *)

Lemma window_start_val a :
  Group.window_start a
  == Activity.t a - Component.x_star (Activity.component a).
Proof. apply sub_correct. Qed.

Lemma window_end_val a :
  Group.window_end a
  == Activity.t a + Component.x_star (Activity.component a).
Proof. apply add_correct. Qed.

Lemma start_le a (x : Q) :
  Group.window_start a <= x
  <-> Activity.t a - Component.x_star (Activity.component a) <= x.
Proof.
  split; intro H.
  - apply Qle_trans with (Group.window_start a); [|exact H].
    apply Qeq_le, Qeq_sym, window_start_val.
  - apply Qle_trans with (2 := H). apply Qeq_le, window_start_val.
Qed.

Lemma le_end a (x : Q) :
  x <= Group.window_end a
  <-> x <= Activity.t a + Component.x_star (Activity.component a).
Proof.
  split; intro H.
  - apply Qle_trans with (1 := H). apply Qeq_le, window_end_val.
  - apply Qle_trans with (1 := H). apply Qeq_le, Qeq_sym, window_end_val.
Qed.

(** On a group with a member, [is_feasible] compares every window end
    with the greatest window start. *)
Lemma is_feasible_max (a0 : Activity) (l : list Activity) (sz : nat) ic :
  exists m,
    In m (map Group.window_start (a0 :: l))
    /\ (forall a, In a (a0 :: l) -> Group.window_start a <= m)
    /\ forall b, Group.is_feasible (Group.mk (a0 :: l) sz ic) = Ok b <->
         (b = true <-> forall a, In a (a0 :: l) -> m <= Group.window_end a).
Proof.
  destruct (fold_max_spec (map Group.window_start l)
                          (Group.window_start a0)) as [Hin Hmax].
  set (m := fold_left _ (map Group.window_start l) _) in *.
  exists m. split; [exact Hin|]. split.
  { intros a Ha. apply Hmax. exact (in_map Group.window_start _ _ Ha). }
  intro b. unfold Group.is_feasible. cbn [Group.activities map Float.max bind].
  fold m. pose proof (fold_flag_true m (a0 :: l) true) as HF.
  set (r := fold_left _ (a0 :: l) true) in *.
  split.
  - intro E. injection E as <-. rewrite HF. tauto.
  - intro Hb. f_equal. destruct r, b; try reflexivity.
    + symmetry. apply Hb. apply HF. reflexivity.
    + apply HF. split; [reflexivity|]. now apply Hb.
Qed.

(** X7: [is_feasible] answers [True] exactly when the group has a member
    and some date lies in the window [[t - x_star, t + x_star]] of every
    member, that is when the windows meet two by two; and it raises, a
    [ValueError], exactly on a group without member. *)
Theorem feasible_iff_common_date (g : Group) :
  (Group.is_feasible g = Ok true <->
   Group.activities g <> []
   /\ exists x : Q, forall a, In a (Group.activities g) ->
        Activity.t a - Component.x_star (Activity.component a) <= x
        /\ x <= Activity.t a + Component.x_star (Activity.component a))
  /\ (Group.is_feasible g = Ok true <->
      Group.activities g <> []
      /\ forall a b, In a (Group.activities g) -> In b (Group.activities g) ->
           Activity.t a - Component.x_star (Activity.component a)
           <= Activity.t b + Component.x_star (Activity.component b))
  /\ forall e, Group.is_feasible g = Raise e <->
       Group.activities g = [] /\ e = ValueError.
Proof.
  destruct g as [acts sz ic]. cbn [Group.activities].
  destruct acts as [|a0 l].
  - unfold Group.is_feasible. cbn. split; [|split].
    + split; [discriminate | intros [F _]; now elim F].
    + split; [discriminate | intros [F _]; now elim F].
    + intro e. split.
      * intro E. injection E as <-. now split.
      * intros [_ ->]. reflexivity.
  - destruct (is_feasible_max a0 l sz ic) as (m & Hin & Hmax & Hb).
    specialize (Hb true).
    assert (P : Group.is_feasible (Group.mk (a0 :: l) sz ic) = Ok true <->
                forall a b, In a (a0 :: l) -> In b (a0 :: l) ->
                  Activity.t a - Component.x_star (Activity.component a)
                  <= Activity.t b + Component.x_star (Activity.component b)).
    { rewrite Hb. split.
      - intros [H _] a b Ha Hb'. specialize (H eq_refl).
        apply Qle_trans with m.
        + apply start_le. now apply Hmax.
        + apply le_end. now apply H.
      - intro H. split; [|reflexivity]. intros _ a Ha.
        apply in_map_iff in Hin. destruct Hin as (b & <- & Hb').
        apply le_end, start_le. now apply H. }
    split; [|split].
    + split.
      * intro E. split; [discriminate|].
        exists m. intros a Ha. split.
        -- apply start_le. now apply Hmax.
        -- apply le_end. apply Hb; [exact E|reflexivity|exact Ha].
      * intros [_ (x & Hx)]. apply P. intros a b Ha Hb'.
        apply Qle_trans with x; [apply (Hx a Ha) | apply (Hx b Hb')].
    + rewrite P. split; [intro H; split; [discriminate|exact H] | tauto].
    + intro e. split; [|intros [F _]; discriminate].
      unfold Group.is_feasible. cbn. discriminate.
Qed.

(** ** Groups of components of shape 1 *)

Lemma mapM_ok_or_raise {A B} (f : A -> result B) (l : list A) (e : exn) :
  (forall a, In a l -> (exists b, f a = Ok b) \/ f a = Raise e) ->
  (exists bs, mapM f l = Ok bs /\ Forall2 (fun a b => f a = Ok b) l bs)
  \/ mapM f l = Raise e.
Proof.
  induction l as [|a l IH]; intro H; cbn.
  - left. exists []. split; [reflexivity|constructor].
  - destruct (H a (or_introl eq_refl)) as [(b & Eb)|Eb]; rewrite Eb; cbn;
      [|now right].
    destruct IH as [(bs & Ebs & HF)|Ebs].
    + intros a' Ha'. apply H. now right.
    + rewrite Ebs. cbn. left. exists (b :: bs). split; [reflexivity|].
      now constructor.
    + rewrite Ebs. now right.
Qed.

Lemma pow_ok_or_raise (x : float) (n : Z) :
  (exists y, Float.pow x n = Ok y) \/ Float.pow x n = Raise ZeroDivisionError.
Proof.
  unfold Float.pow. destruct (Qeq_bool x 0 && (n <? 0)%Z); eauto.
Qed.

Lemma dh_ok_or_raise (a : Activity) (x : float) :
  (exists y, Activity.dh a x = Ok y)
  \/ Activity.dh a x = Raise ZeroDivisionError.
Proof.
  unfold Activity.dh. cbv zeta.
  destruct (pow_ok_or_raise (Component.alpha (Activity.component a))
              (- Component.beta (Activity.component a))) as [(y & ->)| ->];
    cbn [bind]; [|now right].
  destruct (pow_ok_or_raise
              (Float.add (Component.x_star (Activity.component a)) x)
              (Component.beta (Activity.component a) - 1)) as [(z & ->)| ->];
    cbn [bind]; eauto.
Qed.

(** With [beta = 1] the second derivative has the factor [beta - 1]. *)
Lemma ddh_exponential (a : Activity) (x : float) :
  Component.beta (Activity.component a) = 1%Z ->
  Activity.ddh a x = Ok 0 \/ Activity.ddh a x = Raise ZeroDivisionError.
Proof.
  intro Hb. unfold Activity.ddh. cbv zeta. rewrite Hb.
  destruct (pow_ok_or_raise (Component.alpha (Activity.component a)) (- (1)))
    as [(y & ->)| ->]; cbn [bind]; [|now right].
  destruct (pow_ok_or_raise
              (Float.add (Component.x_star (Activity.component a)) x)
              (1 - 2)) as [(z & ->)| ->]; cbn [bind]; [|now right].
  left. f_equal. unfold Float.mul. apply Qred_zero.
  rewrite (Qred_correct (Qred _ * Float.of_Z (1 - 1))).
  unfold Float.of_Z. cbn. ring.
Qed.

Lemma sum_zeros (l : list float) :
  Forall (fun y => y = 0) l -> Float.sum l = 0.
Proof.
  unfold Float.sum. induction 1 as [|y l -> _ IH]; [reflexivity|].
  cbn. exact IH.
Qed.

Lemma ddH_exponential (g : Group) (x : float) :
  (forall a, In a (Group.activities g) ->
     Component.beta (Activity.component a) = 1%Z) ->
  Group.ddH g x = Ok 0 \/ Group.ddH g x = Raise ZeroDivisionError.
Proof.
  intro Hb. unfold Group.ddH, Group.sum_over.
  destruct (@mapM_ok_or_raise _ _
              (fun a => Activity.ddh a (Float.sub x (Activity.t a)))
              (Group.activities g) ZeroDivisionError) as [(bs & -> & HF)| ->].
  - intros a Ha. destruct (ddh_exponential a (Float.sub x (Activity.t a))
                             (Hb a Ha)); eauto.
  - left. cbn. f_equal. apply sum_zeros.
    induction HF as [|a b l bs Eb HF IH]; constructor.
    + destruct (ddh_exponential a (Float.sub x (Activity.t a)))
        as [E|E]; [apply Hb; now left| |]; congruence.
    + apply IH. intros; apply Hb; now right.
  - now right.
Qed.

Lemma dH_ok_or_raise (g : Group) (x : float) :
  (exists y, Group.dH g x = Ok y) \/ Group.dH g x = Raise ZeroDivisionError.
Proof.
  unfold Group.dH, Group.sum_over.
  destruct (@mapM_ok_or_raise _ _
              (fun a => Activity.dh a (Float.sub x (Activity.t a)))
              (Group.activities g) ZeroDivisionError) as [(bs & -> & HF)| ->].
  - intros a _. apply dh_ok_or_raise.
  - left. cbn. eauto.
  - now right.
Qed.

(** X8: a group whose components all have the shape [beta = 1] cannot be
    minimized: the second derivative is null wherever it is defined, and
    [minimize], which always takes a first Newton step, raises
    [ZeroDivisionError]. *)
Theorem minimize_fails_on_shape_one (fuel : nat) (g : Group) :
  (forall a, In a (Group.activities g) ->
     Component.beta (Activity.component a) = 1%Z) ->
  Group.minimize (S fuel) g = Raise ZeroDivisionError.
Proof.
  intro Hb. unfold Group.minimize, Group.mean, Float.div at 1.
  destruct (Qeq_bool (Float.of_Z (Z.of_nat (Group.size g))) 0);
    [reflexivity|].
  cbn [bind Group.newton].
  assert (Float.gtb Group.diff0 Group.tolerance = true) as -> by reflexivity.
  set (x0 := Qred _). change (Group.last1 [x0]) with x0.
  destruct (dH_ok_or_raise g x0) as [(num & ->)| ->]; [|reflexivity].
  cbn [bind].
  destruct (ddH_exponential g x0 Hb) as [-> | ->]; reflexivity.
Qed.

Lemma minimize_fails_on_shape_one_witness :
  Group.minimize 1 exponential_group = Raise ZeroDivisionError.
Proof.
  apply (@minimize_fails_on_shape_one 0 exponential_group).
  intros a [<-|[]]. reflexivity.
Defined.

(** ** The history of a plan *)

Lemma insert_perm e l : Permutation (Plan.insert e l) (e :: l).
Proof.
  induction l as [|e' l IH]; cbn; [reflexivity|].
  destruct (Float.ltb _ _); [reflexivity|].
  rewrite IH. apply perm_swap.
Qed.

Lemma sort_perm_gen l : forall acc,
  Permutation (fold_left (fun acc e => Plan.insert e acc) l acc) (l ++ acc).
Proof.
  induction l as [|e l IH]; intro acc; cbn; [reflexivity|].
  rewrite IH, insert_perm. symmetry. apply Permutation_middle.
Qed.

Lemma event_sort_perm l : Permutation (Plan.sort l) l.
Proof. unfold Plan.sort. rewrite sort_perm_gen. now rewrite app_nil_r. Qed.

Lemma insert_sorted e l :
  StronglySorted Qle (map Plan.date l) ->
  StronglySorted Qle (map Plan.date (Plan.insert e l)).
Proof.
  induction l as [|e' l IH]; cbn; intro H.
  - constructor; constructor.
  - inversion H as [|x xs Hs Hall]; subst.
    destruct (Float.ltb (Plan.date e) (Plan.date e')) eqn:E.
    + cbn. constructor; [exact H|].
      apply ltb_lt in E. constructor; [now apply Qlt_le_weak|].
      rewrite Forall_forall in *. intros y Hy.
      apply Qle_trans with (Plan.date e'); [now apply Qlt_le_weak|].
      now apply Hall.
    + cbn. apply ltb_ge in E. constructor; [now apply IH|].
      rewrite Forall_forall in *. intros y Hy.
      assert (Hy' : In y (map Plan.date (e :: l))).
      { apply (Permutation_in y (Permutation_map Plan.date (insert_perm e l))).
        exact Hy. }
      destruct Hy' as [<-|Hy']; [exact E | now apply Hall].
Qed.

Lemma event_sort_sorted l : StronglySorted Qle (map Plan.date (Plan.sort l)).
Proof.
  unfold Plan.sort.
  assert (G : forall acc, StronglySorted Qle (map Plan.date acc) ->
            StronglySorted Qle
              (map Plan.date (fold_left (fun acc e => Plan.insert e acc) l acc))).
  { induction l as [|e l IH]; intros acc H; cbn; [exact H|].
    apply IH, insert_sorted, H. }
  apply G. constructor.
Qed.

Lemma structure_history_dates acts sys :
  map Plan.date (Plan.generate_structure_history acts sys)
  = map Plan.date
      (Plan.sort
         ((map (fun a => Plan.mkEvent (Activity.t a) None None) acts
           ++ map (fun a => Plan.mkEvent (Float.add (Activity.t a) (Activity.d a))
                              None None) acts)
          ++ [Plan.mkEvent 0 None None])).
Proof.
  unfold Plan.generate_structure_history. rewrite map_map. reflexivity.
Qed.

Lemma history_dates_perm acts sys :
  Permutation (map Plan.date (Plan.generate_structure_history acts sys))
              (event_dates acts).
Proof.
  rewrite structure_history_dates.
  rewrite (Permutation_map Plan.date (event_sort_perm _)).
  unfold event_dates. rewrite !map_app, !map_map, <- app_assoc.
  reflexivity.
Qed.

Lemma history_dates_sorted acts sys :
  StronglySorted Qle
    (map Plan.date (Plan.generate_structure_history acts sys)).
Proof. rewrite structure_history_dates. apply event_sort_sorted. Qed.

(** X9: the history of a plan of [n] activities has [2 n + 1] events; their
    dates are the starts and the ends of the activities and the date 0, in
    ascending order. *)
Theorem structure_history_is_sorted (acts : list Activity) (sys : System) :
  length (Plan.generate_structure_history acts sys)
  = (2 * length acts + 1)%nat
  /\ Permutation (map Plan.date (Plan.generate_structure_history acts sys))
                 (event_dates acts)
  /\ StronglySorted Qle
       (map Plan.date (Plan.generate_structure_history acts sys)).
Proof.
  split; [|split; [apply history_dates_perm | apply history_dates_sorted]].
  rewrite <- (length_map Plan.date).
  rewrite (Permutation_length (history_dates_perm acts sys)).
  unfold event_dates. rewrite !length_app, !length_map. cbn. lia.
Qed.

Lemma under_way_test (a : Activity) (date : float) :
  Float.gtb (Float.add (Activity.t a) (Activity.d a)) date
  && Float.leb (Activity.t a) date = true
  <-> under_way a date.
Proof.
  unfold under_way, Float.gtb.
  rewrite andb_true_iff, ltb_lt, leb_le. split.
  - intros [H1 H2]. split; [exact H2|].
    apply Qlt_le_trans with (1 := H1). apply Qeq_le, add_correct.
  - intros [H1 H2]. split; [|exact H1].
    apply Qlt_le_trans with (1 := H2). apply Qeq_le, Qeq_sym, add_correct.
Qed.

Lemma non_active_idle (acts : list Activity) (date : float) (n : DiGraph.Node) :
  Plan.non_active (Plan.node_ids acts date) n = false <-> idle acts date n.
Proof.
  destruct n as [s|c]; cbn; [tauto|].
  destruct (in_dec Nat.eq_dec (Component.idx c) (Plan.node_ids acts date))
    as [Hin|Hout].
  - split; [discriminate|]. intro H. exfalso.
    unfold Plan.node_ids in Hin. apply in_map_iff in Hin.
    destruct Hin as (a & Ea & Ha). apply filter_In in Ha.
    destruct Ha as [Ha Hc]. apply under_way_test in Hc.
    exact (H a Ha Ea Hc).
  - split; [|reflexivity]. intros _ a Ha Ea Hu. apply Hout.
    unfold Plan.node_ids. apply in_map_iff. exists a. split; [exact Ea|].
    apply filter_In. split; [exact Ha|]. now apply under_way_test.
Qed.

Lemma mem_In (n : DiGraph.Node) (ns : list DiGraph.Node) :
  DiGraph.mem n ns = true <-> In n ns.
Proof.
  unfold DiGraph.mem. destruct (in_dec DiGraph.Node_eq_dec n ns);
    split; try tauto; discriminate.
Qed.

Lemma structure_history_event acts sys e :
  In e (Plan.generate_structure_history acts sys) ->
  Plan.ev_structure e
  = Some (DiGraph.remove_nodes_from (System.structure sys)
            (filter (Plan.non_active (Plan.node_ids acts (Plan.date e)))
                    (DiGraph.nodes (System.structure sys)))).
Proof.
  intro He. unfold Plan.generate_structure_history in He.
  apply in_map_iff in He. destruct He as (e0 & <- & _). reflexivity.
Qed.

(** X10: every event of the history carries a configuration of the system;
    its nodes are the nodes of the system on which no activity is under way
    at the date of the event ([t <= date < t + d], for an activity on a
    component with the [idx] of the node); the string nodes are never
    removed. *)
Theorem configuration_nodes (acts : list Activity) (sys : System)
        (e : Plan.Event) :
  In e (Plan.generate_structure_history acts sys) ->
  In (Plan.date e) (event_dates acts)
  /\ exists g,
      Plan.ev_structure e = Some g
      /\ forall n, In n (DiGraph.nodes g) <->
           In n (DiGraph.nodes (System.structure sys))
           /\ idle acts (Plan.date e) n.
Proof.
  intro He. split.
  { apply (Permutation_in _ (history_dates_perm acts sys)).
    now apply in_map. }
  pose proof (structure_history_event acts sys e He) as E.
  eexists. split; [exact E|]. intro n.
  unfold DiGraph.remove_nodes_from. cbn [DiGraph.nodes].
  rewrite filter_In, negb_true_iff. split.
  - intros [Hn Hm]. split; [exact Hn|].
    apply non_active_idle.
    destruct (Plan.non_active (Plan.node_ids acts (Plan.date e)) n) eqn:Ena;
      [|reflexivity].
    assert (F : DiGraph.mem n
                  (filter (Plan.non_active (Plan.node_ids acts (Plan.date e)))
                          (DiGraph.nodes (System.structure sys))) = true).
    { apply mem_In, filter_In. now split. }
    rewrite F in Hm. discriminate.
  - intros [Hn Hi]. split; [exact Hn|].
    apply non_active_idle in Hi.
    destruct (DiGraph.mem n _) eqn:F; [|reflexivity].
    apply mem_In, filter_In in F. destruct F as [_ F]. congruence.
Qed.

Lemma configuration_nodes_witness :
  exists e g,
    In e (Plan.generate_structure_history (Plan.activities two_plan)
            two_system)
    /\ Plan.ev_structure e = Some g
    /\ forall n, In n (DiGraph.nodes g) <->
         In n (DiGraph.nodes (System.structure two_system))
         /\ idle (Plan.activities two_plan) (Plan.date e) n.
Proof.
  set (history := Plan.generate_structure_history (Plan.activities two_plan)
                    two_system).
  assert (He : In (nth 0 history (Plan.mkEvent 0 None None)) history).
  { apply nth_In. vm_compute. lia. }
  destruct (@configuration_nodes (Plan.activities two_plan) two_system _ He)
    as (_ & g & Eg & Hg).
  exists (nth 0 history (Plan.mkEvent 0 None None)), g. auto.
Defined.

Lemma sorted_nth (l : list Q) :
  StronglySorted Qle l ->
  forall i j, (i <= j < length l)%nat -> nth i l 0 <= nth j l 0.
Proof.
  induction 1 as [|x l Hs IH Hall]; intros i j Hij; cbn in Hij; [lia|].
  destruct i as [|i], j as [|j]; cbn; try lia.
  - apply Qle_refl.
  - rewrite Forall_forall in Hall. apply Hall, nth_In. lia.
  - apply IH. lia.
Qed.

Lemma fold_add_nonneg (term : nat -> float) (l : list nat) :
  (forall i, In i l -> 0 <= term i) ->
  forall acc, 0 <= acc ->
    0 <= fold_left (fun lf i => Float.add lf (term i)) l acc.
Proof.
  induction l as [|i l IH]; intros Ht acc Hacc; cbn; [exact Hacc|].
  apply IH; [intros k Hk; apply Ht; now right|].
  apply Qle_trans with (acc + term i).
  - apply Qle_trans with (0 + 0); [apply Qle_refl|].
    apply Qplus_le_compat; [exact Hacc | apply Ht; now left].
  - apply Qeq_le, Qeq_sym, add_correct.
Qed.

(** X11: the lost flow of a plan is never negative, as long as no
    configuration of the system (the graph without some of its nodes) lets
    more flow through than the regular flow. *)
Theorem lost_flow_is_non_negative
        (from_node_to_edge_capacity : System -> DiGraph -> DiGraph)
        (maximum_flow_value :
           DiGraph -> String.string -> String.string -> float)
        (acts : list Activity) (sys : System) :
  (forall ns,
     maximum_flow_value
       (from_node_to_edge_capacity sys
          (DiGraph.remove_nodes_from (System.structure sys) ns))
       "s"%string "t"%string <= System.regular_flow sys) ->
  0 <= Plan.evaluate_flow_reduction from_node_to_edge_capacity
         maximum_flow_value acts sys.
Proof.
  intro Hcap. unfold Plan.evaluate_flow_reduction.
  set (history := Plan.generate_flow_history _ _ acts sys).
  set (dflt := Plan.mkEvent 0 None None).
  assert (Hdates : map Plan.date history
                   = map Plan.date (Plan.generate_structure_history acts sys)).
  { unfold history, Plan.generate_flow_history. rewrite map_map. reflexivity. }
  assert (Hlen : length history
                 = length (map Plan.date
                             (Plan.generate_structure_history acts sys))).
  { rewrite <- Hdates. now rewrite length_map. }
  assert (Hdate : forall i, Plan.date (nth i history dflt)
                            = nth i (map Plan.date history) 0).
  { intro i. exact (eq_sym (map_nth Plan.date history dflt i)). }
  apply fold_add_nonneg; [|apply Qle_refl].
  intros i Hi. apply in_seq in Hi.
  apply Qle_trans with
    ((System.regular_flow sys - Plan.flow_of (nth i history dflt))
     * (Plan.date (nth (i + 1) history dflt) - Plan.date (nth i history dflt))).
  2:{ apply Qeq_le. rewrite mul_correct, !sub_correct. reflexivity. }
  apply Qmult_le_0_compat.
  - assert (Hin : In (nth i history dflt) history) by (apply nth_In; lia).
    set (ev := nth i history dflt) in *.
    unfold history, Plan.generate_flow_history in Hin.
    apply in_map_iff in Hin. destruct Hin as (c & Ec & Hc).
    pose proof (structure_history_event acts sys c Hc) as Es.
    rewrite <- Ec. unfold Plan.flow_of. cbn [Plan.flow].
    rewrite Es. cbn [option_map].
    specialize (Hcap (filter (Plan.non_active
                                (Plan.node_ids acts (Plan.date c)))
                             (DiGraph.nodes (System.structure sys)))).
    lra.
  - rewrite !Hdate, Hdates.
    apply (proj1 (Qle_minus_iff _ _)).
    apply (@sorted_nth _ (history_dates_sorted acts sys) i (i + 1)%nat).
    split; [lia|]. apply Nat.lt_le_trans with (length history); [lia|].
    apply Nat.eq_le_incl. exact Hlen.
Qed.

Lemma lost_flow_is_non_negative_witness :
  0 <= Plan.evaluate_flow_reduction keep_graph count_nodes
         (Plan.activities two_plan) two_system.
Proof.
  apply (@lost_flow_is_non_negative keep_graph count_nodes
           (Plan.activities two_plan) two_system).
  intro ns.
  assert (Hl : (length (DiGraph.nodes
                          (DiGraph.remove_nodes_from two_nodes ns)) <= 4)%nat)
    by apply filter_length_le.
  unfold keep_graph, count_nodes.
  change (System.structure two_system) with two_nodes.
  change (System.regular_flow two_system) with (4 : Q).
  unfold Qle. cbn [Qnum Qden inject_Z]. lia.
Defined.

(** ** The dates of a plan with a grouping structure *)

Lemma nth_error_set_nth {A} (l : list A) : forall i v k,
  nth_error (Np.set_nth l i v) k
  = if Nat.eqb k i then
      match nth_error l i with Some _ => Some v | None => None end
    else nth_error l k.
Proof.
  induction l as [|a l IH]; intros i v k.
  - cbn. destruct (Nat.eqb k i), i, k; reflexivity.
  - destruct i as [|i], k as [|k]; cbn; try reflexivity.
    apply IH.
Qed.

Lemma mapM_spec {A B} (f : A -> result B) (g : A -> B) (l : list A) :
  forall r, mapM f l = Ok r ->
    (forall a b, In a l -> f a = Ok b -> b = g a) -> r = map g l.
Proof.
  induction l as [|a l IH]; intros r E Hf; cbn in E.
  - now injection E as <-.
  - apply bind_ok in E. destruct E as (b & Eb & E).
    apply bind_ok in E. destruct E as (bs & Ebs & E).
    injection E as <-. cbn. f_equal.
    + apply Hf; [now left | exact Eb].
    + apply IH; [exact Ebs|]. intros; apply Hf; [now right | assumption].
Qed.

Lemma mapM_get {A} (l : list A) (idxs : list nat) (vs : list A) :
  mapM (Np.get l) idxs = Ok vs ->
  Forall2 (fun i v => nth_error l i = Some v) idxs vs.
Proof.
  revert vs. induction idxs as [|i idxs IH]; intros vs E; cbn in E.
  - injection E as <-. constructor.
  - apply bind_ok in E. destruct E as (b & Eb & E).
    apply bind_ok in E. destruct E as (bs & Ebs & E).
    injection E as <-. constructor; [|now apply IH].
    unfold Np.get in Eb. destruct (nth_error l i); [|discriminate].
    now injection Eb as <-.
Qed.

Lemma get_entry (gs : Np.matrix) (i j : nat) (e : Z) :
  (row <- Np.get gs i ;; e <- Np.get row j ;; Ok (i, e)) = Ok (i, e) ->
  e = entry gs i j.
Proof.
  unfold entry, Np.get. intro E.
  destruct (nth_error gs i) as [row|] eqn:Er; [|discriminate]. cbn in E.
  destruct (nth_error row j) as [e'|] eqn:Ee; [|discriminate]. cbn in E.
  injection E as <-.
  rewrite (nth_error_nth _ _ _ Er). now rewrite (nth_error_nth _ _ _ Ee).
Qed.

Lemma members_filter (g : nat -> Z) (l : list nat) :
  map fst (filter (fun ie : nat * Z => (snd ie =? 1)%Z)
                  (map (fun i => (i, g i)) l))
  = filter (fun i => (g i =? 1)%Z) l.
Proof.
  induction l as [|i l IH]; cbn; [reflexivity|].
  destruct (g i =? 1)%Z; cbn; now rewrite IH.
Qed.

Lemma minimize_dates (fuel : nat) (g g' : Group) :
  Group.minimize fuel g = Ok g' ->
  exists x, Group.activities g' = map (moved_to x) (Group.activities g)
            /\ exists ic, Group.IC g' = Some ic.
Proof.
  unfold Group.minimize. intro E.
  apply bind_ok in E. destruct E as (x0 & _ & E).
  apply bind_ok in E. destruct E as (xs & _ & E).
  apply bind_ok in E. destruct E as (ic & _ & E).
  injection E as <-. exists (Group.last1 xs). split; [reflexivity|].
  now exists ic.
Qed.

Lemma Forall2_impl_in {A B} (R R' : A -> B -> Prop) (l : list A)
      (l' : list B) :
  Forall2 R l l' ->
  (forall a b, In a l -> R a b -> R' a b) -> Forall2 R' l l'.
Proof.
  induction 1 as [|a b l l' Hab HF IH]; intro H; constructor.
  - apply H; [now left | exact Hab].
  - apply IH. intros; apply H; [now right | assumption].
Qed.

Lemma fold_set_pointwise (x : float) (members : list nat) :
  forall (vals acts : list Activity),
    NoDup members ->
    Forall2 (fun i v => exists a, nth_error acts i = Some a
                                  /\ v = moved_to x a) members vals ->
    forall k,
      nth_error (fold_left (fun l (ia : nat * Activity) =>
                              Np.set_nth l (fst ia) (snd ia))
                           (combine members vals) acts) k
      = if memb k members then option_map (moved_to x) (nth_error acts k)
        else nth_error acts k.
Proof.
  induction members as [|i members IH]; intros vals acts Hnd HF k.
  - inversion HF; subst. reflexivity.
  - inversion HF as [|i' v ms vs (a & Ea & Ev) HF']; subst.
    inversion Hnd as [|? ? Hni Hnd']; subst.
    cbn [combine fold_left fst snd].
    rewrite IH; [|exact Hnd'|].
    + cbn [memb existsb]. fold (memb k members).
      rewrite nth_error_set_nth, Ea.
      destruct (Nat.eqb k i) eqn:Eki.
      * apply Nat.eqb_eq in Eki. subst k.
        assert (memb i members = false) as -> by now apply memb_not_In.
        rewrite Ea. reflexivity.
      * cbn. reflexivity.
    + apply (@Forall2_impl_in _ _ _ _ _ _ HF').
      intros i2 v2 Hi2 (a2 & Ea2 & Ev2). exists a2. split; [|exact Ev2].
      rewrite nth_error_set_nth.
      destruct (Nat.eqb i2 i) eqn:E2; [|exact Ea2].
      apply Nat.eqb_eq in E2. subst i2. now elim Hni.
Qed.

Lemma any_false_entry (gs : Np.matrix) (j : nat) :
  Np.any (Np.column 0%Z gs j) = false ->
  forall i, entry gs i j = 0%Z.
Proof.
  unfold Np.any, Np.column, entry. intros H i.
  destruct (nth_error gs i) as [row|] eqn:Er.
  - rewrite (nth_error_nth _ _ _ Er).
    assert (Hin : In (nth j row 0%Z) (map (fun row => nth j row 0%Z) gs)).
    { apply in_map_iff. exists row. split; [reflexivity|].
      eapply nth_error_In, Er. }
    pose proof (proj2 (not_true_iff_false _) H) as Hn.
    rewrite existsb_exists in Hn.
    destruct (Z.eq_dec (nth j row 0%Z) 0) as [E0|N0]; [exact E0|].
    elim Hn. exists (nth j row 0%Z). split; [exact Hin|].
    apply negb_true_iff, Z.eqb_neq, N0.
  - apply nth_error_None in Er. rewrite (nth_overflow gs [] Er).
    now destruct j.
Qed.

Lemma column_pointwise (fuel : nat) (sys : System) (gs : Np.matrix)
      (acts acts' : list Activity) (ic ic' : float) (j : nat) :
  Plan.set_dates_column fuel sys gs (acts, ic) j = Ok (acts', ic') ->
  exists x, forall i,
    nth_error acts' i
    = if (i <? System.N sys) && (entry gs i j =? 1)%Z
      then option_map (moved_to x) (nth_error acts i)
      else nth_error acts i.
Proof.
  unfold Plan.set_dates_column.
  destruct (Np.any (Np.column 0%Z gs j)) eqn:Eany.
  - intro E.
    apply bind_ok in E. destruct E as (rows & Erows & E).
    apply bind_ok in E. destruct E as (group & Egroup & E).
    apply bind_ok in E. destruct E as (g & Eg & E).
    injection E as <- _.
    apply (@mapM_spec _ _ _ (fun i => (i, entry gs i j))) in Erows.
    2:{ intros a [b e] _ Hb.
        assert (b = a) as ->.
        { apply bind_ok in Hb. destruct Hb as (row & _ & Hb).
          apply bind_ok in Hb. destruct Hb as (e' & _ & Hb).
          now injection Hb. }
        now rewrite (@get_entry _ _ _ _ Hb). }
    subst rows. rewrite members_filter in *.
    set (members := filter _ (seq 0 (System.N sys))) in *.
    apply mapM_get in Egroup.
    destruct (@minimize_dates _ _ _ Eg) as (x & Ex & _).
    exists x. intro i. rewrite Ex. cbn [Group.init Group.activities].
    rewrite (@fold_set_pointwise x members).
    + assert (memb i members
              = (i <? System.N sys) && (entry gs i j =? 1)%Z) as ->;
        [|reflexivity].
      apply eq_true_iff_eq. rewrite memb_In. unfold members.
      rewrite filter_In, in_seq, andb_true_iff, Nat.ltb_lt. 
      split; intros [H1 H2]; split; try assumption; lia.
    + apply NoDup_filter, seq_NoDup.
    + clear -Egroup. induction Egroup as [|i a ms vs Ha HF IH]; cbn;
        constructor; [|exact IH].
      exists a. now split.
  - intro E. injection E as <- _. exists 0. intro i.
    rewrite (@any_false_entry _ _ Eany). cbn. now rewrite andb_false_r.
Qed.

Lemma column_keeps (fuel : nat) (sys : System) (gs : Np.matrix)
      (acts acts' : list Activity) (ic ic' : float) (j : nat) :
  Plan.set_dates_column fuel sys gs (acts, ic) j = Ok (acts', ic') ->
  forall i, 
    match nth_error acts i, nth_error acts' i with
    | Some a, Some a' =>
        Activity.component a' = Activity.component a
        /\ Activity.d a' = Activity.d a
    | None, None => True
    | _, _ => False
    end.
Proof.
  intros E i. destruct (@column_pointwise _ _ _ _ _ _ _ _ E) as (x & Hx).
  rewrite Hx. destruct ((i <? System.N sys) && (entry gs i j =? 1)%Z);
    destruct (nth_error acts i); cbn; auto.
Qed.

Lemma same_but_dates_pointwise acts acts' :
  (forall i,
     match nth_error acts i, nth_error acts' i with
     | Some a, Some a' =>
         Activity.component a' = Activity.component a
         /\ Activity.d a' = Activity.d a
     | None, None => True
     | _, _ => False
     end) ->
  same_but_dates acts acts'.
Proof.
  intro H. split; apply nth_error_ext; intro i; rewrite !nth_error_map;
    specialize (H i); destruct (nth_error acts i), (nth_error acts' i);
    cbn; try tauto; f_equal; tauto.
Qed.

Lemma same_but_dates_refl acts : same_but_dates acts acts.
Proof. now split. Qed.

Lemma same_but_dates_trans a b c :
  same_but_dates a b -> same_but_dates b c -> same_but_dates a c.
Proof. intros [H1 H2] [H3 H4]. split; congruence. Qed.

Lemma set_dates_keeps (fuel : nat) (acts : list Activity) (sys : System)
      (x : Np.tensor) acts' ic' :
  Plan.set_dates fuel acts sys x = Ok (acts', ic') ->
  same_but_dates acts acts'.
Proof.
  unfold Plan.set_dates. intro E.
  refine (@foldM_inv _ _ (fun st => same_but_dates acts (fst st)) _ _ _
            (acts, 0) (acts', ic') (same_but_dates_refl acts) E).
  intros [a1 i1] j [a2 i2] _ Hst Est. cbn [fst] in *.
  apply same_but_dates_trans with (1 := Hst).
  apply same_but_dates_pointwise. exact (@column_keeps _ _ _ _ _ _ _ _ Est).
Qed.

Lemma foldM_app {A B} (body : A -> B -> result A) (l1 l2 : list B) :
  forall acc r,
    foldM body (l1 ++ l2) acc = Ok r ->
    exists mid, foldM body l1 acc = Ok mid /\ foldM body l2 mid = Ok r.
Proof.
  induction l1 as [|b l1 IH]; intros acc r E; cbn in *.
  - now exists acc.
  - apply bind_ok in E. destruct E as (a1 & E1 & E).
    rewrite E1. cbn. now apply IH.
Qed.

Lemma columns_keep (fuel : nat) (sys : System) (gs : Np.matrix) (i : nat)
      (l : list nat) :
  (forall j, In j l -> entry gs i j <> 1%Z) ->
  forall st st',
    foldM (Plan.set_dates_column fuel sys gs) l st = Ok st' ->
    nth_error (fst st') i = nth_error (fst st) i.
Proof.
  intros Hl st st' E.
  refine (@foldM_inv _ _ (fun s => nth_error (fst s) i = nth_error (fst st) i)
            _ _ _ st st' eq_refl E).
  intros [a1 i1] j [a2 i2] Hj Hst Est. cbn [fst] in *.
  destruct (@column_pointwise _ _ _ _ _ _ _ _ Est) as (x & Hx).
  rewrite Hx, <- Hst.
  apply Hl, Z.eqb_neq in Hj. rewrite Hj. now rewrite andb_false_r.
Qed.

(** X12: building a plan with a grouping structure changes nothing but
    dates: the components and the durations of the activities, their number,
    the system and the structure are those given, and the stored [LF] is
    the lost flow at the final dates. *)
Theorem plan_init_changes_dates_only
        (from_node_to_edge_capacity : System -> DiGraph -> DiGraph)
        (maximum_flow_value :
           DiGraph -> String.string -> String.string -> float)
        (fuel : nat) (acts : list Activity) (sys : System)
        (gs : Np.tensor) (p : Plan) :
  Plan.init from_node_to_edge_capacity maximum_flow_value fuel acts sys
            (Some gs) = Ok p ->
  map Activity.component (Plan.activities p) = map Activity.component acts
  /\ map Activity.d (Plan.activities p) = map Activity.d acts
  /\ length (Plan.activities p) = length acts
  /\ Plan.system p = sys
  /\ Plan.grouping_structure p = Some gs
  /\ Plan.LF p
     = Plan.evaluate_flow_reduction from_node_to_edge_capacity
         maximum_flow_value (Plan.activities p) sys.
Proof.
  unfold Plan.init. intro E.
  apply bind_ok in E. destruct E as ([acts' ic'] & Es & E).
  injection E as <-. cbn.
  destruct (@set_dates_keeps _ _ _ _ _ _ Es) as [Hc Hd].
  repeat split; try assumption.
  rewrite <- (length_map Activity.d acts'), Hd. apply length_map.
Qed.

(** X13: an activity whose row of the grouping structure (summed over the
    resources) has no entry equal to 1 belongs to no group, and keeps its
    date. *)
Theorem ungrouped_activity_keeps_its_date
        (from_node_to_edge_capacity : System -> DiGraph -> DiGraph)
        (maximum_flow_value :
           DiGraph -> String.string -> String.string -> float)
        (fuel : nat) (acts : list Activity) (sys : System)
        (gs : Np.tensor) (p : Plan) (i : nat) :
  Plan.init from_node_to_edge_capacity maximum_flow_value fuel acts sys
            (Some gs) = Ok p ->
  (forall j, entry (Np.sum_last gs) i j <> 1%Z) ->
  nth_error (Plan.activities p) i = nth_error acts i.
Proof.
  unfold Plan.init. intros E Hi.
  apply bind_ok in E. destruct E as ([acts' ic'] & Es & E).
  injection E as <-. cbn.
  exact (@columns_keep fuel sys (Np.sum_last gs) i _ (fun j _ => Hi j)
           (acts, 0) (acts', ic') Es).
Qed.

(** X14: two activities of the same group are executed together: when
    the rows [i] and [i'] have a 1 in column [j] and in no later column, the
    activities [i] and [i'] of the plan have the same date. *)
Theorem grouped_activities_share_a_date
        (from_node_to_edge_capacity : System -> DiGraph -> DiGraph)
        (maximum_flow_value :
           DiGraph -> String.string -> String.string -> float)
        (fuel : nat) (acts : list Activity) (sys : System)
        (gs : Np.tensor) (p : Plan) (i i' j : nat) (a a' : Activity) :
  Plan.init from_node_to_edge_capacity maximum_flow_value fuel acts sys
            (Some gs) = Ok p ->
  (i < System.N sys)%nat -> (i' < System.N sys)%nat ->
  (j < Np.shape1 (Np.sum_last gs))%nat ->
  entry (Np.sum_last gs) i j = 1%Z -> entry (Np.sum_last gs) i' j = 1%Z ->
  (forall j', (j < j')%nat ->
     entry (Np.sum_last gs) i j' <> 1%Z
     /\ entry (Np.sum_last gs) i' j' <> 1%Z) ->
  nth_error (Plan.activities p) i = Some a ->
  nth_error (Plan.activities p) i' = Some a' ->
  Activity.t a = Activity.t a'.
Proof.
  unfold Plan.init. intros E Hi Hi' Hj Eij Ei'j Hlater.
  apply bind_ok in E. destruct E as ([acts' ic'] & Es & E).
  injection E as <-. cbn [Plan.activities].
  unfold Plan.set_dates in Es.
  set (m := Np.sum_last gs) in *.
  replace (seq 0 (Np.shape1 m))
    with (seq 0 j ++ [j] ++ seq (S j) (Np.shape1 m - S j)) in Es.
  2:{ change ([j] ++ seq (S j) (Np.shape1 m - S j))
        with (seq j (S (Np.shape1 m - S j))).
      rewrite <- seq_app. f_equal. lia. }
  apply foldM_app in Es. destruct Es as ([a1 c1] & _ & Es).
  apply foldM_app in Es. destruct Es as ([a2 c2] & Ej & Es).
  cbn [foldM] in Ej. apply bind_ok in Ej. destruct Ej as (st & Ej & Est).
  injection Est as ->.
  destruct (@column_pointwise _ _ _ _ _ _ _ _ Ej) as (x & Hx).
  assert (K : forall k, (k < System.N sys)%nat -> entry m k j = 1%Z ->
              (forall j', (j < j')%nat -> entry m k j' <> 1%Z) ->
              forall b, nth_error acts' k = Some b -> Activity.t b = x).
  { intros k Hk Ek Hl b Hb.
    pose proof (@columns_keep fuel sys m k _
                  (fun j' Hj' => Hl j' (proj1 (proj1 (in_seq _ _ _) Hj')))
                  (a2, c2) (acts', ic') Es) as Hkeep.
    cbn [fst] in Hkeep. rewrite Hkeep, Hx in Hb.
    apply Nat.ltb_lt in Hk. rewrite Hk, Ek in Hb. cbn in Hb.
    destruct (nth_error a1 k); [|discriminate].
    now injection Hb as <-. }
  intros Ha Ha'.
  rewrite (K i Hi Eij (fun j' H => proj1 (Hlater j' H)) a Ha).
  rewrite (K i' Hi' Ei'j (fun j' H => proj2 (Hlater j' H)) a' Ha').
  reflexivity.
Qed.

Lemma paired_plan :
  exists p,
    Plan.init keep_graph count_nodes 50 (Plan.activities two_plan) two_system
              (Some paired_structure) = Ok p.
Proof. vm_compute. eexists. reflexivity. Qed.

Lemma half_plan :
  exists p,
    Plan.init keep_graph count_nodes 50 (Plan.activities two_plan) two_system
              (Some half_structure) = Ok p.
Proof. vm_compute. eexists. reflexivity. Qed.

Lemma plan_init_changes_dates_only_witness :
  exists p,
    Plan.init keep_graph count_nodes 50 (Plan.activities two_plan) two_system
              (Some paired_structure) = Ok p
    /\ map Activity.d (Plan.activities p)
       = map Activity.d (Plan.activities two_plan).
Proof.
  destruct paired_plan as [p E]. exists p. split; [exact E|].
  exact (proj1 (proj2 (@plan_init_changes_dates_only _ _ _ _ _ _ _ E))).
Defined.

Lemma ungrouped_activity_keeps_its_date_witness :
  exists p,
    Plan.init keep_graph count_nodes 50 (Plan.activities two_plan) two_system
              (Some half_structure) = Ok p
    /\ nth_error (Plan.activities p) 1
       = nth_error (Plan.activities two_plan) 1.
Proof.
  destruct half_plan as [p E]. exists p. split; [exact E|].
  apply (@ungrouped_activity_keeps_its_date _ _ _ _ _ _ _ 1%nat E).
  intros [|[|[|j]]]; discriminate.
Defined.

Lemma grouped_activities_share_a_date_witness :
  exists p,
    Plan.init keep_graph count_nodes 50 (Plan.activities two_plan) two_system
              (Some paired_structure) = Ok p
    /\ forall a a',
         nth_error (Plan.activities p) 0 = Some a ->
         nth_error (Plan.activities p) 1 = Some a' ->
         Activity.t a = Activity.t a'.
Proof.
  destruct paired_plan as [p E]. exists p. split; [exact E|].
  intros a a'.
  apply (@grouped_activities_share_a_date _ _ _ _ _ _ _ 0%nat 1%nat 0%nat
           a a' E).
  - vm_compute. lia.
  - vm_compute. lia.
  - vm_compute. lia.
  - reflexivity.
  - reflexivity.
  - intros [|[|[|j']]] H; [lia|split; discriminate..].
Defined.

(** ** Mutation of an individual *)

Lemma rand_range (s : Random.state) :
  0 <= fst (Random.rand s) /\ fst (Random.rand s) < 1
  /\ snd (Random.rand s) = advance 1 s.
Proof.
  unfold Random.rand, Random.next, advance. cbn [fst snd].
  set (z := (Random.draws s (Random.pos s) mod 9007199254740992)%Z).
  assert (Hz : (0 <= z < 9007199254740992)%Z)
    by (apply Z.mod_pos_bound; reflexivity).
  split; [|split].
  - rewrite Qred_correct. unfold Qle. cbn. lia.
  - rewrite Qred_correct. unfold Qlt. cbn. lia.
  - f_equal. lia.
Qed.

Lemma advance_advance n k s : advance k (advance n s) = advance (n + k) s.
Proof. unfold advance. cbn. f_equal. lia. Qed.

Lemma mutate_component_idle (p : Plan) (pm : float) (x : Np.tensor)
      (rng : Random.state) (i : nat) :
  pm <= 0 ->
  Individual.mutate_component p pm (x, rng) i = Ok (x, advance 1 rng).
Proof.
  intro Hp. unfold Individual.mutate_component.
  destruct (rand_range rng) as (H0 & _ & Hs).
  destruct (Random.rand rng) as [u rng1]. cbn [fst snd] in *.
  assert (Float.ltb u pm = false) as ->.
  { apply ltb_ge. now apply Qle_trans with 0. }
  now rewrite Hs.
Qed.

Lemma mutate_components_idle (p : Plan) (pm : float) (x : Np.tensor)
      (l : list nat) :
  pm <= 0 ->
  forall rng,
    foldM (Individual.mutate_component p pm) l (x, rng)
    = Ok (x, advance (length l) rng).
Proof.
  intro Hp. induction l as [|i l IH]; intro rng; cbn [foldM length].
  - unfold advance. rewrite Nat.add_0_r. now destruct rng.
  - rewrite (mutate_component_idle p x rng i Hp). cbn [bind].
    rewrite IH, advance_advance. reflexivity.
Qed.

(** X15: with a mutation probability of 0 (or less) [mutate] changes no
    component: the offspring is built on the grouping structure of its
    parent, and one random number is drawn for each component. *)
Theorem mutate_with_no_probability_keeps_the_structure
        (from_node_to_edge_capacity : System -> DiGraph -> DiGraph)
        (maximum_flow_value :
           DiGraph -> String.string -> String.string -> float)
        (fuel : nat) (individual : Individual) (p_mutation : float)
        (rng : Random.state) (x : Np.tensor) :
  p_mutation <= 0 ->
  Plan.grouping_structure (Individual.plan individual) = Some x ->
  Individual.mutate from_node_to_edge_capacity maximum_flow_value fuel
    individual p_mutation rng
  = (p' <- Plan.init from_node_to_edge_capacity maximum_flow_value fuel
             (Plan.activities (Individual.plan individual))
             (Plan.system (Individual.plan individual)) (Some x) ;;
     Ok (Individual.init p', advance (length x) rng)).
Proof.
  intros Hp Ex. unfold Individual.mutate. rewrite Ex.
  rewrite (mutate_components_idle _ x _ Hp), length_seq. reflexivity.
Qed.

Lemma randint_spec (n : nat) (s : Random.state) r s' :
  Random.randint n s = Ok (r, s') -> (r < n)%nat /\ s' = advance 1 s.
Proof.
  unfold Random.randint, Random.next, advance. destruct n as [|n];
    [discriminate|].
  intro E. injection E as <- <-. split.
  - pose proof (Z.mod_pos_bound (Random.draws s (Random.pos s))
                  (Z.of_nat (S n)) ltac:(lia)). lia.
  - f_equal. lia.
Qed.

Lemma choice_spec (l : list nat) (s : Random.state) j s' :
  Random.choice l s = Ok (j, s') -> In j l /\ s' = advance 1 s.
Proof.
  unfold Random.choice, Random.next, advance. intro E.
  assert (Hl : (0 < length l)%nat) by (destruct l; [discriminate|cbn; lia]).
  assert (E' : Ok (nth (Z.to_nat (Random.draws s (Random.pos s)
                                  mod Z.of_nat (length l))) l 0%nat,
                   Random.mk (Random.draws s) (S (Random.pos s)))
               = Ok (j, s'))
    by (destruct l; [discriminate|exact E]).
  clear E. injection E' as <- <-. split.
  - apply nth_In.
    pose proof (Z.mod_pos_bound (Random.draws s (Random.pos s))
                  (Z.of_nat (length l)) ltac:(lia)). lia.
  - f_equal. lia.
Qed.

Lemma feasible_groups_spec (acts : list Activity) (x : Np.tensor) (i : nat)
      (g f : list nat) :
  Individual.feasible_groups acts x i g = Ok f ->
  forall j, In j f <->
    In j g /\ (grp <- joined_group acts x i j ;; Group.is_feasible grp)
              = Ok true.
Proof.
  unfold Individual.feasible_groups.
  assert (G : forall f0 f,
            foldM (fun f j =>
                     members <- mapM (Np.get acts)
                                  (Np.flatnonzero
                                     (Np.sum_axis1 (NpIdx.slot x j))) ;;
                     a_i <- Np.get acts i ;;
                     ok <- Group.is_feasible (Group.init (members ++ [a_i])) ;;
                     Ok (if ok then f ++ [j] else f)) g f0 = Ok f ->
            forall j, In j f <->
              In j f0 \/ (In j g /\
                (grp <- joined_group acts x i j ;; Group.is_feasible grp)
                = Ok true)).
  { clear f. induction g as [|j0 g IH]; intros f0 f E j; cbn in E.
    - injection E as <-. cbn. tauto.
    - apply bind_ok in E. destruct E as (f1 & E1 & E).
      apply IH with (j := j) in E. rewrite E. clear E IH.
      apply bind_ok in E1. destruct E1 as (members & Em & E1).
      apply bind_ok in E1. destruct E1 as (a_i & Ea & E1).
      apply bind_ok in E1. destruct E1 as (ok & Eok & E1).
      injection E1 as <-.
      assert (Ej0 : (grp <- joined_group acts x i j0 ;; Group.is_feasible grp)
                    = Ok ok).
      { unfold joined_group. rewrite Em. cbn [bind]. rewrite Ea. exact Eok. }
      cbn [In]. destruct ok.
      + rewrite in_app_iff. cbn [In]. split.
        * intros [[H| [<-|[]]]|[H1 H2]]; auto.
        * intros [H|[[<-|H1] H2]]; auto.
      + split.
        * intros [H|[H1 H2]]; auto.
        * intros [H|[[<-|H1] H2]]; auto. congruence. }
  intros E j. rewrite (G [] f E j). cbn. tauto.
Qed.

Lemma nth_error_repeat {A} (a : A) (n k : nat) :
  nth_error (repeat a n) k = if k <? n then Some a else None.
Proof.
  revert k. induction n as [|n IH]; intro k; cbn.
  - now destruct k.
  - destruct k as [|k]; cbn; [reflexivity|]. apply IH.
Qed.

Lemma set2_zeros (n resources j r : nat) (allele : Np.matrix) :
  NpIdx.set2 (Np.zeros2 n resources) j r 1%Z = Ok allele ->
  (j < n)%nat /\ (r < resources)%nat /\ allele = one_hot n resources j r.
Proof.
  unfold NpIdx.set2, Np.zeros2. rewrite nth_error_repeat.
  destruct (j <? n) eqn:Ej; [|discriminate]. rewrite repeat_length.
  destruct (r <? resources) eqn:Er; [|discriminate].
  intro E. injection E as <-. apply Nat.ltb_lt in Ej, Er. now split.
Qed.

Lemma sum1_cons (a : Z) (l : list Z) : Np.sum1 (a :: l) = (a + Np.sum1 l)%Z.
Proof.
  unfold Np.sum1. cbn.
  assert (G : forall l acc, fold_left Z.add l acc
                            = (acc + fold_left Z.add l 0)%Z).
  { clear. induction l as [|b l IH]; intro acc; cbn; [lia|].
    rewrite (IH (acc + b)%Z), (IH b). lia. }
  rewrite (G l a). reflexivity.
Qed.

Lemma sum1_zeros (n : nat) : Np.sum1 (repeat 0%Z n) = 0%Z.
Proof. induction n as [|n IH]; [reflexivity|]. cbn [repeat]. now rewrite sum1_cons. Qed.

Lemma sum1_set (n r : nat) (e : Z) :
  (r < n)%nat -> Np.sum1 (Np.set_nth (repeat 0%Z n) r e) = e.
Proof.
  revert r. induction n as [|n IH]; intros r Hr; [lia|].
  destruct r as [|r]; cbn [repeat Np.set_nth]; rewrite sum1_cons.
  - rewrite sum1_zeros. lia.
  - rewrite IH by lia. lia.
Qed.

Lemma one_hot_sum (n resources j r : nat) :
  (j < n)%nat -> (r < resources)%nat ->
  Np.sum2 (one_hot n resources j r) = 1%Z.
Proof.
  unfold one_hot, Np.sum2, Np.zeros2. intros Hj Hr.
  revert j Hj. induction n as [|n IH]; intros j Hj; [lia|].
  destruct j as [|j]; cbn [repeat Np.set_nth map]; rewrite sum1_cons.
  - rewrite sum1_set by exact Hr.
    assert (Np.sum1 (map Np.sum1 (repeat (repeat 0%Z resources) n)) = 0%Z)
      as ->; [|reflexivity].
    clear. induction n as [|n IH]; [reflexivity|].
    cbn [repeat map]. now rewrite sum1_cons, sum1_zeros, IH.
  - rewrite sum1_zeros, IH by lia. reflexivity.
Qed.

Lemma length_set_nth {A} (l : list A) : forall i v,
  length (Np.set_nth l i v) = length l.
Proof.
  induction l as [|a l IH]; intros [|i] v; cbn; try reflexivity.
  now rewrite IH.
Qed.

Lemma in_set_nth {A} (l : list A) : forall i v a,
  In a (Np.set_nth l i v) -> a = v \/ In a l.
Proof.
  induction l as [|b l IH]; intros [|i] v a Ha; cbn in *; try tauto.
  - destruct Ha as [<-|Ha]; auto.
  - destruct Ha as [<-|Ha]; [tauto|]. destruct (IH _ _ _ Ha); tauto.
Qed.

Lemma broadcast_same {A} (l : list A) : NpIdx.broadcast (length l) l = Ok l.
Proof. unfold NpIdx.broadcast. now rewrite Nat.eqb_refl. Qed.

Lemma broadcast2_same {A} (rows cols : nat) (m : list (list A)) :
  length m = rows -> Forall (fun row => length row = cols) m ->
  NpIdx.broadcast2 rows cols m = Ok m.
Proof.
  intros <- Hm. unfold NpIdx.broadcast2.
  assert (mapM (NpIdx.broadcast cols) m = Ok m) as ->.
  { induction Hm as [|row m <- _ IH]; cbn; [reflexivity|].
    now rewrite broadcast_same, IH. }
  cbn [bind]. apply broadcast_same.
Qed.

Lemma one_hot_shape (n resources j r : nat) :
  length (one_hot n resources j r) = n
  /\ Forall (fun row => length row = resources) (one_hot n resources j r).
Proof.
  unfold one_hot, Np.zeros2. split.
  - now rewrite length_set_nth, repeat_length.
  - apply Forall_forall. intros row Hrow. apply in_set_nth in Hrow.
    destruct Hrow as [->|Hrow].
    + now rewrite length_set_nth, repeat_length.
    + apply repeat_spec in Hrow. subst row. apply repeat_length.
Qed.

(** X16: when the mutation of component [i] fires and succeeds, the plan
    has an [N], which a caller has assigned to it, and the component is
    moved to a slot [j] that differs from [g_id], holds fewer assignments
    than there are resources, and forms a feasible group with the activity
    of [i]; its new array is the array of [N] rows with a single 1, at [j]
    and at a resource [r], broadcast to the shape of the old one (that
    array itself when the shapes agree), the other components are as they
    were, and three random numbers have been drawn. *)
Theorem mutate_component_moves_to_a_feasible_group
        (p : Plan) (p_mutation : float) (x : Np.tensor) (rng : Random.state)
        (i : nat) (x' : Np.tensor) (rng' : Random.state) :
  fst (Random.rand rng) < p_mutation ->
  Individual.mutate_component p p_mutation (x, rng) i = Ok (x', rng') ->
  exists n x_i g_id j r x_i',
    Plan.N p = Some n
    /\ Np.get x i = Ok x_i
    /\ Np.get (Np.flatnonzero (Np.sum_axis0 x_i)) 0 = Ok g_id
    /\ j <> g_id
    /\ (j < Np.shape1 x)%nat
    /\ (Np.sum2 (NpIdx.slot x j)
        < Z.of_nat (System.resources (Plan.system p)))%Z
    /\ (grp <- joined_group (Plan.activities p) x i j ;;
        Group.is_feasible grp) = Ok true
    /\ (j < n)%nat
    /\ (r < System.resources (Plan.system p))%nat
    /\ NpIdx.broadcast2 (length x_i) (Np.shape1 x_i)
         (one_hot n (System.resources (Plan.system p)) j r) = Ok x_i'
    /\ x' = Np.set_nth x i x_i'
    /\ (length x_i = n ->
        Np.shape1 x_i = System.resources (Plan.system p) ->
        x_i' = one_hot n (System.resources (Plan.system p)) j r)
    /\ Np.sum2 (one_hot n (System.resources (Plan.system p)) j r) = 1%Z
    /\ rng' = advance 3 rng.
Proof.
  intros Hu E. unfold Individual.mutate_component in E.
  destruct (rand_range rng) as (_ & _ & Hs).
  destruct (Random.rand rng) as [u rng1]. cbn [fst snd] in *. subst rng1.
  apply ltb_lt in Hu. rewrite Hu in E.
  apply bind_ok in E. destruct E as (x_i & Exi & E).
  apply bind_ok in E. destruct E as (g_id & Eg & E).
  apply bind_ok in E. destruct E as (f & Ef & E).
  apply bind_ok in E. destruct E as (n & En & E).
  apply get_N_ok in En.
  apply bind_ok in E. destruct E as ([j rng2] & Ej & E).
  apply bind_ok in E. destruct E as ([r rng3] & Er & E).
  apply bind_ok in E. destruct E as (allele & Ea & E).
  apply bind_ok in E. destruct E as (x_i' & Eb & E).
  injection E as <- <-.
  apply choice_spec in Ej. destruct Ej as [Hj ->].
  apply randint_spec in Er. destruct Er as [Hr ->].
  apply set2_zeros in Ea. destruct Ea as (HjN & _ & ->).
  apply (feasible_groups_spec _ _ _ _ Ef) in Hj. destruct Hj as [Hjg Hfeas].
  unfold Individual.candidate_groups in Hjg.
  apply filter_In in Hjg. destruct Hjg as [Hseq Hcond].
  apply in_seq in Hseq. apply andb_true_iff in Hcond.
  destruct Hcond as [Hne Hfull].
  apply negb_true_iff, Nat.eqb_neq in Hne. apply Z.ltb_lt in Hfull.
  exists n, x_i, g_id, j, r, x_i'.
  repeat (split; [first [assumption | lia]|]).
  split; [reflexivity|]. split.
  { intros Hrows Hcols. rewrite Hrows, Hcols in Eb.
    destruct (one_hot_shape n (System.resources (Plan.system p)) j r)
      as [Hl HF].
    rewrite (broadcast2_same Hl HF) in Eb. now injection Eb. }
  split; [now apply one_hot_sum|].
  now rewrite !advance_advance.
Qed.

(** ** Random structures *)

Lemma randint_total (n : nat) (s : Random.state) :
  (1 <= n)%nat ->
  exists r, Random.randint n s = Ok (r, advance 1 s) /\ (r < n)%nat.
Proof.
  intro Hn. destruct (Random.randint n s) as [[r s']| |] eqn:E.
  - destruct (randint_spec _ _ E) as [Hr ->]. now exists r.
  - unfold Random.randint in E. destruct n; [lia|discriminate].
  - unfold Random.randint in E. destruct n; [lia|discriminate].
Qed.

Lemma set2_one_hot (n resources j r : nat) :
  (j < n)%nat -> (r < resources)%nat ->
  NpIdx.set2 (Np.zeros2 n resources) j r 1%Z
  = Ok (one_hot n resources j r).
Proof.
  intros Hj Hr. unfold NpIdx.set2, Np.zeros2. rewrite nth_error_repeat.
  apply Nat.ltb_lt in Hj, Hr. rewrite Hj, repeat_length, Hr. reflexivity.
Qed.

Lemma random_rows (n resources : nat) (l : list nat) :
  (1 <= n)%nat -> (1 <= resources)%nat ->
  forall sgm0 rng,
  exists sgm1,
    foldM (random_assignment n resources)
          l (sgm0, rng)
    = Ok (sgm0 ++ sgm1, advance (2 * length l) rng)
    /\ length sgm1 = length l
    /\ Forall (fun x => exists j r, (j < n)%nat /\ (r < resources)%nat
                                    /\ x = one_hot n resources j r) sgm1.
Proof.
  intros Hn Hr. induction l as [|i l IH]; intros sgm0 rng.
  - exists []. cbn. rewrite app_nil_r. unfold advance.
    rewrite Nat.add_0_r. destruct rng. repeat split. constructor.
  - cbn [foldM]. unfold random_assignment at 1. cbv zeta.
    destruct (randint_total rng Hn) as (j & -> & Hj). cbn [bind].
    destruct (randint_total (advance 1 rng) Hr) as (r & -> & Hr'). cbn [bind].
    rewrite (set2_one_hot Hj Hr'). cbn [bind].
    destruct (IH (sgm0 ++ [one_hot n resources j r])
                 (advance 1 (advance 1 rng))) as (sgm1 & E & Hl & HF).
    exists (one_hot n resources j r :: sgm1).
    split; [etransitivity; [exact E|]|].
    { rewrite <- app_assoc, !advance_advance. cbn [app length].
      do 2 f_equal. f_equal. lia. }
    cbn [length]. split; [lia|].
    constructor; [|exact HF]. now exists j, r.
Qed.

(** X17: on a system with a component and a resource at least,
    [generate_random_assignment_matrix] returns one array per component,
    each with a single 1 at a slot below [N] and a resource below
    [resources]; it draws two random numbers per component. *)
Theorem random_assignment_matrix_is_one_hot (p : Plan) (rng : Random.state) :
  (1 <= System.N (Plan.system p))%nat ->
  (1 <= System.resources (Plan.system p))%nat ->
  exists sgm,
    generate_random_assignment_matrix p rng
    = Ok (sgm, advance (2 * System.N (Plan.system p)) rng)
    /\ length sgm = System.N (Plan.system p)
    /\ Forall (fun x =>
                 exists j r,
                   (j < System.N (Plan.system p))%nat
                   /\ (r < System.resources (Plan.system p))%nat
                   /\ x = one_hot (System.N (Plan.system p))
                            (System.resources (Plan.system p)) j r
                   /\ Np.sum2 x = 1%Z) sgm.
Proof.
  intros Hn Hr. unfold generate_random_assignment_matrix. cbv zeta.
  destruct (@random_rows _ _ (seq 0 (System.N (Plan.system p))) Hn Hr [] rng)
    as (sgm & E & Hl & HF).
  match goal with
  | |- context [bind ?m _] =>
      assert (Em : m = Ok (sgm, advance (2 * System.N (Plan.system p)) rng))
        by (rewrite length_seq in E; exact E)
  end.
  rewrite Em. rewrite length_seq in Hl. cbn [app bind]. exists sgm.
  destruct sgm as [|x sgm]; [cbn in Hl; lia|].
  split; [reflexivity|]. split; [exact Hl|].
  eapply Forall_impl; [|exact HF]. cbn beta.
  intros a (j & r & Hj & Hr' & ->). exists j, r.
  repeat split; try assumption. now apply one_hot_sum.
Qed.

(** X18: [generate_random_assignment_matrix] raises [ValueError] on a
    system without component (nothing to stack) or without resource. *)
Theorem random_assignment_matrix_needs_a_resource (p : Plan)
        (rng : Random.state) :
  System.N (Plan.system p) = 0%nat
  \/ System.resources (Plan.system p) = 0%nat ->
  generate_random_assignment_matrix p rng = Raise ValueError.
Proof.
  unfold generate_random_assignment_matrix. cbv zeta.
  destruct (System.N (Plan.system p)) as [|n] eqn:En.
  - intros _. reflexivity.
  - intros [F| ->]; [discriminate|]. cbn [seq foldM].
    unfold random_assignment at 1. cbv zeta.
    destruct (@randint_total (S n) rng ltac:(lia)) as (j & -> & _).
    reflexivity.
Qed.

Lemma map_set_nth {A B} (f : A -> B) (l : list A) : forall i v,
  map f (Np.set_nth l i v) = Np.set_nth (map f l) i (f v).
Proof.
  induction l as [|a l IH]; intros [|i] v; cbn; try reflexivity.
  now rewrite IH.
Qed.

Lemma get_nth_error {A} (l : list A) (i : nat) (a : A) :
  Np.get l i = Ok a <-> nth_error l i = Some a.
Proof.
  unfold Np.get. destruct (nth_error l i); split; intro E;
    try discriminate; now injection E as <-.
Qed.

Lemma nth_error_seq_lt (n i : nat) :
  nth_error (seq 0 n) i = if i <? n then Some i else None.
Proof.
  assert (G : forall s, nth_error (seq s n) i
                        = if i <? n then Some (s + i)%nat else None).
  { revert i. induction n as [|n IH]; intros i s; cbn.
    - now destruct i.
    - destruct i as [|i]; cbn [seq nth_error].
      + now rewrite Nat.add_0_r.
      + rewrite IH. replace (S s + i)%nat with (s + S i)%nat by lia.
        reflexivity. }
  now rewrite G.
Qed.

Lemma sum_last_one_hot (n resources j r : nat) :
  (r < resources)%nat ->
  map Np.sum1 (one_hot n resources j r) = Np.set_nth (repeat 0%Z n) j 1%Z.
Proof.
  intro Hr. unfold one_hot, Np.zeros2.
  rewrite map_set_nth, map_repeat, sum1_zeros, sum1_set by exact Hr.
  reflexivity.
Qed.

(** X19: when the structure injected at the end of the initial population
    is built, the plan of the engine has an [N], which a caller has
    assigned to it, and the structure executes every activity separately:
    the array of component [i] has a single 1, at slot [i]; summed over the
    resources the structure is the identity matrix of size [N]; one random
    number is drawn per component. *)
Theorem singleton_structure_separates_the_activities
        (m : MOGA) (rng : Random.state) (S_ : Np.tensor)
        (rng' : Random.state) :
  MOGA.singleton_structure m rng = Ok (S_, rng') ->
  exists n,
    Plan.N (MOGA.plan m) = Some n
    /\ length S_ = n
    /\ (forall i, (i < n)%nat ->
          exists r,
            (r < System.resources (Plan.system (MOGA.plan m)))%nat
            /\ nth_error S_ i
               = Some (one_hot n
                         (System.resources (Plan.system (MOGA.plan m))) i r))
    /\ Np.sum_last S_ = identity n
    /\ rng' = advance n rng.
Proof.
  unfold MOGA.singleton_structure. intro E.
  apply bind_ok in E. destruct E as (n & En & E). apply get_N_ok in En.
  exists n. split; [exact En|]. clear En. cbv zeta in E. revert E.
  set (R := System.resources (Plan.system (MOGA.plan m))).
  match goal with |- foldM ?f _ _ = _ -> _ => set (body := f) end.
  assert (G : forall len start (S0 : Np.tensor) rng0 S1 rng1,
            foldM body (seq start len) (S0, rng0) = Ok (S1, rng1) ->
            (forall i, (start <= i < start + len)%nat ->
                       nth_error S0 i = Some (Np.zeros2 n R)) ->
            length S1 = length S0 /\ rng1 = advance len rng0
            /\ forall i,
                ((start <= i < start + len)%nat ->
                 exists r, (r < R)%nat
                           /\ nth_error S1 i = Some (one_hot n R i r))
                /\ ((~ (start <= i < start + len)%nat) ->
                    nth_error S1 i = nth_error S0 i)).
  { induction len as [|len IH]; intros start S0 rng0 S1 rng1 E Hz.
    - cbn in E. injection E as <- <-. split; [reflexivity|].
      split; [unfold advance; rewrite Nat.add_0_r; now destruct rng0|].
      intro i. split; [lia|reflexivity].
    - cbn [seq foldM] in E. apply bind_ok in E.
      destruct E as ([S0' rng0'] & Eb & E).
      unfold body at 1 in Eb.
      apply bind_ok in Eb. destruct Eb as ([r rng2] & Er & Eb).
      apply bind_ok in Eb. destruct Eb as (S_i & Ei & Eb).
      apply bind_ok in Eb. destruct Eb as (S_i' & Es & Eb).
      injection Eb as <- <-.
      apply randint_spec in Er. destruct Er as [Hr ->].
      apply get_nth_error in Ei. rewrite Hz in Ei by lia.
      injection Ei as <-.
      apply set2_zeros in Es. destruct Es as (Hs & _ & ->).
      apply IH in E.
      2:{ intros i Hi. rewrite nth_error_set_nth.
          assert (Nat.eqb i start = false) as -> by (apply Nat.eqb_neq; lia).
          apply Hz. lia. }
      destruct E as (Hl & -> & Hi).
      split; [now rewrite Hl, length_set_nth|].
      split; [rewrite advance_advance; reflexivity|].
      intro i. destruct (Hi i) as [Hin Hout]. split.
      + intro Hr'. destruct (Nat.eq_dec i start) as [->|Hne].
        * exists r. split; [exact Hr|].
          rewrite Hout by lia. rewrite nth_error_set_nth, Nat.eqb_refl.
          rewrite Hz by lia. reflexivity.
        * apply Hin. lia.
      + intro Hr'. rewrite Hout by lia. rewrite nth_error_set_nth.
        assert (Nat.eqb i start = false) as -> by (apply Nat.eqb_neq; lia).
        reflexivity. }
  intro E. apply G in E.
  2:{ intros i Hi. rewrite nth_error_repeat.
      assert ((i <? n) = true) as -> by (apply Nat.ltb_lt; lia). reflexivity. }
  destruct E as (Hl & -> & Hi). rewrite repeat_length in Hl.
  split; [exact Hl|]. split; [|split; [|reflexivity]].
  - intros i Hlt. apply (proj1 (Hi i)). lia.
  - apply nth_error_ext. intro i. unfold Np.sum_last, identity.
    rewrite !nth_error_map, nth_error_seq_lt.
    destruct (Nat.ltb_spec i n) as [Hlt|Hge].
    + destruct (proj1 (Hi i) ltac:(lia)) as (r & Hr & Er).
      match goal with
      | |- context [option_map (map Np.sum1) ?t] =>
          assert (En : t = Some (one_hot n R i r)) by exact Er;
          rewrite En
      end.
      cbn [option_map]. now rewrite sum_last_one_hot.
    + match goal with
      | |- context [option_map (map Np.sum1) ?t] =>
          assert (En : t = None)
            by (apply nth_error_None;
                apply Nat.le_trans with n;
                [apply Nat.eq_le_incl; exact Hl | exact Hge]);
          rewrite En
      end.
      reflexivity.
Qed.

Lemma skipn_nth_error {A} (l : list A) : forall k a,
  nth_error l k = Some a -> skipn k l = a :: skipn (S k) l.
Proof.
  induction l as [|b l IH]; intros [|k] a E; cbn in *; try discriminate.
  - now injection E as <-.
  - now apply IH.
Qed.

Lemma spread_sum (resources r : nat) (row : list Z) :
  (r < resources)%nat ->
  map Np.sum1 (map (fun e => Np.set_nth (repeat 0%Z resources) r e) row) = row.
Proof.
  intro Hr. rewrite map_map. induction row as [|e row IH]; cbn; [reflexivity|].
  now rewrite sum1_set, IH.
Qed.

Lemma sum_last_snoc (x : Np.tensor) (c : Np.matrix) :
  Np.sum_last (x ++ [c]) = Np.sum_last x ++ [map Np.sum1 c].
Proof. unfold Np.sum_last. now rewrite map_app. Qed.

(** X20: when [generate_individual_with_resources] returns, the plan of
    the engine has an [N], which a caller has assigned to it, and the
    method has only spread the structure of [generate_individual] over the
    resources: summed over the resources, its answer is that structure
    again; it draws one more random number per component. *)
Theorem resources_keep_the_grouping
        (m : MOGA) (rng : Random.state) (x : Np.tensor)
        (rng' : Random.state) :
  MOGA.generate_individual_with_resources m rng = Ok (x, rng') ->
  exists n S_ rng1,
    Plan.N (MOGA.plan m) = Some n
    /\ MOGA.generate_individual m rng = Ok (S_, rng1)
    /\ Np.sum_last x = S_
    /\ length x = length S_
    /\ rng' = advance (length S_) rng1.
Proof.
  unfold MOGA.generate_individual_with_resources. intro E.
  apply bind_ok in E. destruct E as ([S_ rng1] & ES & E).
  assert (HN : exists n, Plan.N (MOGA.plan m) = Some n).
  { unfold MOGA.generate_individual in ES. apply bind_ok in ES.
    destruct ES as (n & En & _). exists n. now apply get_N_ok. }
  destruct HN as [n HN].
  exists n, S_, rng1. split; [exact HN|]. split; [exact ES|]. cbv zeta in E.
  apply bind_ok in E. destruct E as ([x1 rng2] & Ex & E).
  assert (x1 = x /\ rng2 = rng') as [-> ->].
  { destruct x1; [discriminate|]. now injection E. }
  clear E. revert Ex.
  set (R := System.resources (Plan.system (MOGA.plan m))).
  match goal with |- foldM ?f _ _ = _ -> _ => set (body := f) end.
  assert (G : forall len start (x0 : Np.tensor) rng0 x1 rng3,
            foldM body (seq start len) (x0, rng0) = Ok (x1, rng3) ->
            Np.sum_last x1
            = Np.sum_last x0 ++ firstn len (skipn start S_)
            /\ length x1 = (length x0 + len)%nat
            /\ rng3 = advance len rng0).
  { induction len as [|len IH]; intros start x0 rng0 x1 rng3 E.
    - cbn in E. injection E as <- <-. cbn. rewrite app_nil_r.
      split; [reflexivity|]. split; [symmetry; apply Nat.add_0_r|].
      unfold advance. rewrite Nat.add_0_r. now destruct rng0.
    - cbn [seq foldM] in E. apply bind_ok in E.
      destruct E as ([x0' rng0'] & Eb & E).
      unfold body at 1 in Eb.
      apply bind_ok in Eb. destruct Eb as (n' & _ & Eb).
      apply bind_ok in Eb. destruct Eb as ([r rng4] & Er & Eb).
      apply bind_ok in Eb. destruct Eb as (row & Ei & Eb).
      destruct (length row =? n'); [|discriminate].
      injection Eb as <- <-.
      apply randint_spec in Er. destruct Er as [Hr ->].
      apply get_nth_error in Ei.
      apply IH in E. destruct E as (E1 & E2 & E3).
      split; [|split].
      + etransitivity; [exact E1|].
        etransitivity; [apply (f_equal (fun l => l ++ _)), sum_last_snoc|].
        rewrite (spread_sum row Hr), <- app_assoc.
        rewrite (skipn_nth_error _ _ Ei). reflexivity.
      + etransitivity; [exact E2|]. rewrite length_app. cbn [length].
        rewrite <- Nat.add_assoc. reflexivity.
      + rewrite E3, advance_advance. reflexivity. }
  intro Ex. apply G in Ex. destruct Ex as (E1 & E2 & E3).
  cbn [skipn Np.sum_last map app length Nat.add] in E1, E2.
  rewrite firstn_all in E1. now repeat split.
Qed.

(** ** The groups of [generate_individual] *)

Lemma delete_incl {A} (l : list A) : forall k l',
  NpIdx.delete l k = Ok l' -> incl l' l.
Proof.
  induction l as [|a l IH]; intros [|k] l' E; cbn in E; try discriminate.
  - injection E as <-. intros x Hx. now right.
  - apply bind_ok in E. destruct E as (l'' & E1 & E). injection E as <-.
    intros x [<-|Hx]; [now left|right]. eapply IH; eauto.
Qed.

Lemma delete_middle {A} (l1 l2 : list A) (a : A) :
  NpIdx.delete (l1 ++ a :: l2) (length l1) = Ok (l1 ++ l2).
Proof.
  induction l1 as [|b l1 IH]; cbn; [reflexivity|]. now rewrite IH.
Qed.

Lemma foldM_app_eq {A B} (body : A -> B -> result A) (l1 l2 : list B) :
  forall acc,
    foldM body (l1 ++ l2) acc
    = (mid <- foldM body l1 acc ;; foldM body l2 mid).
Proof.
  induction l1 as [|b l1 IH]; intro acc; cbn; [reflexivity|].
  destruct (body acc b); cbn; [apply IH|reflexivity..].
Qed.

Lemma combine_seq_app {A} (l1 l2 : list A) : forall s,
  combine (seq s (length (l1 ++ l2))) (l1 ++ l2)
  = combine (seq s (length l1)) l1
    ++ combine (seq (s + length l1) (length l2)) l2.
Proof.
  induction l1 as [|a l1 IH]; intro s; cbn.
  - now rewrite Nat.add_0_r.
  - rewrite IH. now rewrite Nat.add_succ_r.
Qed.

Lemma drop_none (qj : nat) (l : list nat) : forall s (acc : list nat),
  ~ In qj l ->
  foldM (fun R' (kc : nat * nat) =>
           if (snd kc =? qj) then NpIdx.delete R' (fst kc) else Ok R')
        (combine (seq s (length l)) l) acc = Ok acc.
Proof.
  induction l as [|c l IH]; intros s acc Hn; cbn; [reflexivity|].
  assert ((c =? qj) = false) as ->.
  { apply Nat.eqb_neq. intros ->. apply Hn. now left. }
  cbn. apply IH. intro F. apply Hn. now right.
Qed.

Lemma drop_group_spec (R : list nat) (qj : nat) :
  NoDup R -> In qj R ->
  exists R', MOGA.drop_group R qj = Ok R' /\ NoDup R'
             /\ forall c, In c R' <-> In c R /\ c <> qj.
Proof.
  intros Hnd Hin. apply in_split in Hin. destruct Hin as (l1 & l2 & ->).
  pose proof (NoDup_remove_1 _ _ _ Hnd) as Hnd'.
  pose proof (NoDup_remove_2 _ _ _ Hnd) as Hni.
  exists (l1 ++ l2). split; [|split; [exact Hnd'|]].
  - unfold MOGA.drop_group. rewrite combine_seq_app, foldM_app_eq.
    rewrite drop_none by (intro F; apply Hni, in_app_iff; now left).
    cbn [bind length seq combine foldM snd fst]. rewrite Nat.eqb_refl.
    cbn [Nat.add]. rewrite delete_middle. cbn [bind].
    apply drop_none. intro F. apply Hni, in_app_iff. now right.
  - intro c. rewrite !in_app_iff. cbn [In]. split.
    + intros H. split; [tauto|]. intros ->. apply Hni, in_app_iff. tauto.
    + intros [[H|[H|H]] Hne]; auto. congruence.
Qed.

Lemma sum1_set_nth (l : list Z) : forall k v,
  (k < length l)%nat ->
  Np.sum1 (Np.set_nth l k v) = (Np.sum1 l - nth k l 0 + v)%Z.
Proof.
  induction l as [|a l IH]; intros [|k] v Hk; cbn in Hk; try lia;
    cbn [Np.set_nth nth]; rewrite !sum1_cons.
  - lia.
  - rewrite IH by lia. lia.
Qed.

Lemma nth_zero_row (n c : nat) : nth c (repeat 0%Z n) 0%Z = 0%Z.
Proof.
  revert c. induction n as [|n IH]; intros [|c]; cbn; try reflexivity.
  apply IH.
Qed.

Lemma nth_unit_row (n j c : nat) :
  (j < n)%nat -> nth c (unit_row n j) 0%Z = if c =? j then 1%Z else 0%Z.
Proof.
  unfold unit_row. revert j c. induction n as [|n IH]; intros j c Hj; [lia|].
  destruct j as [|j], c as [|c]; cbn [repeat Np.set_nth nth Nat.eqb];
    try reflexivity.
  - apply nth_zero_row.
  - apply IH. lia.
Qed.

Lemma group_size_set (n : nat) (S_ : Np.matrix) (k qj c : nat) :
  nth_error S_ k = Some (repeat 0%Z n) -> (qj < n)%nat ->
  group_size (Np.set_nth S_ k (unit_row n qj)) c
  = (group_size S_ c + if (c =? qj)%nat then 1 else 0)%Z.
Proof.
  intros Ek Hq. unfold group_size, Np.column.
  unfold Np.matrix, Np.vector in *.
  rewrite map_set_nth, sum1_set_nth.
  2:{ rewrite length_map. apply nth_error_Some. now rewrite Ek. }
  rewrite nth_unit_row by exact Hq.
  assert (nth k (map (fun row : list Z => nth c row 0%Z) S_) 0%Z = 0%Z) as ->.
  { erewrite nth_error_nth; [reflexivity|].
    rewrite nth_error_map, Ek. cbn. now rewrite nth_zero_row. }
  lia.
Qed.

Lemma set2_spec {A} (m : list (list A)) (i j : nat) (v : A) m' :
  NpIdx.set2 m i j v = Ok m' ->
  exists row, nth_error m i = Some row /\ (j < length row)%nat
              /\ m' = Np.set_nth m i (Np.set_nth row j v).
Proof.
  unfold NpIdx.set2. destruct (nth_error m i) as [row|]; [|discriminate].
  destruct (j <? length row) eqn:Ej; [|discriminate].
  intro E. injection E as <-. exists row. apply Nat.ltb_lt in Ej. auto.
Qed.

Lemma assign_spec (m : MOGA) (i : nat) (S_ : Np.matrix) (R : list nat)
      (n : nat) :
  forall Q rng S1 R' rng',
    MOGA.assign n m i S_ R Q rng = Ok (S1, R', rng') ->
    exists qj,
      In qj Q
      /\ NpIdx.set2 S_ i qj 1%Z = Ok S1
      /\ (((Z.of_nat (System.resources (Plan.system (MOGA.plan m)))
            <=? group_size S1 qj)%Z = true
           /\ MOGA.drop_group R qj = Ok R')
          \/ ((Z.of_nat (System.resources (Plan.system (MOGA.plan m)))
               <=? group_size S1 qj)%Z = false
              /\ R' = R)).
Proof.
  induction n as [|n IH]; intros Q rng S1 R' rng' E; cbn [MOGA.assign] in E;
    [discriminate|].
  apply bind_ok in E. destruct E as ([j rng1] & Ej & E).
  apply bind_ok in E. destruct E as (qj & Eq & E).
  apply bind_ok in E. destruct E as (S1' & Es & E).
  apply bind_ok in E. destruct E as (marks & _ & E).
  apply bind_ok in E. destruct E as (max_end & _ & E).
  apply bind_ok in E. destruct E as (min_begin & _ & E).
  apply get_nth_error, nth_error_In in Eq.
  destruct (Float.leb min_begin max_end).
  - apply bind_ok in E. destruct E as (R1 & ER & E).
    injection E as <- <- <-. exists qj. split; [exact Eq|].
    split; [exact Es|]. fold (group_size S1' qj) in ER.
    destruct (Z.of_nat _ <=? group_size S1' qj)%Z.
    + left. now split.
    + right. split; [reflexivity|]. now injection ER.
  - apply bind_ok in E. destruct E as (Q' & EQ & E).
    apply IH in E. destruct E as (qj' & Hq & H).
    exists qj'. split; [|exact H]. eapply delete_incl; eauto.
Qed.

Lemma assigned_step (m : MOGA) (n : nat) (k : nat) (S_ : Np.matrix)
      (R : list nat) (rng : Random.state) S1 R' rng' :
  let b := Z.max 1 (Z.of_nat (System.resources (Plan.system (MOGA.plan m)))) in
  (k < n)%nat ->
  assigned n b k S_ R ->
  MOGA.assign (S (length R)) m k S_ R R rng = Ok (S1, R', rng') ->
  assigned n b (S k) S1 R'.
Proof.
  intros b Hk [Hlen Hrest Hdone Hnd Hroom Hbound] E.
  apply assign_spec in E. destruct E as (qj & Hq & Es & HR).
  apply set2_spec in Es. destruct Es as (row & Er & Hj & ->).
  rewrite Hrest in Er by lia. injection Er as <-.
  rewrite repeat_length in Hj. fold (unit_row n qj) in *.
  assert (Hsize : forall c,
            group_size (Np.set_nth S_ k (unit_row n qj)) c
            = (group_size S_ c + if (c =? qj)%nat then 1 else 0)%Z).
  { intro c. apply group_size_set; [apply Hrest; lia|exact Hj]. }
  destruct (Hroom qj Hq) as [_ Hqroom].
  assert (Hget : forall i,
            nth_error (Np.set_nth S_ k (unit_row n qj)) i
            = if (i =? k)%nat then Some (unit_row n qj) else nth_error S_ i).
  { intro i. unfold Np.matrix, Np.vector in *.
    rewrite nth_error_set_nth, (Hrest k) by lia. reflexivity. }
  assert (Hb : forall c, (group_size (Np.set_nth S_ k (unit_row n qj)) c
                          <= b)%Z).
  { intro c. rewrite Hsize. specialize (Hbound c).
    destruct (Nat.eqb_spec c qj) as [->|]; lia. }
  constructor.
  - unfold Np.matrix, Np.vector in *. now rewrite length_set_nth.
  - intros i Hi. rewrite Hget.
    assert ((i =? k)%nat = false) as -> by (apply Nat.eqb_neq; lia).
    apply Hrest. lia.
  - intros i Hi. rewrite Hget. destruct (Nat.eqb_spec i k) as [->|Hne].
    + now exists qj.
    + apply Hdone. lia.
  - destruct HR as [[_ HR]|[_ ->]]; [|exact Hnd].
    destruct (drop_group_spec qj Hnd Hq) as (R2 & E2 & Hnd2 & _).
    congruence.
  - intros c Hc. rewrite Hsize.
    destruct HR as [[_ HR]|[Hfull ->]].
    + destruct (drop_group_spec qj Hnd Hq) as (R2 & E2 & _ & Hin2).
      assert (R2 = R') by congruence. subst R2.
      apply Hin2 in Hc. destruct Hc as [Hc Hne].
      apply Nat.eqb_neq in Hne. rewrite Hne.
      destruct (Hroom c Hc). split; [assumption|lia].
    + destruct (Hroom c Hc) as [Hcn Hcb]. split; [exact Hcn|].
      destruct (Nat.eqb_spec c qj) as [->|]; [|lia].
      apply Z.leb_gt in Hfull. rewrite Hsize, Nat.eqb_refl in Hfull.
      unfold b. lia.
  - exact Hb.
Qed.

Lemma fold_left_add_zeros (l : list Z) :
  Forall (fun z => z = 0%Z) l -> Np.sum1 l = 0%Z.
Proof.
  induction 1 as [|z l -> _ IH]; [reflexivity|]. now rewrite sum1_cons, IH.
Qed.

Lemma assigned_start (n : nat) (b : Z) :
  (1 <= b)%Z -> assigned n b 0 (Np.zeros2 n n) (seq 0 n).
Proof.
  intro Hb.
  assert (Hz : forall c, group_size (Np.zeros2 n n) c = 0%Z).
  { intro c. unfold group_size, Np.column, Np.zeros2.
    apply fold_left_add_zeros. apply Forall_forall. intros z Hz.
    apply in_map_iff in Hz. destruct Hz as (row & <- & Hrow).
    apply repeat_spec in Hrow. subst row. apply nth_zero_row. }
  constructor.
  - unfold Np.zeros2. apply repeat_length.
  - intros i Hi. unfold Np.zeros2. rewrite nth_error_repeat.
    assert ((i <? n) = true) as -> by (apply Nat.ltb_lt; lia). reflexivity.
  - intros i Hi. lia.
  - apply seq_NoDup.
  - intros c Hc. apply in_seq in Hc. rewrite Hz. split; lia.
  - intro c. rewrite Hz. lia.
Qed.

(** X21: when [generate_individual] returns a structure, the plan of the
    engine has an [N], which a caller has assigned to it; the structure has
    [N] rows, every component is assigned to exactly one group, and no
    group has more members than the system has resources (than 1, for a
    system without resource). *)
Theorem generate_individual_respects_the_resources
        (m : MOGA) (rng : Random.state) (S_ : Np.matrix)
        (rng' : Random.state) :
  MOGA.generate_individual m rng = Ok (S_, rng') ->
  exists n,
    Plan.N (MOGA.plan m) = Some n
    /\ length S_ = n
    /\ (forall i, (i < n)%nat ->
          exists j, (j < n)%nat /\ nth_error S_ i = Some (unit_row n j))
    /\ forall c,
         (group_size S_ c
          <= Z.max 1
               (Z.of_nat (System.resources (Plan.system (MOGA.plan m)))))%Z.
Proof.
  unfold MOGA.generate_individual. intro E.
  apply bind_ok in E. destruct E as (n & En & E). apply get_N_ok in En.
  exists n. split; [exact En|]. clear En. revert E.
  set (b := Z.max 1 _).
  intro E. apply bind_ok in E. destruct E as ([[S1 R1] rng1] & E & Er).
  injection Er as <- <-. revert E.
  match goal with |- foldM ?f _ _ = _ -> _ => set (body := f) end.
  assert (G : forall len start (st st' : Np.matrix * list nat * Random.state),
            foldM body (seq start len) st = Ok st' ->
            (start + len <= n)%nat ->
            assigned n b start (fst (fst st)) (snd (fst st)) ->
            assigned n b (start + len) (fst (fst st')) (snd (fst st'))).
  { induction len as [|len IH]; intros start st st' E Hle Hst.
    - cbn in E. injection E as <-. now rewrite Nat.add_0_r.
    - cbn [seq foldM] in E. apply bind_ok in E.
      destruct E as (st1 & Eb & E).
      apply IH in E; [now rewrite Nat.add_succ_r| lia |].
      destruct st as [[S0 R0] rng0], st1 as [[S2 R2] rng2].
      unfold body in Eb. cbn [fst snd] in *.
      eapply assigned_step; [|exact Hst|exact Eb]. lia. }
  intro E. apply G in E; [|lia|apply assigned_start; unfold b; lia].
  cbn [fst snd Nat.add] in E. destruct E as [H1 _ H3 _ _ H6].
  split; [exact H1|]. split; [exact H3|exact H6].
Qed.

Lemma fold_min_spec (l : list float) (x : float) :
  let m := fold_left (fun m y => if Float.ltb y m then y else m) l x in
  forall y, In y (x :: l) -> m <= y.
Proof.
  revert x. induction l as [|z l IH]; intros x; cbn.
  - intros y [<-|[]]. apply Qle_refl.
  - intros y Hy. destruct (Float.ltb z x) eqn:E.
    + apply ltb_lt in E.
      destruct Hy as [<-|[<-|Hy]].
      * apply Qle_trans with z; [apply (@IH z); now left|now apply Qlt_le_weak].
      * apply (@IH z); now left.
      * apply (@IH z); now right.
    + apply ltb_ge in E.
      destruct Hy as [<-|[<-|Hy]].
      * apply (@IH x); now left.
      * apply Qle_trans with x; [apply (@IH x); now left|exact E].
      * apply (@IH x); now right.
Qed.

Lemma mapM_Forall2 {A B} (f : A -> result B) (l : list A) :
  forall r, mapM f l = Ok r -> Forall2 (fun a b => f a = Ok b) l r.
Proof.
  induction l as [|a l IH]; intros r E; cbn in E.
  - injection E as <-. constructor.
  - apply bind_ok in E. destruct E as (b & Eb & E).
    apply bind_ok in E. destruct E as (bs & Ebs & E).
    injection E as <-. constructor; [exact Eb|now apply IH].
Qed.

Lemma Forall2_in_r {A B} (R : A -> B -> Prop) (l : list A) (l' : list B) :
  Forall2 R l l' -> forall b, In b l' -> exists a, In a l /\ R a b.
Proof.
  induction 1 as [|a b l l' Hab _ IH]; intros b' Hb; [destruct Hb|].
  destruct Hb as [<-|Hb].
  - exists a. split; [now left|exact Hab].
  - destruct (IH b' Hb) as (a' & Ha' & HR). exists a'. split; [now right|exact HR].
Qed.

Lemma assign_first (m : MOGA) (i : nat) (S_ : Np.matrix) (R Q : list nat)
      (n : nat) (rng : Random.state) S1 R' rng' :
  (forall a, In a (Plan.activities (MOGA.plan m)) -> 0 <= Activity.d a) ->
  MOGA.assign n m i S_ R Q rng = Ok (S1, R', rng') ->
  rng' = advance 1 rng.
Proof.
  intros Hd E. destruct n as [|n]; cbn [MOGA.assign] in E; [discriminate|].
  apply bind_ok in E. destruct E as ([j rng1] & Ej & E).
  apply bind_ok in E. destruct E as (qj & Eq & E).
  apply bind_ok in E. destruct E as (S1' & Es & E).
  apply bind_ok in E. destruct E as (marks & Em & E).
  apply randint_spec in Ej. destruct Ej as [_ ->].
  set (components := map fst (filter _ marks)) in E.
  apply bind_ok in E. destruct E as (max_end & Emax & E).
  apply bind_ok in E. destruct E as (min_begin & Emin & E).
  assert (Hc : forall c, In c components -> 0 <= Activity.d c).
  { intros c Hc. apply Hd. unfold components in Hc.
    apply in_map_iff in Hc. destruct Hc as ([c' e] & <- & Hc).
    apply filter_In in Hc. destruct Hc as [Hc _].
    apply mapM_Forall2 in Em.
    destruct (Forall2_in_r Em _ Hc) as ([k a] & Hka & Ea).
    cbn [fst snd] in Ea.
    apply bind_ok in Ea. destruct Ea as (row & _ & Ea).
    apply bind_ok in Ea. destruct Ea as (e' & _ & Ea).
    injection Ea as <- _. cbn. eapply in_combine_r; eauto. }
  assert (Hle : Float.leb min_begin max_end = true).
  { apply leb_le. destruct components as [|c0 cs]; [discriminate|].
    cbn [map Float.max NpIdx.min] in Emax, Emin.
    injection Emax as <-. injection Emin as <-.
    apply Qle_trans with (Activity.t c0).
    - apply (@fold_min_spec (map Activity.t cs) (Activity.t c0)). now left.
    - apply Qle_trans with (Float.add (Activity.t c0) (Activity.d c0)).
      + apply Qle_trans with (Activity.t c0 + Activity.d c0).
        * specialize (Hc c0 (or_introl eq_refl)). lra.
        * apply Qeq_le, Qeq_sym, add_correct.
      + apply (fold_max_spec
                 (map (fun c => Float.add (Activity.t c) (Activity.d c)) cs)
                 (Float.add (Activity.t c0) (Activity.d c0))).
        now left. }
  rewrite Hle in E.
  apply bind_ok in E. destruct E as (R1 & _ & E). now injection E.
Qed.

(** X22: when no activity has a negative duration the date test of
    [generate_individual] rejects no group: a structure that is returned,
    which takes a plan with an [N] that a caller has assigned to it, is
    built with exactly one random draw per component, [N] draws in all. *)
Theorem generate_individual_accepts_the_first_group
        (m : MOGA) (rng : Random.state) (S_ : Np.matrix)
        (rng' : Random.state) :
  (forall a, In a (Plan.activities (MOGA.plan m)) -> 0 <= Activity.d a) ->
  MOGA.generate_individual m rng = Ok (S_, rng') ->
  exists n, Plan.N (MOGA.plan m) = Some n /\ rng' = advance n rng.
Proof.
  intro Hd. unfold MOGA.generate_individual. intro E.
  apply bind_ok in E. destruct E as (n & En & E). apply get_N_ok in En.
  exists n. split; [exact En|]. clear En.
  apply bind_ok in E. destruct E as ([[S1 R1] rng1] & E & Er).
  injection Er as _ <-. revert E.
  match goal with |- foldM ?f _ _ = _ -> _ => set (body := f) end.
  assert (G : forall (l : list nat)
                     (st st' : Np.matrix * list nat * Random.state),
            foldM body l st = Ok st' ->
            snd st' = advance (length l) (snd st)).
  { induction l as [|i l IH]; intros st st' E.
    - cbn in E. injection E as <-. unfold advance. cbn.
      rewrite Nat.add_0_r. now destruct (snd st).
    - cbn [foldM] in E. apply bind_ok in E.
      destruct E as (st1 & Eb & E). apply IH in E. rewrite E.
      destruct st as [[S0 R0] rng0], st1 as [[S2 R2] rng2].
      unfold body in Eb. cbn [snd]. apply (@assign_first _ _ _ _ _ _ _ _ _ _ Hd) in Eb.
      subst rng2. now rewrite advance_advance. }
  intro E. apply G in E. cbn [snd] in E. now rewrite length_seq in E.
Qed.

Lemma mutate_with_no_probability_keeps_the_structure_witness :
  Individual.mutate keep_graph count_nodes 50 lone_individual 0 zero_draws
  = (p' <- Plan.init keep_graph count_nodes 50 (Plan.activities lone_plan)
             (Plan.system lone_plan) (Some [[[1%Z]]]) ;;
     Ok (Individual.init p', advance 1 zero_draws)).
Proof.
  exact (@mutate_with_no_probability_keeps_the_structure keep_graph
           count_nodes 50 lone_individual 0 zero_draws [[[1%Z]]]
           (Qle_refl 0) eq_refl).
Defined.

Lemma split_mutation :
  exists r,
    Individual.mutate_component counted_plan 1 (split_structure, zero_draws) 0
    = Ok r.
Proof. vm_compute. eexists. reflexivity. Qed.

Lemma mutate_component_moves_to_a_feasible_group_witness :
  exists x' rng' j r,
    Individual.mutate_component counted_plan 1 (split_structure, zero_draws) 0
    = Ok (x', rng')
    /\ x' = Np.set_nth split_structure 0 (one_hot 2 2 j r)
    /\ rng' = advance 3 zero_draws.
Proof.
  destruct split_mutation as [[x' rng'] E].
  destruct (@mutate_component_moves_to_a_feasible_group counted_plan 1
              split_structure zero_draws 0 x' rng'
              ltac:(vm_compute; reflexivity) E)
    as (n & x_i & g_id & j & r & x_i' & En & Ei & _ & _ & _ & _ & _ & _ & _
        & _ & Ex & Hs & _ & Er).
  change (Some 2%nat = Some n) in En. injection En as <-.
  change (Ok [[1; 0]; [0; 0]]%Z = Ok x_i) in Ei. injection Ei as <-.
  rewrite (Hs eq_refl eq_refl) in Ex.
  exists x', rng', j, r. auto.
Defined.

Lemma random_assignment_matrix_is_one_hot_witness :
  exists sgm,
    generate_random_assignment_matrix two_plan mixed_draws
    = Ok (sgm, advance 4 mixed_draws)
    /\ length sgm = 2%nat.
Proof.
  destruct (@random_assignment_matrix_is_one_hot two_plan mixed_draws
              (le_S 1 1 (le_n 1)) (le_S 1 1 (le_n 1)))
    as (sgm & E & Hl & _).
  exists sgm. auto.
Defined.

Lemma random_assignment_matrix_needs_a_resource_witness :
  generate_random_assignment_matrix idle_plan mixed_draws = Raise ValueError.
Proof.
  exact (@random_assignment_matrix_needs_a_resource idle_plan mixed_draws
           (or_intror eq_refl)).
Defined.

Lemma two_singletons :
  exists r, MOGA.singleton_structure two_moga mixed_draws = Ok r.
Proof. vm_compute. eexists. reflexivity. Qed.

Lemma singleton_structure_separates_the_activities_witness :
  exists S_ rng',
    MOGA.singleton_structure two_moga mixed_draws = Ok (S_, rng')
    /\ Np.sum_last S_ = identity 2.
Proof.
  destruct two_singletons as [[S_ rng'] E]. exists S_, rng'.
  split; [exact E|].
  destruct (@singleton_structure_separates_the_activities _ _ _ _ E)
    as (n & En & _ & _ & Hs & _).
  change (Some 2%nat = Some n) in En. injection En as <-. exact Hs.
Defined.

Lemma two_with_resources :
  exists r,
    MOGA.generate_individual_with_resources two_moga mixed_draws = Ok r.
Proof. vm_compute. eexists. reflexivity. Qed.

Lemma resources_keep_the_grouping_witness :
  exists x rng' S_ rng1,
    MOGA.generate_individual_with_resources two_moga mixed_draws
    = Ok (x, rng')
    /\ MOGA.generate_individual two_moga mixed_draws = Ok (S_, rng1)
    /\ Np.sum_last x = S_.
Proof.
  destruct two_with_resources as [[x rng'] E].
  destruct (@resources_keep_the_grouping _ _ _ _ E)
    as (n & S_ & rng1 & _ & ES & Hs & _).
  exists x, rng', S_, rng1. auto.
Defined.

Lemma two_groups :
  exists r, MOGA.generate_individual two_moga mixed_draws = Ok r.
Proof. vm_compute. eexists. reflexivity. Qed.

Lemma generate_individual_respects_the_resources_witness :
  exists S_ rng',
    MOGA.generate_individual two_moga mixed_draws = Ok (S_, rng')
    /\ forall c, (group_size S_ c <= 2)%Z.
Proof.
  destruct two_groups as [[S_ rng'] E]. exists S_, rng'.
  split; [exact E|].
  destruct (@generate_individual_respects_the_resources _ _ _ _ E)
    as (n & _ & _ & _ & Hc).
  exact Hc.
Defined.

Lemma generate_individual_accepts_the_first_group_witness :
  exists S_,
    MOGA.generate_individual two_moga mixed_draws
    = Ok (S_, advance 2 mixed_draws).
Proof.
  destruct two_groups as [[S_ rng'] E]. exists S_.
  destruct (@generate_individual_accepts_the_first_group two_moga mixed_draws
              S_ rng') as (n & En & Hr); [|exact E|].
  - intros a [<-|[<-|[]]]; discriminate.
  - change (Some 2%nat = Some n) in En. injection En as <-.
    rewrite E, Hr. reflexivity.
Defined.

(** ** The offspring of a population *)

Lemma mutate_rank cap mf fuel ind pm rng o rng' :
  Individual.mutate cap mf fuel ind pm rng = Ok (o, rng') ->
  Individual.rank o = 0%Z.
Proof.
  unfold Individual.mutate.
  destruct (Plan.grouping_structure (Individual.plan ind)); [|discriminate].
  intro E. apply bind_ok in E. destruct E as ([x' r1] & _ & E).
  apply bind_ok in E. destruct E as (p' & _ & E).
  now injection E as <- _.
Qed.

Lemma mutation_new_unranked cap mf fuel (m : MOGA) (P : list ref) h rng st :
  MOGA.mutation cap mf fuel m P h rng = Ok st ->
  new_unranked h st /\ length (fst (fst st)) = length P.
Proof.
  unfold MOGA.mutation. intro E. split.
  - refine (@foldM_inv _ _ (new_unranked h) _ _ _ _ _ _ E).
    + intros [[l g] s] p [[l' g'] s'] _ (Hnd & Hn & Hin & Hfr) Eb.
      apply bind_ok in Eb. destruct Eb as ([o s''] & Eo & Eb).
      apply mutate_rank in Eo. cbn in Eb. injection Eb as <- <- <-.
      cbn. split; [|split; [|split]].
      * apply NoDup_app; [exact Hnd|repeat constructor; intros []|].
        intros a Ha [<-|[]]. apply Hin in Ha. lia.
      * rewrite length_app. cbn. lia.
      * intros r Hr. apply in_app_iff in Hr. unfold Heap.get. cbn.
        destruct Hr as [Hr|[<-|[]]].
        -- destruct (Hin r Hr) as [Hr1 Hr2]. split; [lia|].
           assert (En : Nat.eqb r (Heap.next g) = false)
             by (apply Nat.eqb_neq; lia).
           rewrite En. exact Hr2.
        -- split; [lia|]. now rewrite Nat.eqb_refl.
      * intros r Hr. unfold Heap.get at 1. cbn.
        assert (En : Nat.eqb r (Heap.next g) = false)
          by (apply Nat.eqb_neq; lia).
        rewrite En. now apply Hfr.
    + cbn. split; [constructor|]. split; [lia|].
      split; [intros r []|reflexivity].
  - apply (foldM_count (fun st : list ref * Heap * Random.state =>
                          length (fst (fst st)))) in E; [exact E|].
    intros [[l g] s] b a' Eb. apply bind_ok in Eb.
    destruct Eb as ([o s''] & _ & Eb). cbn in Eb. injection Eb as <-.
    cbn. rewrite length_app. cbn. lia.
Qed.

(** X23: [mutation] returns one offspring per parent; the offspring are
    new objects, all different, of rank 0, and no object that existed before
    is changed. *)
Theorem mutation_allocates_one_offspring_per_parent
        (from_node_to_edge_capacity : System -> DiGraph -> DiGraph)
        (maximum_flow_value :
           DiGraph -> String.string -> String.string -> float)
        (fuel : nat) (m : MOGA) (parents : list ref) (h : Heap)
        (rng : Random.state) (offspring : list ref) (h1 : Heap)
        (rng1 : Random.state) :
  MOGA.mutation from_node_to_edge_capacity maximum_flow_value fuel
    m parents h rng = Ok (offspring, h1, rng1) ->
  length offspring = length parents
  /\ NoDup offspring
  /\ Heap.next h1 = (Heap.next h + length parents)%nat
  /\ (forall r, In r offspring ->
        (Heap.next h <= r < Heap.next h1)%nat
        /\ Individual.rank (Heap.get h1 r) = 0%Z)
  /\ forall r, (r < Heap.next h)%nat -> Heap.get h1 r = Heap.get h r.
Proof.
  intro E. destruct (mutation_new_unranked _ _ _ _ _ _ _ E)
    as [(Hnd & Hn & Hin & Hfr) Hl].
  cbn in Hl. rewrite Hl in Hn. tauto.
Qed.

(** ** The selection of the next population *)

Section Selection.

Variable crowd : list ref -> Heap -> result (list ref * Heap).
Hypothesis crowd_ok : crowding_ok crowd.

Lemma select_length (m : MOGA) (fronts : list (list ref)) :
  forall P h P' h',
    (length P <= MOGA.init_pop_size m)%nat ->
    MOGA.select crowd m fronts P h = Ok (P', h') ->
    length P' = Nat.min (MOGA.init_pop_size m)
                        (length P + length (concat fronts)).
Proof.
  induction fronts as [|f fronts IH]; intros P h P' h' HP E; simpl in E.
  - injection E as <- <-. simpl. lia.
  - apply bind_ok in E. destruct E as ([f' h1] & Ec & E).
    destruct (crowd_ok Ec) as (Hperm & _).
    apply Permutation_length in Hperm.
    simpl concat. rewrite length_app.
    destruct (length P + length f' <? MOGA.init_pop_size m)%nat eqn:El.
    + apply Nat.ltb_lt in El. apply IH in E.
      * rewrite E, length_app. lia.
      * rewrite length_app. lia.
    + apply Nat.ltb_ge in El. injection E as <- <-.
      rewrite length_app, length_firstn. lia.
Qed.

Lemma select_elitist (m : MOGA) (fronts : list (list ref)) :
  forall P h P' h',
    MOGA.select crowd m fronts P h = Ok (P', h') ->
    NoDup (P ++ concat fronts) ->
    incl P P' /\ elitist fronts P'.
Proof.
  induction fronts as [|f fronts IH]; intros P h P' h' E Hnd; simpl in E.
  - injection E as <- <-. split; [apply incl_refl|].
    intros k fk r Hk. destruct k; discriminate.
  - apply bind_ok in E. destruct E as ([f' h1] & Ec & E).
    destruct (crowd_ok Ec) as (Hperm & _).
    destruct (length P + length f' <? MOGA.init_pop_size m)%nat.
    + apply IH in E.
      2:{ eapply Permutation_NoDup; [|exact Hnd]. simpl.
          rewrite <- app_assoc. apply Permutation_app_head.
          apply Permutation_app_tail. now apply Permutation_sym. }
      destruct E as [Hi He]. split.
      * intros x Hx. apply Hi, in_app_iff. now left.
      * intros k fk r Hk Hr HP k' fk' r' Hlt Hk' Hr'.
        destruct k as [|k]; [lia|]. simpl in Hk.
        destruct k' as [|k'].
        -- simpl in Hk'. injection Hk' as <-.
           apply Hi, in_app_iff. right.
           eapply Permutation_in; [apply Permutation_sym, Hperm|exact Hr'].
        -- simpl in Hk'. apply (He k fk r Hk Hr HP k' fk' r'); [lia|auto..].
    + injection E as <- <-. split.
      * intros x Hx. apply in_app_iff. now left.
      * intros k fk r Hk Hr HP k' fk' r' Hlt Hk' Hr'.
        destruct k as [|k]; [lia|]. simpl in Hk. exfalso.
        assert (Hc : In r (concat fronts)) by (eapply in_front; eauto).
        simpl in Hnd. rewrite app_assoc in Hnd.
        apply (@NoDup_app_disjoint _ _ Hnd r Hc).
        apply in_app_iff in HP. apply in_app_iff.
        destruct HP as [HP|HP]; [now left|right].
        eapply Permutation_in; [exact Hperm|]. eapply in_firstn; eauto.
Qed.

End Selection.

(** X24: the loop over the fronts of [run] selects [init_pop_size]
    individuals, or all of them when the fronts hold fewer; it selects no
    individual twice, none from outside the fronts, and no member of a front
    unless all the members of the earlier fronts are selected.  The missing
    [_crowding_distance] may be any function that returns the front in
    another order. *)
Theorem selection_fills_and_is_elitist
        (crowd : list ref -> Heap -> result (list ref * Heap))
        (m : MOGA) (fronts : list (list ref)) (h : Heap)
        (P' : list ref) (h' : Heap) :
  crowding_ok crowd -> NoDup (concat fronts) ->
  MOGA.select crowd m fronts [] h = Ok (P', h') ->
  length P' = Nat.min (MOGA.init_pop_size m) (length (concat fronts))
  /\ NoDup P'
  /\ incl P' (concat fronts)
  /\ elitist fronts P'.
Proof.
  intros Hc Hnd E.
  destruct (@select_spec crowd Hc m fronts [] h P' h' E) as (Hi & Hn & _).
  destruct (@select_elitist crowd Hc m fronts [] h P' h' E Hnd) as [_ He].
  split; [|split; [|split]].
  - apply (@select_length crowd Hc m fronts [] h P' h'); [simpl; lia|exact E].
  - now apply Hn.
  - exact Hi.
  - exact He.
Qed.

(** X25: the assertion [len(P) == init_pop_size] of [run] holds in every
    generation that reaches it: from a population of distinct individuals
    that holds at least half of [init_pop_size], once the mutation, the sort
    and the selection have returned, the generation records a population of
    [init_pop_size] distinct individuals taken from the parents and their
    offspring.  The missing sort may be any function whose fronts hold the
    individuals it is given. *)
Theorem generation_keeps_the_population_size
        (from_node_to_edge_capacity : System -> DiGraph -> DiGraph)
        (maximum_flow_value :
           DiGraph -> String.string -> String.string -> float)
        (fuel : nat)
        (sort : list ref -> Heap -> result (list (list ref) * Heap))
        (crowd : list ref -> Heap -> result (list ref * Heap))
        (m : MOGA) (P : list ref) (h : Heap) (rng : Random.state) (i : nat)
        (Q : list ref) (h1 : Heap) (rng1 : Random.state)
        (fronts : list (list ref)) (h2 : Heap) (P' : list ref) (h3 : Heap) :
  crowding_ok crowd ->
  (forall pop g fs g', NoDup pop -> sort pop g = Ok (fs, g') ->
                       Permutation (concat fs) pop) ->
  NoDup P -> (forall r, In r P -> (r < Heap.next h)%nat) ->
  (MOGA.init_pop_size m <= 2 * length P)%nat ->
  MOGA.mutation from_node_to_edge_capacity maximum_flow_value fuel
    m P h rng = Ok (Q, h1, rng1) ->
  sort (P ++ Q) h1 = Ok (fronts, h2) ->
  MOGA.select crowd m fronts [] h2 = Ok (P', h3) ->
  MOGA.generation from_node_to_edge_capacity maximum_flow_value fuel
    sort crowd (m, P, h, rng) i
  = Ok (MOGA.record_population m P', P', h3, rng1)
  /\ length P' = MOGA.init_pop_size m
  /\ NoDup P'
  /\ incl P' (P ++ Q).
Proof.
  intros Hc Hsort HP Halloc Hsize Em Es Esel.
  destruct (mutation_new_unranked _ _ _ _ _ _ _ Em)
    as [(Hnd & Hn & Hin & Hfr) Hl]. cbn in Hl.
  assert (HPQ : NoDup (P ++ Q)).
  { apply NoDup_app; [exact HP|exact Hnd|].
    intros a Ha HQ. apply Halloc in Ha. apply Hin in HQ. lia. }
  pose proof (Hsort _ _ _ _ HPQ Es) as Hperm.
  assert (Hf : NoDup (concat fronts))
    by (eapply Permutation_NoDup; [apply Permutation_sym, Hperm|exact HPQ]).
  destruct (@select_spec crowd Hc m fronts [] h2 P' h3 Esel) as (Hi & Hn' & _).
  assert (Hlen : length P' = MOGA.init_pop_size m).
  { rewrite (@select_length crowd Hc m fronts [] h2 P' h3); [|cbn; lia|exact Esel].
    rewrite (Permutation_length Hperm), length_app, Hl. cbn. lia. }
  split; [|split; [exact Hlen|split]].
  - unfold MOGA.generation. rewrite Em. cbn [bind]. rewrite Es. cbn [bind].
    rewrite Esel. cbn [bind]. rewrite Hlen, Nat.eqb_refl. reflexivity.
  - now apply Hn'.
  - intros x Hx. apply Hi in Hx. eapply Permutation_in; [exact Hperm|exact Hx].
Qed.

Lemma two_distinct : NoDup [0; 1]%nat.
Proof. repeat constructor; simpl; intuition discriminate. Qed.

Lemma still_mutation :
  exists r,
    MOGA.mutation keep_graph count_nodes 50 still_moga [0; 1]%nat two_scores
      zero_draws = Ok r.
Proof. vm_compute. eexists. reflexivity. Qed.

Lemma mutation_allocates_one_offspring_per_parent_witness :
  exists offspring h1 rng1,
    MOGA.mutation keep_graph count_nodes 50 still_moga [0; 1]%nat two_scores
      zero_draws = Ok (offspring, h1, rng1)
    /\ length offspring = 2%nat
    /\ NoDup offspring.
Proof.
  destruct still_mutation as [[[Q h1] rng1] E]. exists Q, h1, rng1.
  split; [exact E|].
  destruct (@mutation_allocates_one_offspring_per_parent _ _ _ _ _ _ _ _ _ _ E)
    as (Hl & Hnd & _).
  split; [exact Hl|exact Hnd].
Defined.

Lemma three_selection :
  exists r,
    MOGA.select Missing._crowding_distance still_moga [[0; 1]; [2]]%nat []
      three_scores = Ok r.
Proof. vm_compute. eexists. reflexivity. Qed.

Lemma selection_fills_and_is_elitist_witness :
  exists P' h',
    MOGA.select Missing._crowding_distance still_moga [[0; 1]; [2]]%nat []
      three_scores = Ok (P', h')
    /\ length P' = 2%nat.
Proof.
  destruct three_selection as [[P' h'] E]. exists P', h'.
  split; [exact E|].
  exact (proj1 (@selection_fills_and_is_elitist Missing._crowding_distance
                  still_moga [[0; 1]; [2]]%nat three_scores P' h'
                  missing_crowding_ok three_distinct E)).
Defined.

Lemma still_generation :
  exists r,
    MOGA.generation keep_graph count_nodes 50 Missing.fast_non_dominated_sort
      Missing._crowding_distance
      (still_moga, [0; 1]%nat, two_scores, zero_draws) 0 = Ok r.
Proof. vm_compute. eexists. reflexivity. Qed.

Lemma generation_steps cap mf fuel sort crowd m P h rng i st' :
  MOGA.generation cap mf fuel sort crowd (m, P, h, rng) i = Ok st' ->
  exists Q h1 rng1 fronts h2 P' h3,
    MOGA.mutation cap mf fuel m P h rng = Ok (Q, h1, rng1)
    /\ sort (P ++ Q) h1 = Ok (fronts, h2)
    /\ MOGA.select crowd m fronts [] h2 = Ok (P', h3).
Proof.
  intro E. unfold MOGA.generation in E.
  apply bind_ok in E. destruct E as ([[Q h1] rng1] & Em & E).
  apply bind_ok in E. destruct E as ([fronts h2] & Es & E).
  apply bind_ok in E. destruct E as ([P' h3] & Esel & _).
  exists Q, h1, rng1, fronts, h2, P', h3. auto.
Qed.

Lemma generation_keeps_the_population_size_witness :
  exists P' h3 rng1,
    MOGA.generation keep_graph count_nodes 50 Missing.fast_non_dominated_sort
      Missing._crowding_distance
      (still_moga, [0; 1]%nat, two_scores, zero_draws) 0
    = Ok (MOGA.record_population still_moga P', P', h3, rng1)
    /\ length P' = MOGA.init_pop_size still_moga.
Proof.
  destruct still_generation as [st' E].
  destruct (@generation_steps _ _ _ _ _ _ _ _ _ _ _ E)
    as (Q & h1 & rng1 & fronts & h2 & P' & h3 & Em & Es & Esel).
  exists P', h3, rng1.
  refine (let H := @generation_keeps_the_population_size keep_graph
                     count_nodes 50 Missing.fast_non_dominated_sort
                     Missing._crowding_distance still_moga [0; 1]%nat
                     two_scores zero_draws 0 Q h1 rng1 fronts h2 P' h3
                     missing_crowding_ok _ two_distinct _ _ Em Es Esel in
          conj (proj1 H) (proj1 (proj2 H))).
  - intros pop g fs g' Hnd Hs.
    exact (proj1 (@missing_sort_spec pop g fs g' Hnd Hs)).
  - intros r [<-|[<-|[]]]; vm_compute; lia.
  - vm_compute. lia.
Defined.

(** ** A group at its optimum *)

Lemma div_reduced (x y q : float) : Float.div x y = Ok q -> Qred q = q.
Proof.
  unfold Float.div. destruct (Qeq_bool y 0); [discriminate|].
  intro E. assert (Hq : q = Qred (x / y)) by congruence.
  rewrite Hq. apply Qred_complete, Qred_correct.
Qed.

(** X26: a group whose mean date is already stationary stays there: when
    the derivative [dH] is null at the mean of the dates and the second
    derivative is not, [minimize] leaves its loop after one step, sets every
    date to the mean and stores [H] at the mean. *)
Theorem minimize_keeps_a_stationary_mean
        (fuel : nat) (g : Group) (x0 num den ic : float) :
  Group.mean g = Ok x0 ->
  Group.dH g x0 = Ok num -> num == 0 ->
  Group.ddH g x0 = Ok den -> ~ den == 0 ->
  Group.H g x0 = Ok ic ->
  Group.minimize (S fuel) g
  = Ok (Group.mk (map (fun a => Activity.set_t a x0) (Group.activities g))
                 (Group.size g) (Some ic)).
Proof.
  intros Em Ed Hnum Edd Hden EH. unfold Group.minimize. rewrite Em.
  cbn [bind Group.newton].
  assert (Float.gtb Group.diff0 Group.tolerance = true) as -> by reflexivity.
  change (Group.last1 [x0]) with x0. rewrite Ed, Edd. cbn [bind].
  assert (Eq : Float.div num den = Ok 0).
  { unfold Float.div.
    destruct (Qeq_bool den 0) eqn:E0; [now apply Qeq_bool_eq in E0|].
    f_equal. apply Qred_zero. rewrite Hnum. field. exact Hden. }
  rewrite Eq. cbn [bind].
  assert (Ex : Float.sub x0 0 = x0).
  { unfold Float.sub. rewrite <- (@div_reduced _ _ _ Em) at 2.
    apply Qred_complete. ring. }
  rewrite Ex. cbn [app].
  change (Group.last2 [x0; x0]) with x0. change (Group.last1 [x0; x0]) with x0.
  assert (Hg : Float.gtb (Float.sub x0 x0) Group.tolerance = false).
  { apply gtb_false. unfold Float.sub.
    assert (Qred (x0 - x0) = 0) as -> by (apply Qred_zero; ring).
    discriminate. }
  destruct fuel; cbn [Group.newton]; rewrite Hg; cbn [bind];
    change (Group.last1 [x0; x0]) with x0; rewrite EH; reflexivity.
Qed.

Lemma minimize_keeps_a_stationary_mean_witness :
  Group.minimize 1 lone_group
  = Ok (Group.mk (map (fun a => Activity.set_t a 0)
                      (Group.activities lone_group))
                 (Group.size lone_group) (Some 0)).
Proof.
  apply (@minimize_keeps_a_stationary_mean 0 lone_group 0 0 20 0).
  - vm_compute. reflexivity.
  - vm_compute. reflexivity.
  - reflexivity.
  - vm_compute. reflexivity.
  - discriminate.
  - vm_compute. reflexivity.
Defined.

(** ** The initial population *)

Lemma new_unranked_step cap mf fuel (m : MOGA) s h0 l h rng r h' :
  new_unranked h0 (l, h, rng) ->
  MOGA.new_individual cap mf fuel m s h = Ok (r, h') ->
  new_unranked h0 (l ++ [r], h', rng).
Proof.
  intros (Hnd & Hn & Hin & Hfr) E.
  apply new_individual_spec in E. destruct E as (-> & Hn' & Hr & Hold).
  cbn. split; [|split; [|split]].
  - apply NoDup_app; [exact Hnd|repeat constructor; intros []|].
    intros a Ha [<-|[]]. apply Hin in Ha. lia.
  - rewrite length_app. cbn. lia.
  - intros r Hr'. apply in_app_iff in Hr'.
    destruct Hr' as [Hr'|[<-|[]]].
    + destruct (Hin r Hr') as [Hr1 Hr2]. split; [lia|].
      rewrite Hold by lia. exact Hr2.
    + split; [lia|exact Hr].
  - intros r Hr'. rewrite Hold by lia. now apply Hfr.
Qed.

(** X27: when [generate_initial_population] returns, the plan of the
    engine has an [N], which a caller has assigned to it, and in the
    parallel mode [init_pop_size] is at most 1; the initial population holds
    [init_pop_size] individuals (one when [init_pop_size] is 0); they are
    new objects, all different, of rank 0, and no object that existed before
    is changed. *)
Theorem initial_population_is_new
        (from_node_to_edge_capacity : System -> DiGraph -> DiGraph)
        (maximum_flow_value :
           DiGraph -> String.string -> String.string -> float)
        (fuel : nat) (m : MOGA) (h : Heap) (rng : Random.state)
        (P : list ref) (h' : Heap) (rng' : Random.state) :
  MOGA.generate_initial_population from_node_to_edge_capacity
    maximum_flow_value fuel m h rng = Ok (P, h', rng') ->
  (exists n, Plan.N (MOGA.plan m) = Some n)
  /\ (MOGA.parallel m = true -> (MOGA.init_pop_size m <= 1)%nat)
  /\ length P = Nat.max 1 (MOGA.init_pop_size m)
  /\ NoDup P
  /\ Heap.next h' = (Heap.next h + length P)%nat
  /\ (forall r, In r P ->
        (Heap.next h <= r < Heap.next h')%nat
        /\ Individual.rank (Heap.get h' r) = 0%Z)
  /\ forall r, (r < Heap.next h)%nat -> Heap.get h' r = Heap.get h r.
Proof.
  intro E.
  pose proof (@initial_population_length _ _ _ _ _ _ _ _ _ E) as Hlen.
  split; [exact (@initial_population_has_N _ _ _ _ _ _ _ E)|].
  unfold MOGA.generate_initial_population in E.
  apply bind_ok in E. destruct E as ([structures rng1] & E1 & E).
  split.
  { intro Hpar. rewrite Hpar in E1.
    destruct (MOGA.init_pop_size m) as [|[|k]]; [lia|lia|discriminate]. }
  clear E1.
  apply bind_ok in E. destruct E as ([population h1] & E2 & E).
  apply bind_ok in E. destruct E as ([S_ rng2] & _ & E).
  apply bind_ok in E. destruct E as ([r h2] & E4 & E).
  injection E as <- <- <-.
  assert (H1 : new_unranked h (population, h1, rng)).
  { refine (@foldM_inv _ _ (fun st => new_unranked h (fst st, snd st, rng))
              _ _ _ ([], h) (population, h1) _ E2).
    - intros [l g] s [l' g'] _ Ha Eb. apply bind_ok in Eb.
      destruct Eb as ([r' g''] & Er & Eb). injection Eb as <- <-.
      cbn [fst snd] in *. eapply new_unranked_step; eauto.
    - cbn. split; [constructor|]. split; [lia|].
      split; [intros r0 []|reflexivity]. }
  destruct (new_unranked_step _ _ _ _ _ H1 E4) as (Hnd & Hn & Hin & Hfr).
  split; [rewrite Hlen; lia|]. tauto.
Qed.

Lemma two_initial :
  exists r,
    MOGA.generate_initial_population keep_graph count_nodes 50 two_moga
      empty_heap mixed_draws = Ok r.
Proof. vm_compute. eexists. reflexivity. Qed.

Lemma initial_population_is_new_witness :
  exists P h' rng',
    MOGA.generate_initial_population keep_graph count_nodes 50 two_moga
      empty_heap mixed_draws = Ok (P, h', rng')
    /\ length P = 2%nat
    /\ NoDup P.
Proof.
  destruct two_initial as [[[P h'] rng'] E]. exists P, h', rng'.
  split; [exact E|].
  destruct (@initial_population_is_new keep_graph count_nodes 50 two_moga
              empty_heap mixed_draws P h' rng' E) as (_ & _ & Hl & Hnd & _).
  split; [exact Hl|exact Hnd].
Defined.

(** ** The history of the engine *)


Lemma extends_record (m : MOGA) news m' P :
  extends m news m' ->
  extends m (news ++ [P]) (MOGA.record_population m' P).
Proof.
  intros (H1 & H2 & H3 & H4 & H5 & H6). unfold extends. cbn.
  rewrite H6, app_assoc. tauto.
Qed.

Section History.

Variable from_node_to_edge_capacity : System -> DiGraph -> DiGraph.
Variable maximum_flow_value :
  DiGraph -> String.string -> String.string -> float.
Variable fuel : nat.
Variable fast_non_dominated_sort :
  list ref -> Heap -> result (list (list ref) * Heap).
Variable _crowding_distance :
  list ref -> Heap -> result (list ref * Heap).

Lemma generations_extend (m0 : MOGA) (l : list nat) :
  forall st st' news,
    extends m0 news (fst (fst (fst st))) ->
    foldM (MOGA.generation from_node_to_edge_capacity maximum_flow_value fuel
             fast_non_dominated_sort _crowding_distance) l st = Ok st' ->
    exists more,
      extends m0 (news ++ more) (fst (fst (fst st')))
      /\ length more = length l.
Proof.
  induction l as [|i l IH]; intros st st' news Hst E; cbn [foldM] in E.
  - injection E as <-. exists []. rewrite app_nil_r. now split.
  - apply bind_ok in E. destruct E as (st1 & Eg & E).
    destruct (@generation_records _ _ _ _ _ _ _ _ Eg) as (P' & _ & Hrec).
    apply (IH st1 st' (news ++ [P'])) in E.
    + destruct E as (more & He & Hl). exists (P' :: more).
      rewrite <- app_assoc in He. cbn [app] in He. split; [exact He|].
      cbn. now rewrite Hl.
    + rewrite Hrec. now apply extends_record.
Qed.

End History.

(** X28: [run] never resets the history: when it returns, which takes a
    plan with an [N] that a caller has assigned to it, on an engine that
    already holds populations, it has appended [n_generations + 1]
    populations after them, and it has changed no other attribute of the
    engine. *)
Theorem run_appends_to_the_history
        (from_node_to_edge_capacity : System -> DiGraph -> DiGraph)
        (maximum_flow_value :
           DiGraph -> String.string -> String.string -> float)
        (fuel : nat)
        (fast_non_dominated_sort :
           list ref -> Heap -> result (list (list ref) * Heap))
        (_crowding_distance : list ref -> Heap -> result (list ref * Heap))
        (m : MOGA) (h : Heap) (rng : Random.state)
        (m' : MOGA) (h' : Heap) (rng' : Random.state) :
  MOGA.run from_node_to_edge_capacity maximum_flow_value fuel
    fast_non_dominated_sort _crowding_distance m h rng = Ok (m', h', rng') ->
  (exists n, Plan.N (MOGA.plan m) = Some n)
  /\ exists news,
      length news = (MOGA.n_generations m + 1)%nat
      /\ MOGA.population_history m' = MOGA.population_history m ++ news
      /\ MOGA.init_pop_size m' = MOGA.init_pop_size m
      /\ MOGA.parallel m' = MOGA.parallel m
      /\ MOGA.p_mutation m' = MOGA.p_mutation m
      /\ MOGA.n_generations m' = MOGA.n_generations m
      /\ MOGA.plan m' = MOGA.plan m.
Proof.
  unfold MOGA.run. intro E.
  apply bind_ok in E. destruct E as ([[P h1] rng1] & Ei & E).
  split; [exact (@initial_population_has_N _ _ _ _ _ _ _ Ei)|]. clear Ei.
  cbv zeta in E.
  apply bind_ok in E. destruct E as ([[[m1 P1] h2] rng2] & Ef & E).
  injection E as <- <- <-.
  apply (@generations_extend _ _ _ _ _ m _ _ _ [P]) in Ef.
  - destruct Ef as (more & (H1 & H2 & H3 & H4 & H5 & H6) & Hl).
    cbn [fst] in *. exists (P :: more).
    rewrite length_seq in Hl. cbn [MOGA.n_generations
      MOGA.record_population] in Hl.
    split; [cbn; lia|]. tauto.
  - cbn [fst]. unfold extends. cbn. tauto.
Qed.

Lemma used_run :
  exists r,
    MOGA.run keep_graph count_nodes 50 Missing.fast_non_dominated_sort
      Missing._crowding_distance used_moga empty_heap mixed_draws = Ok r.
Proof. vm_compute. eexists. reflexivity. Qed.

Lemma run_appends_to_the_history_witness :
  exists m' h' rng' news,
    MOGA.run keep_graph count_nodes 50 Missing.fast_non_dominated_sort
      Missing._crowding_distance used_moga empty_heap mixed_draws
    = Ok (m', h', rng')
    /\ length news = (MOGA.n_generations used_moga + 1)%nat
    /\ MOGA.population_history m'
       = MOGA.population_history used_moga ++ news.
Proof.
  destruct used_run as [[[m' h'] rng'] E].
  destruct (@run_appends_to_the_history _ _ _ _ _ _ _ _ _ _ _ E)
    as (_ & news & Hl & Hh & _).
  exists m', h', rng', news. auto.
Defined.
